(** * molino: the IMAP4 response scanner and parser (src/imap4/parser)

    A shallow embedding of [scanner.c] and of the response grammar of
    [parser.c] (the attributes of a FETCH response for any conversion
    of the dates, which the source leaves to Python), with properties of
    the specification proved, or refuted, against it.

    Conventions.
    - A C [char] buffer is a [list byte]; a pointer into it is an offset.
    - [size_t] and [unsigned long] are 64 bits wide (LP64): a value is a
      [Z] and every arithmetic operation of the source is followed by its
      reduction modulo [2^64], written [size_t].
    - A function that mutates [*self] or [*cur] returns the new state next
      to its result; the state is returned on the error path too, as the
      C code leaves it. *)

From Stdlib Require Import ZArith List Lia Bool.
From Stdlib Require Import Strings.Byte.
From Stdlib Require Strings.String.
Import ListNotations.
Import String.StringSyntax.
Delimit Scope string_scope with string.

Local Open Scope Z_scope.

(* ================================================================== *)
(** ** C integers and characters *)

Definition SIZE_MAX : Z := 2 ^ 64 - 1.
Definition ULONG_MAX : Z := 2 ^ 64 - 1.
Definition ULLONG_MAX : Z := 2 ^ 64 - 1.
Definition PY_SSIZE_T_MAX : Z := 2 ^ 63 - 1.
Definition PY_SSIZE_T_MIN : Z := - 2 ^ 63.

(** Reduction of an arithmetic result to [size_t]. *)
Definition size_t (z : Z) : Z := z mod 2 ^ 64.

Definition CR : byte := x0d.
Definition LF : byte := x0a.
Definition CRLF : list byte := [CR; LF].

(** Bytes of an ASCII string literal of the source. *)
Definition bs (s : String.string) : list byte :=
  String.list_byte_of_string s.
Arguments bs s%_string.

Definition code (c : byte) : Z := Z.of_N (Byte.to_N c).

(** [isdigit] of <ctype.h> in the C locale. *)
Definition isdigit (c : byte) : bool := (48 <=? code c) && (code c <=? 57).

(** [c - '0'] for a digit [c]. *)
Definition digit_value (c : byte) : Z := code c - 48.

(** [buf[i]]; the filler is never read by an access within bounds. *)
Definition byte_at (b : list byte) (i : Z) : byte := nth (Z.to_nat i) b x00.

(** Outcome of a call that either returns a value or raises. *)
Inductive result (E A : Type) : Type :=
| Ok (a : A)
| Raise (e : E).
Arguments Ok {E A} a.
Arguments Raise {E A} e.

(** The value of a run of decimal digits, most significant first. *)
Definition decimal_from (acc : Z) (ds : list byte) : Z :=
  fold_left (fun a c => a * 10 + digit_value c) ds acc.

Definition decimal (ds : list byte) : Z := decimal_from 0 ds.

(* ================================================================== *)
(** ** The scanner (scanner.c) *)

Module Scan.

(** [typedef struct { ... } Scanner].  [buf] is the whole allocation
    ([bufcap] bytes); the scanner's logical contents are its first
    [buflen] bytes. *)
Record Scanner : Type := mkScanner {
  buf : list byte;
  buflen : Z;
  bufcap : Z;
  start_find : Z;
  literal_left : Z
}.

(** The object [PyType_GenericNew] returns: all fields zero, [buf = NULL]. *)
Definition Scanner_new : Scanner := mkScanner [] 0 0 0 0.

(** The exceptions the three methods raise. *)
Inductive exn : Type :=
| IncompleteLiteral   (* ScanError "incomplete literal" *)
| IncompleteLine      (* ScanError "incomplete line" *)
| BadLiteralLength    (* ScanError from errno (ERANGE) after strtoul *)
| TooManyConsumed     (* ScanError "consuming too many characters" *)
| NoMemory            (* PyErr_NoMemory *)
| OverflowError       (* PyLong_AsSize_t on a negative or too large int *)
| SystemError.        (* a method returned its result while the error
                         indicator was set: the interpreter raises
                         SystemError in its place *)

Definition logical (s : Scanner) : list byte :=
  firstn (Z.to_nat (buflen s)) (buf s).

(** *** feed *)

(** Whether a Python integer fits a [Py_ssize_t]. *)
Definition fits_ssize_t (n : Z) : bool :=
  (PY_SSIZE_T_MIN <=? n) && (n <=? PY_SSIZE_T_MAX).

(** [PyLong_AsSsize_t]: the integer, or -1 with OverflowError set when
    it does not fit. *)
Definition PyLong_AsSsize_t (n : Z) : Z :=
  if fits_ssize_t n then n else -1.

(** The optional length argument, a Python integer, converted and
    clamped (lines 36-47).  The source does not test the conversion for
    failure: the -1 it returns then is a length like any other. *)
Definition feed_len (view_len : Z) (len_obj : option Z) : Z :=
  match len_obj with
  | None => view_len
  | Some n =>
      let len := PyLong_AsSsize_t n in
      if len >? view_len then view_len
      else if len <? 0 then
        (if len <? - view_len then 0 else view_len + len)
      else len
  end.

(** [memcpy(&dst[off], src, n)]. *)
Definition memcpy (dst : list byte) (off : Z) (src : list byte) (n : Z)
  : list byte :=
  firstn (Z.to_nat off) dst ++ firstn (Z.to_nat n) src
    ++ skipn (Z.to_nat (off + n)) dst.

(** A successful [PyMem_RawRealloc(old, size)]: the old bytes, then fresh
    storage (whose contents the caller overwrites before reading). *)
Definition realloc (old : list byte) (size : Z) : list byte :=
  firstn (Z.to_nat size) old ++ repeat x00 (Z.to_nat size - length old).

(** What [feed] hands back at line 62: [None].  When the conversion of
    line 39 has failed the error indicator is still set, and the caller
    gets a SystemError instead. *)
Definition feed_returns (len_obj : option Z) : result exn unit :=
  match len_obj with
  | None => Ok tt
  | Some n => if fits_ssize_t n then Ok tt else Raise SystemError
  end.

(** [Scanner_feed].  [view] is the caller's buffer, [len_obj] the optional
    second argument, a Python integer, and [realloc_ok] tells whether
    [PyMem_RawRealloc], if it is called, returns storage. *)
Definition Scanner_feed (self : Scanner) (view : list byte)
    (len_obj : option Z) (realloc_ok : bool) : result exn unit * Scanner :=
  let len := feed_len (Z.of_nat (length view)) len_obj in
  let buflen' := size_t (buflen self + len) in
  if buflen' >? bufcap self then
    if realloc_ok then
      let newbuf := realloc (buf self) buflen' in
      (feed_returns len_obj,
       mkScanner (memcpy newbuf (size_t (buflen' - len)) view len)
                 buflen' buflen'
                 (start_find self) (literal_left self))
    else
      (Raise NoMemory,
       mkScanner (buf self) buflen' (bufcap self)
                 (start_find self) (literal_left self))
  else
    (feed_returns len_obj,
     mkScanner (memcpy (buf self) (size_t (buflen' - len)) view len) buflen'
               (bufcap self) (start_find self) (literal_left self)).

(** *** get *)

(** Offset of the first CR LF pair of [l]. *)
Fixpoint find_crlf (l : list byte) : option nat :=
  match l with
  | [] => None
  | c :: t =>
      match t with
      | d :: _ =>
          if Byte.eqb c CR && Byte.eqb d LF then Some O
          else option_map S (find_crlf t)
      | [] => None
      end
  end.

(** [memmem(b + start, len, "\r\n", 2)], as an offset from [b]. *)
Definition memmem_crlf (b : list byte) (start len : Z) : option Z :=
  option_map (fun i => start + Z.of_nat i)
    (find_crlf (firstn (Z.to_nat len) (skipn (Z.to_nat start) b))).

(** [while (p > self->buf && isdigit( *(p - 1))) p--;] *)
Fixpoint rewind_digits (b : list byte) (p : nat) : nat :=
  match p with
  | O => O
  | S q => if isdigit (nth q b x00) then rewind_digits b q else p
  end.

(** The digits [strtoul] reads, most significant first. *)
Fixpoint strtoul_digits (l : list byte) (acc : Z) : Z :=
  match l with
  | c :: t => if isdigit c then strtoul_digits t (acc * 10 + digit_value c)
              else acc
  | [] => acc
  end.

(** [strtoul(p, NULL, 10)] where [p] points at a digit: the value and
    whether [errno] was set to ERANGE. *)
Definition strtoul (l : list byte) : Z * bool :=
  let v := strtoul_digits l 0 in
  if v >? ULONG_MAX then (ULONG_MAX, true) else (v, false).

(** One pass through the body of [while (1)]. *)
Inductive iter : Type :=
| Continue (s : Scanner)
| Return (r : result exn (list byte)) (s : Scanner).

Definition set_cursor (self : Scanner) (sf ll : Z) : Scanner :=
  mkScanner (buf self) (buflen self) (bufcap self) sf ll.

(** Lines 84-109, and 116-122 for the two [break]s. *)
Definition find_line (self : Scanner) : iter :=
  match memmem_crlf (buf self) (start_find self)
          (size_t (buflen self - start_find self)) with
  | None =>
      Return (Raise IncompleteLine)
        (if buflen self >? 0
         then set_cursor self (size_t (buflen self - 1)) (literal_left self)
         else self)
  | Some crlf =>
      let line :=
        Return (Ok (firstn (Z.to_nat (crlf + 2)) (buf self)))
               (set_cursor self crlf (literal_left self)) in
      if negb (crlf =? 0)
         && Byte.eqb (byte_at (buf self) (crlf - 1)) "}"%byte then
        let p := Z.of_nat (rewind_digits (buf self) (Z.to_nat (crlf - 1))) in
        if (p =? 0)
           || negb (Byte.eqb (byte_at (buf self) (p - 1)) "{"%byte)
           || (p =? crlf - 1) then line
        else
          let (length, errno) := strtoul (skipn (Z.to_nat p) (buf self)) in
          if errno then Return (Raise BadLiteralLength) self
          else Continue (set_cursor self (size_t (crlf + 2)) length)
      else line
  end.

(** Lines 71-82, then the rest of the body. *)
Definition Scanner_get_body (self : Scanner) : iter :=
  if literal_left self >? 0 then
    let n := size_t (buflen self - start_find self) in
    if n <? literal_left self then
      Return (Raise IncompleteLiteral)
        (set_cursor self (size_t (start_find self + n))
                    (size_t (literal_left self - n)))
    else
      find_line
        (set_cursor self (size_t (start_find self + literal_left self)) 0)
  else find_line self.

(** The loop, unrolled at most [fuel] times. *)
Fixpoint Scanner_get_loop (fuel : nat) (self : Scanner)
  : option (result exn (list byte) * Scanner) :=
  match fuel with
  | O => None
  | S k =>
      match Scanner_get_body self with
      | Return r s => Some (r, s)
      | Continue s => Scanner_get_loop k s
      end
  end.

(** [Scanner_get].  Every pass that continues moves the cursor past a
    CR LF, so [buflen + 1] passes are enough ([Scanner_get_total]).  The
    view returned aliases the buffer; it is given by its contents at the
    time of the call. *)
Definition Scanner_get (self : Scanner)
  : option (result exn (list byte) * Scanner) :=
  Scanner_get_loop (S (Z.to_nat (buflen self))) self.

(** *** consume *)

(** [Scanner_consume]; [n_obj] is the Python integer passed. *)
Definition Scanner_consume (self : Scanner) (n_obj : Z)
  : result exn unit * Scanner :=
  if (n_obj <? 0) || (n_obj >? SIZE_MAX) then (Raise OverflowError, self)
  else if n_obj >? buflen self then (Raise TooManyConsumed, self)
  else
    let buflen' := size_t (buflen self - n_obj) in
    (Ok tt,
     mkScanner
       (memcpy (buf self) 0 (skipn (Z.to_nat n_obj) (buf self)) buflen')
       buflen' (bufcap self) 0 0).

(** *** The scanner's representation invariant *)

Record wf (s : Scanner) : Prop := {
  wf_alloc : Z.of_nat (length (buf s)) = bufcap s;
  wf_cursor : 0 <= start_find s <= buflen s;
  wf_len : buflen s <= bufcap s;
  wf_cap : bufcap s <= SIZE_MAX;
  wf_literal : 0 <= literal_left s <= ULONG_MAX
}.

(** *** Vocabulary of the statements about the scanner *)

(** The state in which the CR LF search starts: the cursor moved past
    what was left of the literal. *)
Definition skipped (s : Scanner) : Scanner :=
  set_cursor s (start_find s + literal_left s) 0.

(** The cases of [find_line] on a well-formed scanner. *)
Inductive find_line_spec (s : Scanner) : iter -> Prop :=
| FL_incomplete :
    memmem_crlf (buf s) (start_find s) (buflen s - start_find s) = None ->
    find_line_spec s
      (Return (Raise IncompleteLine)
         (if buflen s >? 0
          then set_cursor s (buflen s - 1) (literal_left s) else s))
| FL_line crlf :
    memmem_crlf (buf s) (start_find s) (buflen s - start_find s)
      = Some crlf ->
    start_find s <= crlf -> crlf + 2 <= buflen s ->
    byte_at (buf s) crlf = CR -> byte_at (buf s) (crlf + 1) = LF ->
    find_line_spec s
      (Return (Ok (firstn (Z.to_nat (crlf + 2)) (buf s)))
              (set_cursor s crlf (literal_left s)))
| FL_errno crlf :
    memmem_crlf (buf s) (start_find s) (buflen s - start_find s)
      = Some crlf ->
    start_find s <= crlf -> crlf + 2 <= buflen s ->
    find_line_spec s (Return (Raise BadLiteralLength) s)
| FL_literal crlf len :
    memmem_crlf (buf s) (start_find s) (buflen s - start_find s)
      = Some crlf ->
    start_find s <= crlf -> crlf + 2 <= buflen s ->
    0 <= len <= ULONG_MAX ->
    find_line_spec s (Continue (set_cursor s (crlf + 2) len)).


(** A series of feeds, each given as the caller's buffer and the
    optional length; every allocation succeeds. *)
Definition feed_all (s : Scanner) (chunks : list (list byte * option Z))
  : Scanner :=
  fold_left (fun s c => snd (Scanner_feed s (fst c) (snd c) true)) chunks s.

(** The number of bytes a series of feeds appends. *)
Definition fed_bytes (chunks : list (list byte * option Z)) : Z :=
  fold_right (fun c n => feed_len (Z.of_nat (length (fst c))) (snd c) + n)
             0 chunks.

(** After a failing [get] either a literal is pending, or the cursor is
    inside the buffer, or the buffer is empty. *)
Definition resumable (c : Z) (s : Scanner) : Prop :=
  literal_left s > 0 \/ c < buflen s \/ buflen s = 0.

(** One byte is fed at a time; [get] is called after every feed and a
    view it returns is consumed whole.  The result is the list of the
    views, in order, and the scanner at the end. *)
Fixpoint drive (s : Scanner) (input : list byte)
  : option (list (list byte) * Scanner) :=
  match input with
  | [] => Some ([], s)
  | c :: rest =>
      let s1 := snd (Scanner_feed s [c] None true) in
      match Scanner_get s1 with
      | None => None
      | Some (Ok v, s2) =>
          let s3 := snd (Scanner_consume s2 (Z.of_nat (length v))) in
          option_map (fun r => (v :: fst r, snd r)) (drive s3 rest)
      | Some (Raise _, s2) => drive s2 rest
      end
  end.

(** The line [* LIST () "/" {3}], CR LF, the three payload bytes [{5}],
    CR LF: a LIST response whose mailbox name, sent as a literal, is
    [{5}]. *)
Definition list_literal_line : list byte :=
  bs "* LIST () " ++ [x22] ++ bs "/" ++ [x22] ++ bs " {3}" ++ CRLF
    ++ bs "{5}" ++ CRLF.


(** The test of lines 93-107 at a CR LF found at offset [crlf]: the
    bytes before it are no literal header, a header whose length
    [strtoul] rejects, or a header with its length. *)
Inductive header : Type :=
| NoHeader
| BadHeader
| Header (len : Z).

Definition header_at (b : list byte) (crlf : Z) : header :=
  if negb (crlf =? 0) && Byte.eqb (byte_at b (crlf - 1)) "}"%byte then
    let p := Z.of_nat (rewind_digits b (Z.to_nat (crlf - 1))) in
    if (p =? 0)
       || negb (Byte.eqb (byte_at b (p - 1)) "{"%byte)
       || (p =? crlf - 1) then NoHeader
    else
      let (length, errno) := strtoul (skipn (Z.to_nat p) b) in
      if errno then BadHeader else Header length
  else NoHeader.

(** Where the header that [header_at] finds before [crlf] begins: the
    offset of its brace. *)
Definition header_start (b : list byte) (crlf : Z) : Z :=
  Z.of_nat (rewind_digits b (Z.to_nat (crlf - 1))) - 1.

(** The end of a spliced line, read off the first [len] bytes of [b]:
    [from] is the offset after the payload of a literal, where the line
    goes on.  The line ends with the first CR LF at or after [from],
    unless the bytes before that CR LF are a literal header, which
    splices the line once more: the line then goes on after that
    header's payload.  The payload before [from] is opaque, so a header
    lies wholly at or after [from].  There is no end ([None]) when the
    bytes do not hold the whole line, when a header's length does not
    fit, and when the bytes before a CR LF read as a header only
    together with bytes of the payload before [from]. *)
Fixpoint spliced_line_end (fuel : nat) (b : list byte) (len from : Z)
  : option Z :=
  match fuel with
  | O => None
  | S k =>
      match memmem_crlf b from (len - from) with
      | None => None
      | Some crlf =>
          match header_at b crlf with
          | NoHeader => Some (crlf + 2)
          | BadHeader => None
          | Header length =>
              if header_start b crlf <? from then None
              else if len - (crlf + 2) <? length then None
              else spliced_line_end k b len (crlf + 2 + length)
          end
      end
  end.

(** [t] is [s] after more bytes were appended: the same cursor and
    pending literal, and the contents of [s] as a prefix of those of
    [t]. *)
Definition extends (t s : Scanner) : Prop :=
  start_find t = start_find s /\ literal_left t = literal_left s /\
  buflen s <= buflen t /\
  firstn (Z.to_nat (buflen s)) (buf t) = logical s.

End Scan.
(* ================================================================== *)
(** ** The parser (parser.c) *)

Module Parse.

(** *** Tokens *)

(** The identifiers of tokens.h, one per keyword. *)
Inductive Token : Type :=
| IMAP4_OK | IMAP4_NO | IMAP4_BAD | IMAP4_PREAUTH | IMAP4_BYE
| IMAP4_CAPABILITY | IMAP4_ENABLED
| IMAP4_FLAGS | IMAP4_LIST | IMAP4_LSUB | IMAP4_SEARCH | IMAP4_ESEARCH
| IMAP4_STATUS
| IMAP4_EXISTS | IMAP4_EXPUNGE | IMAP4_RECENT | IMAP4_FETCH
| IMAP4_BODY | IMAP4_BODYSTRUCTURE | IMAP4_ENVELOPE | IMAP4_INTERNALDATE
| IMAP4_MODSEQ | IMAP4_RFC822 | IMAP4_RFC822_HEADER | IMAP4_RFC822_TEXT
| IMAP4_RFC822_SIZE | IMAP4_UID | IMAP4_X_GM_MSGID
| IMAP4_MIN | IMAP4_MAX | IMAP4_ALL | IMAP4_COUNT
| IMAP4_MESSAGES | IMAP4_UIDNEXT | IMAP4_UIDVALIDITY | IMAP4_UNSEEN
| IMAP4_ALERT | IMAP4_PARSE | IMAP4_READ_ONLY | IMAP4_READ_WRITE
| IMAP4_TRYCREATE | IMAP4_HIGHESTMODSEQ
| IMAP4_BODYSECTIONS.

Definition Token_eq_dec (a b : Token) : {a = b} + {a <> b}.
Proof. decide equality. Defined.

Definition Token_eqb (a b : Token) : bool :=
  if Token_eq_dec a b then true else false.

Fixpoint bytes_eqb (a b : list byte) : bool :=
  match a, b with
  | [], [] => true
  | x :: a', y :: b' => Byte.eqb x y && bytes_eqb a' b'
  | _, _ => false
  end.

(** ASCII [toupper]. *)
Definition toupper (c : byte) : byte :=
  if (97 <=? code c) && (code c <=? 122) then
    match Byte.of_N (Byte.to_N c - 32) with Some u => u | None => c end
  else c.

Definition keywords : list (String.string * Token) :=
  [ ("OK", IMAP4_OK); ("NO", IMAP4_NO); ("BAD", IMAP4_BAD);
    ("PREAUTH", IMAP4_PREAUTH); ("BYE", IMAP4_BYE);
    ("CAPABILITY", IMAP4_CAPABILITY); ("ENABLED", IMAP4_ENABLED);
    ("FLAGS", IMAP4_FLAGS); ("LIST", IMAP4_LIST); ("LSUB", IMAP4_LSUB);
    ("SEARCH", IMAP4_SEARCH); ("ESEARCH", IMAP4_ESEARCH);
    ("STATUS", IMAP4_STATUS);
    ("EXISTS", IMAP4_EXISTS); ("EXPUNGE", IMAP4_EXPUNGE);
    ("RECENT", IMAP4_RECENT); ("FETCH", IMAP4_FETCH);
    ("BODY", IMAP4_BODY); ("BODYSTRUCTURE", IMAP4_BODYSTRUCTURE);
    ("ENVELOPE", IMAP4_ENVELOPE); ("INTERNALDATE", IMAP4_INTERNALDATE);
    ("MODSEQ", IMAP4_MODSEQ); ("RFC822", IMAP4_RFC822);
    ("RFC822.HEADER", IMAP4_RFC822_HEADER);
    ("RFC822.TEXT", IMAP4_RFC822_TEXT); ("RFC822.SIZE", IMAP4_RFC822_SIZE);
    ("UID", IMAP4_UID); ("X-GM-MSGID", IMAP4_X_GM_MSGID);
    ("MIN", IMAP4_MIN); ("MAX", IMAP4_MAX); ("ALL", IMAP4_ALL);
    ("COUNT", IMAP4_COUNT);
    ("MESSAGES", IMAP4_MESSAGES); ("UIDNEXT", IMAP4_UIDNEXT);
    ("UIDVALIDITY", IMAP4_UIDVALIDITY); ("UNSEEN", IMAP4_UNSEEN);
    ("ALERT", IMAP4_ALERT); ("PARSE", IMAP4_PARSE);
    ("READ-ONLY", IMAP4_READ_ONLY); ("READ-WRITE", IMAP4_READ_WRITE);
    ("TRYCREATE", IMAP4_TRYCREATE);
    ("HIGHESTMODSEQ", IMAP4_HIGHESTMODSEQ) ]%string.

(** Modelled from the spec: [imap4_token] (declared in parser.h, defined in
    a file that is not under src/) maps a byte slice that is one of the
    keywords, compared without regard to case, to its identifier; [None]
    stands for 0, the value for no match.  BODYSECTIONS names no keyword. *)
Definition imap4_token (str : list byte) : option Token :=
  option_map snd
    (find (fun kw => bytes_eqb (map toupper str) (bs (fst kw))) keywords).

(** *** Python values *)

Inductive StructType : Type :=
| ContinueReqType | EsearchType | FetchType | ListType | ResponseTextType
| StatusType | TaggedResponseType | UntaggedResponseType.

(** The objects the parser builds.  [PyNULL] is the null pointer, which
    the source can store in a slot of a struct sequence. *)
#[local] Unset Elimination Schemes.
Inductive PyObject : Type :=
| PyNULL
| Py_None
| PyBool (b : bool)
| PyLong (n : Z)
| PyBytes (b : list byte)
| PyUnicode (s : list byte)
| PyToken (t : option Token)
| PyTuple (items : list PyObject)
| PyList (items : list PyObject)
| PySet (elts : list PyObject)
| PyDict (items : list (PyObject * PyObject))
| PyStructSequence (type : StructType) (fields : list PyObject).
#[local] Set Elimination Schemes.

(** Equality of the objects used as set elements and dictionary keys:
    strings, integers and tokens. *)
Definition PyObject_eqb (a b : PyObject) : bool :=
  match a, b with
  | Py_None, Py_None => true
  | PyBool x, PyBool y => Bool.eqb x y
  | PyLong x, PyLong y => x =? y
  | PyBytes x, PyBytes y => bytes_eqb x y
  | PyUnicode x, PyUnicode y => bytes_eqb x y
  | PyToken (Some x), PyToken (Some y) => Token_eqb x y
  | PyToken None, PyToken None => true
  | _, _ => false
  end.

(** [PySet_Add] on the elements of a set. *)
Definition PySet_Add (s : list PyObject) (o : PyObject) : list PyObject :=
  if existsb (PyObject_eqb o) s then s else s ++ [o].

(** [PyDict_SetItem] on the items of a dictionary. *)
Fixpoint PyDict_SetItem (d : list (PyObject * PyObject)) (k v : PyObject)
  : list (PyObject * PyObject) :=
  match d with
  | [] => [(k, v)]
  | (k', v') :: t =>
      if PyObject_eqb k k' then (k', v) :: t
      else (k', v') :: PyDict_SetItem t k v
  end.

(** *** Errors and the parser monad *)

Inductive exn : Type :=
| ParseError (msg : String.string)     (* PARSE_ERROR(msg) *)
| ParseError_expected (s : list byte)  (* PARSE_ERROR("expected %R", s) *)
| UnicodeDecodeError                   (* decoding non-ASCII bytes *)
| SystemError   (* a call into the interpreter returned while the error
                   indicator was set *)
| OutOfFuel.   (* not an exception of the source: a loop of the model
                  unrolled fewer times than it runs *)
Arguments ParseError msg%_string.

(** What a C function of the parser hands back: a value ([Val]), a null
    pointer with the error indicator set ([Err]), or a value while the
    error indicator is set ([ValErr]); the last arises where the source
    does not check a call for failure and goes on. *)
Inductive res (A : Type) : Type :=
| Val (a : A)
| Err (e : exn)
| ValErr (a : A) (e : exn).
Arguments Val {A} a.
Arguments Err {A} e.
Arguments ValErr {A} a e.

(** A parsing function: [Py_buffer *view] and [Py_ssize_t *cur] in, the
    result and the new [*cur] out.  [*cur] is an offset into the view. *)
Definition parser (A : Type) : Type := list byte -> nat -> res A * nat.

Definition ret {A} (a : A) : parser A := fun _ cur => (Val a, cur).

Definition fail {A} (e : exn) : parser A := fun _ cur => (Err e, cur).

(** Sequencing.  A failure ends the function ([goto err]).  An error
    indicator left set by an earlier step stays set unless a later step
    fails, which replaces it. *)
Definition bind {A B} (p : parser A) (f : A -> parser B) : parser B :=
  fun view cur =>
    match p view cur with
    | (Val a, cur') => f a view cur'
    | (Err e, cur') => (Err e, cur')
    | (ValErr a e, cur') =>
        match f a view cur' with
        | (Val b, cur'') => (ValErr b e, cur'')
        | other => other
        end
    end.

Notation "x <- p ;; q" := (bind p (fun x => q))
  (at level 61, p at next level, right associativity).
Notation "p ;;; q" := (bind p (fun _ => q))
  (at level 61, right associativity).

(** A call whose result the source uses without testing it for NULL. *)
Definition unchecked (p : parser PyObject) : parser PyObject :=
  fun view cur =>
    match p view cur with
    | (Err e, cur') => (ValErr PyNULL e, cur')
    | other => other
    end.

(** [Token_FromLong] (lines 354-366): the object [imap4.Token(token)],
    made by importing the package and calling its class.  [error_set]
    tells whether the error indicator is set when the function runs: the
    interpreter then refuses what the import or the call returns
    (SystemError) and the function returns NULL.  With the indicator
    clear the import and the call are taken to succeed; the class lives
    in the Python part of the package. *)
Definition Token_FromLong (error_set : bool) (token : option Token)
  : parser PyObject :=
  if error_set then fail SystemError else ret (PyToken token).

(** [PyDict_SetItemToken] (lines 368-382), on the items of the
    dictionary. *)
Definition PyDict_SetItemToken (error_set : bool)
    (p : list (PyObject * PyObject)) (token : option Token) (val : PyObject)
  : parser (list (PyObject * PyObject)) :=
  key_obj <- Token_FromLong error_set token ;;
  ret (PyDict_SetItem p key_obj val).

(** Whether a pointer is NULL. *)
Definition is_NULL (o : PyObject) : bool :=
  match o with
  | PyNULL => true
  | _ => false
  end.

(** *** Helpers (lines 222-326) *)

Definition TRUNCATED_PARSE : exn := ParseError "truncated parse".

Definition PEEKC : parser byte := fun view cur =>
  match nth_error view cur with
  | Some c => (Val c, cur)
  | None => (Err TRUNCATED_PARSE, cur)
  end.

Definition GETC : parser byte := fun view cur =>
  match nth_error view cur with
  | Some c => (Val c, S cur)
  | None => (Err TRUNCATED_PARSE, cur)
  end.

Definition EXPECTC (c : byte) : parser unit := fun view cur =>
  match nth_error view cur with
  | None => (Err TRUNCATED_PARSE, cur)
  | Some d =>
      if Byte.eqb d c then (Val tt, S cur)
      else (Err (ParseError_expected [c]), cur)
  end.

Definition EXPECTS (s : list byte) : parser unit := fun view cur =>
  if (length view <? cur + length s)%nat then (Err TRUNCATED_PARSE, cur)
  else if bytes_eqb (firstn (length s) (skipn cur view)) s
       then (Val tt, (cur + length s)%nat)
       else (Err (ParseError_expected s), cur).

(** The longest prefix of [l] whose bytes satisfy [ok]. *)
Fixpoint span (ok : byte -> bool) (l : list byte) : list byte :=
  match l with
  | c :: t => if ok c then c :: span ok t else []
  | [] => []
  end.

(** The control characters of the reject tables: 0x01-0x1f and 0x7f. *)
Definition CTL (c : byte) : bool :=
  ((1 <=? code c) && (code c <=? 31)) || (code c =? 127).

Definition one_of (s : list byte) (c : byte) : bool := existsb (Byte.eqb c) s.

Definition atom_specials (c : byte) : bool :=
  one_of (bs "(){ %*" ++ [x22; x5c; x5d]) c || CTL c.

Definition astring_reject (c : byte) : bool :=
  one_of (bs "(){ %*" ++ [x22; x5c]) c || CTL c.

Definition resp_text_code_reject (c : byte) : bool := one_of [CR; LF; x5d] c.

Definition text_reject (c : byte) : bool := one_of [CR; LF] c.

Definition tag_reject (c : byte) : bool :=
  one_of (bs "(){ %*" ++ [x22; x5c] ++ bs "+") c || CTL c.

(** The bytes [bufcspn] and [parse_cspn] run over: a [char] from 0x01 to
    0x7f that the table does not reject. *)
Definition accepted (reject : byte -> bool) (c : byte) : bool :=
  (1 <=? code c) && (code c <=? 127) && negb (reject c).

(** [bufcspn]: the span is returned as its bytes. *)
Definition bufcspn (reject : byte -> bool) : parser (list byte) :=
  fun view cur =>
    if (length view <=? cur)%nat then (Err TRUNCATED_PARSE, cur)
    else
      let s := span (accepted reject) (skipn cur view) in
      (Val s, (cur + length s)%nat).

Definition parse_cspn (reject : byte -> bool) : parser PyObject :=
  s <- bufcspn reject ;;
  match s with
  | [] => fail (ParseError "empty span")
  | _ => ret (PyUnicode s)
  end.

Definition token_char (c : byte) : bool :=
  ((65 <=? code c) && (code c <=? 90))
  || ((97 <=? code c) && (code c <=? 122))
  || ((48 <=? code c) && (code c <=? 57))
  || Byte.eqb c "."%byte || Byte.eqb c "-"%byte.

(** [parse_token]; the result -1 of the source is the failure. *)
Definition parse_token : parser (option Token) := fun view cur =>
  if (length view <=? cur)%nat then (Err TRUNCATED_PARSE, cur)
  else
    let tok := span token_char (skipn cur view) in
    match imap4_token tok with
    | Some t => (Val (Some t), (cur + length tok)%nat)
    | None => (Val None, cur)
    end.

Definition parse_atom : parser PyObject := parse_cspn atom_specials.

(** *** Numbers (lines 1860-1907) *)

(** Reduction of an arithmetic result to [unsigned long long]. *)
Definition ull (z : Z) : Z := z mod 2 ^ 64.

(** The loop of [_parse_number] from [p] on: the value read and the
    number of digits, or nothing when the number overflows. *)
Fixpoint number_loop (l : list byte) (res : Z) (n : nat)
  : option (Z * nat) :=
  match l with
  | c :: t =>
      if (48 <=? code c) && (code c <=? 57) then
        let digit := code c - 48 in
        if (res >? ULLONG_MAX / 10)
           || ((res =? ULLONG_MAX / 10) && (digit >? ULLONG_MAX mod 10))
        then None
        else number_loop t (ull (ull (res * 10) + digit)) (S n)
      else Some (res, n)
  | [] => Some (res, n)
  end.

Definition _parse_number : parser Z := fun view cur =>
  if (length view <=? cur)%nat then (Err TRUNCATED_PARSE, cur)
  else
    match number_loop (skipn cur view) 0 O with
    | None => (Err (ParseError "number overflowed"), cur)
    | Some (_, O) => (Err (ParseError "expected number"), cur)
    | Some (res, n) => (Val res, (cur + n)%nat)
    end.

Definition parse_number : parser PyObject :=
  number <- _parse_number ;; ret (PyLong number).

(** *** Strings (lines 2338-2457, 436-476) *)

(** The loop over a quoted string from [start] on: the bytes collected
    and [p - start] when it stops at the closing quote. *)
Fixpoint quoted_loop (l : list byte) (buffer : list byte) (n : nat)
  : result exn (list byte * nat) :=
  match l with
  | [] => Raise TRUNCATED_PARSE
  | c :: t =>
      if Byte.eqb c x22 then Ok (buffer, n)
      else if Byte.eqb c x5c then
        match t with
        | [] => Raise TRUNCATED_PARSE
        | d :: t' =>
            if negb (Byte.eqb d x22) && negb (Byte.eqb d x5c)
            then Raise (ParseError "invalid quoted character")
            else quoted_loop t' (buffer ++ [d]) (S (S n))
        end
      else quoted_loop t (buffer ++ [c]) (S n)
  end.

Definition parse_string : parser PyObject :=
  c <- GETC ;;
  if Byte.eqb c x22 then
    (fun view cur =>
       match quoted_loop (skipn cur view) [] O with
       | Raise e => (Err e, cur)
       | Ok (buffer, n) =>
           (EXPECTC x22 ;;; ret (PyBytes buffer)) view (cur + n)%nat
       end)
  else if Byte.eqb c "{"%byte then
    number <- _parse_number ;;
    if number >? PY_SSIZE_T_MAX
    then fail (ParseError "literal length overflowed")
    else
      EXPECTS (bs "}" ++ CRLF) ;;;
      (fun view cur =>
         if Z.of_nat (length view - cur) <? number
         then (Err TRUNCATED_PARSE, cur)
         else (Val (PyBytes (firstn (Z.to_nat number) (skipn cur view))),
               (cur + Z.to_nat number)%nat))
  else fail (ParseError "invalid string").

(** [PyUnicode_FromEncodedObject(bytes, "ascii", "strict")]. *)
Definition decode_ascii (o : PyObject) : parser PyObject :=
  match o with
  | PyBytes b =>
      if forallb (fun c => code c <=? 127) b then ret (PyUnicode b)
      else fail UnicodeDecodeError
  | other => ret other
  end.

Definition parse_string_ascii : parser PyObject :=
  bytes <- parse_string ;; decode_ascii bytes.

Definition parse_astring : parser PyObject :=
  c <- PEEKC ;;
  if Byte.eqb c x22 || Byte.eqb c "{"%byte then parse_string
  else
    atom <- bufcspn astring_reject ;;
    match atom with
    | [] => fail (ParseError "empty astring")
    | _ => ret (PyBytes atom)
    end.

(** *** Sequence sets and ESEARCH (lines 2230-2268, 1380-1467) *)

(** The loop of [parse_sequence_set]; every pass reads a number, so the
    length of the view bounds the passes. *)
Fixpoint sequence_set_loop (fuel : nat) (items : list PyObject)
  : parser (list PyObject) :=
  match fuel with
  | O => fail OutOfFuel
  | S k =>
      number1 <- _parse_number ;;
      c <- PEEKC ;;
      item <- (if Byte.eqb c ":"%byte then
                 GETC ;;;
                 number2 <- _parse_number ;;
                 ret (PyTuple [PyLong number1; PyLong number2])
               else ret (PyLong number1)) ;;
      c <- PEEKC ;;
      if negb (Byte.eqb c ","%byte) then ret (items ++ [item])
      else GETC ;;; sequence_set_loop k (items ++ [item])
  end.

Definition parse_sequence_set : parser PyObject := fun view =>
  (items <- sequence_set_loop (S (length view)) [] ;; ret (PyList items)) view.

(** The loop over the returns of an ESEARCH response: [uid] and the
    items of [returned] as they stand after the passes made.
    [error_set] tells whether the loop runs with the error indicator
    set. *)
Fixpoint esearch_returns (error_set : bool) (fuel : nat) (uid : bool)
    (returned : list (PyObject * PyObject))
  : parser (bool * list (PyObject * PyObject)) :=
  match fuel with
  | O => fail OutOfFuel
  | S k =>
      c <- PEEKC ;;
      if negb (Byte.eqb c " "%byte) then ret (uid, returned)
      else
        GETC ;;;
        token <- parse_token ;;
        match token with
        | Some IMAP4_UID => esearch_returns error_set k true returned
        | Some IMAP4_COUNT | Some IMAP4_MAX | Some IMAP4_MIN =>
            EXPECTC " "%byte ;;;
            value <- parse_number ;;
            returned' <- PyDict_SetItemToken error_set returned token value ;;
            esearch_returns error_set k uid returned'
        | Some IMAP4_ALL =>
            EXPECTC " "%byte ;;;
            value <- parse_sequence_set ;;
            returned' <- PyDict_SetItemToken error_set returned token value ;;
            esearch_returns error_set k uid returned'
        | _ => fail (ParseError "unknown ESEARCH return")
        end
  end.

(** [parse_esearch_response].  The result of [parse_string_ascii] is
    stored without a test for NULL (line 1413): when [tag] is NULL the
    error indicator is set, and the loop over the returns runs with it
    set. *)
Definition parse_esearch_response : parser PyObject :=
  c <- PEEKC ;;
  if negb (Byte.eqb c " "%byte) then
    ret (PyStructSequence EsearchType [Py_None; PyBool false; PyDict []])
  else
    GETC ;;;
    c <- PEEKC ;;
    tag <- (if Byte.eqb c "("%byte then
              EXPECTS (bs "(TAG ") ;;;
              tag <- unchecked parse_string_ascii ;;
              EXPECTC ")"%byte ;;;
              ret tag
            else ret Py_None) ;;
    fun view =>
      (r <- esearch_returns (is_NULL tag) (S (length view)) false [] ;;
       ret (PyStructSequence EsearchType
              [tag; PyBool (fst r); PyDict (snd r)])) view.

(** *** resp-text (lines 2094-2196) *)

Definition parse_resp_text : parser PyObject :=
  c <- PEEKC ;;
  if Byte.eqb c "["%byte then
    GETC ;;;
    atom <- bufcspn atom_specials ;;
    match atom with
    | [] => fail (ParseError "empty atom")
    | _ =>
        let token := imap4_token atom in
        code_pair <-
          match token with
          | Some IMAP4_ALERT | Some IMAP4_PARSE | Some IMAP4_READ_ONLY
          | Some IMAP4_READ_WRITE | Some IMAP4_TRYCREATE =>
              code <- Token_FromLong false token ;;
              ret (code, Py_None)
          | Some IMAP4_HIGHESTMODSEQ | Some IMAP4_UIDNEXT
          | Some IMAP4_UIDVALIDITY | Some IMAP4_UNSEEN =>
              code <- Token_FromLong false token ;;
              EXPECTC " "%byte ;;;
              code_data <- parse_number ;;
              ret (code, code_data)
          | _ =>
              c <- PEEKC ;;
              if Byte.eqb c " "%byte then
                GETC ;;;
                code_data <- parse_cspn resp_text_code_reject ;;
                ret (PyUnicode atom, code_data)
              else ret (PyUnicode atom, Py_None)
          end ;;
        EXPECTC "]"%byte ;;;
        c <- PEEKC ;;
        text <- (if Byte.eqb c " "%byte
                 then GETC ;;; parse_cspn text_reject
                 else ret Py_None) ;;
        ret (PyStructSequence ResponseTextType
               [text; fst code_pair; snd code_pair])
    end
  else
    text <- parse_cspn text_reject ;;
    ret (PyStructSequence ResponseTextType [text; Py_None; Py_None]).

(** *** Flags, mailboxes, STATUS, SEARCH (lines 1469-1650, 2198-2336) *)

Fixpoint flag_list_loop (fuel : nat) (flags : list PyObject)
  : parser (list PyObject) :=
  match fuel with
  | O => fail OutOfFuel
  | S k =>
      c <- PEEKC ;;
      flag <- (if Byte.eqb c x5c then
                 GETC ;;;
                 atom <- bufcspn atom_specials ;;
                 match atom with
                 | [] => fail (ParseError "empty atom")
                 | _ => ret (PyUnicode (x5c :: atom))
                 end
               else parse_atom) ;;
      c <- PEEKC ;;
      if negb (Byte.eqb c " "%byte) then ret (PySet_Add flags flag)
      else GETC ;;; flag_list_loop k (PySet_Add flags flag)
  end.

Definition parse_flag_list : parser PyObject :=
  EXPECTC "("%byte ;;;
  c <- PEEKC ;;
  if Byte.eqb c ")"%byte then GETC ;;; ret (PySet [])
  else
    fun view =>
      (flags <- flag_list_loop (S (length view)) [] ;;
       EXPECTC ")"%byte ;;;
       ret (PySet flags)) view.

Fixpoint mbx_list_flags_loop (fuel : nat) (flags : list PyObject)
  : parser (list PyObject) :=
  match fuel with
  | O => fail OutOfFuel
  | S k =>
      EXPECTC x5c ;;;
      atom <- bufcspn atom_specials ;;
      match atom with
      | [] => fail (ParseError "empty atom")
      | _ =>
          let flags' := PySet_Add flags (PyUnicode (x5c :: atom)) in
          c <- PEEKC ;;
          if negb (Byte.eqb c " "%byte) then ret flags'
          else GETC ;;; mbx_list_flags_loop k flags'
      end
  end.

Definition parse_mbx_list_flags : parser PyObject :=
  EXPECTC "("%byte ;;;
  c <- PEEKC ;;
  if Byte.eqb c ")"%byte then GETC ;;; ret (PySet [])
  else
    fun view =>
      (flags <- mbx_list_flags_loop (S (length view)) [] ;;
       EXPECTC ")"%byte ;;;
       ret (PySet flags)) view.

(** ASCII [tolower], as [strncasecmp] applies it. *)
Definition tolower (c : byte) : byte :=
  if (65 <=? code c) && (code c <=? 90) then
    match Byte.of_N (Byte.to_N c + 32) with Some l => l | None => c end
  else c.

Definition parse_mailbox : parser PyObject :=
  mailbox <- parse_astring ;;
  match mailbox with
  | PyBytes buffer =>
      if (length buffer =? 5)%nat
         && bytes_eqb (map tolower buffer) (map tolower (bs "INBOX"))
      then ret (PyBytes (bs "INBOX"))
      else ret mailbox
  | _ => ret mailbox
  end.

(** A [char] converted to [long]; [char] is signed, as on x86-64. *)
Definition char_to_long (c : byte) : Z :=
  if code c <? 128 then code c else code c - 256.

Definition parse_mailbox_list : parser PyObject :=
  flags <- parse_mbx_list_flags ;;
  EXPECTC " "%byte ;;;
  c <- PEEKC ;;
  delimiter <- (if Byte.eqb c x22 then
                  GETC ;;;
                  c <- GETC ;;
                  EXPECTS ([x22] ++ bs " ") ;;;
                  ret (PyLong (char_to_long c))
                else EXPECTS (bs "NIL ") ;;; ret Py_None) ;;
  mailbox <- parse_mailbox ;;
  ret (PyStructSequence ListType [flags; delimiter; mailbox]).

Fixpoint status_att_loop (fuel : nat) (items : list (PyObject * PyObject))
  : parser (list (PyObject * PyObject)) :=
  match fuel with
  | O => fail OutOfFuel
  | S k =>
      token <- parse_token ;;
      match token with
      | Some IMAP4_MESSAGES | Some IMAP4_RECENT | Some IMAP4_UIDNEXT
      | Some IMAP4_UIDVALIDITY | Some IMAP4_UNSEEN =>
          EXPECTC " "%byte ;;;
          value <- parse_number ;;
          items' <- PyDict_SetItemToken false items token value ;;
          c <- PEEKC ;;
          if negb (Byte.eqb c " "%byte) then ret items'
          else GETC ;;; status_att_loop k items'
      | _ => fail (ParseError "unknown status item")
      end
  end.

Definition parse_status_att : parser PyObject :=
  EXPECTC " "%byte ;;;
  mailbox <- parse_mailbox ;;
  EXPECTS (bs " (") ;;;
  fun view =>
    (items <- status_att_loop (S (length view)) [] ;;
     EXPECTC ")"%byte ;;;
     ret (PyStructSequence StatusType [mailbox; PyDict items])) view.

Fixpoint search_att_loop (fuel : nat) (data : list PyObject)
  : parser (list PyObject) :=
  match fuel with
  | O => fail OutOfFuel
  | S k =>
      c <- PEEKC ;;
      if Byte.eqb c " "%byte then
        GETC ;;;
        number <- parse_number ;;
        search_att_loop k (PySet_Add data number)
      else ret data
  end.

Definition parse_search_att : parser PyObject := fun view =>
  (data <- search_att_loop (S (length view)) [] ;; ret (PySet data)) view.

(** The loop of the CAPABILITY and ENABLED case (lines 1973-1984). *)
Fixpoint capability_loop (fuel : nat) (data : list PyObject)
  : parser (list PyObject) :=
  match fuel with
  | O => fail OutOfFuel
  | S k =>
      c <- PEEKC ;;
      if Byte.eqb c " "%byte then
        GETC ;;;
        cap <- parse_atom ;;
        capability_loop k (PySet_Add data cap)
      else ret data
  end.

(** *** Responses (lines 1110-1140, 1645-1720, 1905-2092) *)

Section Response.

(** The attributes of a FETCH response ([parse_msg_att], with the
    BODYSTRUCTURE and ENVELOPE grammars and the calls into Python's
    [email] and [datetime] modules behind it) come in the section
    [Fetch] below: the responses are parsed for any such function. *)
Variable parse_msg_att : parser PyObject.

Definition parse_message_data : parser (PyObject * PyObject) :=
  number <- _parse_number ;;
  EXPECTC " "%byte ;;;
  token <- parse_token ;;
  type <- Token_FromLong false token ;;
  match token with
  | Some IMAP4_FETCH =>
      EXPECTC " "%byte ;;;
      msg_att <- parse_msg_att ;;
      ret (type, PyStructSequence FetchType [PyLong number; msg_att])
  | Some IMAP4_EXISTS | Some IMAP4_EXPUNGE | Some IMAP4_RECENT =>
      ret (type, PyLong number)
  | _ => fail (ParseError "unknown message data")
  end.

Definition parse_response_data : parser PyObject :=
  EXPECTS (bs "* ") ;;;
  c <- PEEKC ;;
  td <- (if (48 <=? code c) && (code c <=? 57) then parse_message_data
         else
           token <- parse_token ;;
           type <- Token_FromLong false token ;;
           match token with
           | Some IMAP4_OK | Some IMAP4_NO | Some IMAP4_BAD
           | Some IMAP4_PREAUTH | Some IMAP4_BYE =>
               EXPECTC " "%byte ;;;
               data <- parse_resp_text ;;
               ret (type, data)
           | Some IMAP4_CAPABILITY | Some IMAP4_ENABLED =>
               fun view =>
                 (data <- capability_loop (S (length view)) [] ;;
                  ret (type, PySet data)) view
           | Some IMAP4_ESEARCH =>
               data <- parse_esearch_response ;;
               ret (type, data)
           | Some IMAP4_FLAGS =>
               EXPECTC " "%byte ;;;
               data <- parse_flag_list ;;
               ret (type, data)
           | Some IMAP4_LIST | Some IMAP4_LSUB =>
               EXPECTC " "%byte ;;;
               data <- parse_mailbox_list ;;
               ret (type, data)
           | Some IMAP4_SEARCH =>
               data <- parse_search_att ;;
               ret (type, data)
           | Some IMAP4_STATUS =>
               data <- parse_status_att ;;
               ret (type, data)
           | _ => fail (ParseError "unknown untagged response")
           end) ;;
  EXPECTS CRLF ;;;
  ret (PyStructSequence UntaggedResponseType [fst td; snd td]).

Definition parse_response_tagged : parser PyObject :=
  tag <- parse_cspn tag_reject ;;
  EXPECTC " "%byte ;;;
  token <- parse_token ;;
  match token with
  | Some IMAP4_OK | Some IMAP4_NO | Some IMAP4_BAD =>
      EXPECTC " "%byte ;;;
      type <- Token_FromLong false token ;;
      text <- parse_resp_text ;;
      EXPECTS CRLF ;;;
      ret (PyStructSequence TaggedResponseType [tag; type; text])
  | _ => fail (ParseError "unknown tagged response")
  end.

Definition parse_continue_req : parser PyObject :=
  EXPECTS (bs "+ ") ;;;
  text <- parse_resp_text ;;
  EXPECTS CRLF ;;;
  ret (PyStructSequence ContinueReqType [text]).

Definition parse_response : parser PyObject :=
  c <- PEEKC ;;
  if Byte.eqb c "*"%byte then parse_response_data
  else if Byte.eqb c "+"%byte then parse_continue_req
  else parse_response_tagged.

(** *** The entry points (lines 133-218) *)

(** The body the three entry points share: the production [p] runs from
    offset 0 and has to end at the end of the view. *)
Definition entry_point (p : parser PyObject) (what : String.string)
    (view : list byte) : res PyObject :=
  match view with
  | [] => Err (ParseError "nothing to parse")
  | _ =>
      match p view O with
      | (Err e, _) => Err e
      | (r, cur) =>
          if negb (cur =? length view)%nat
          then Err (ParseError
                      (String.append "trailing characters after " what))
          else r
      end
  end.

Definition parse_response_line : list byte -> res PyObject :=
  entry_point parse_response "response"%string.

End Response.

Definition parse_imap_string : list byte -> res PyObject :=
  entry_point parse_string "string"%string.

Definition parse_imap_astring : list byte -> res PyObject :=
  entry_point parse_astring "astring"%string.

(** A stand-in for the FETCH attribute parser, for statements about
    responses that are no FETCH: it rejects its input. *)
Definition no_msg_att : parser PyObject :=
  fail (ParseError "FETCH attributes are not modelled").

(** *** Vocabulary of the statements about the parser *)

Definition quoted_special (c : byte) : bool :=
  Byte.eqb c x22 || Byte.eqb c x5c.

(** The bytes [x] between the quotes of a quoted string: a backslash
    before every quote and every backslash, the other bytes as they are. *)
Definition quote_body (x : list byte) : list byte :=
  flat_map (fun c => if quoted_special c then [x5c; c] else [c]) x.

(** [x] as a quoted string. *)
Definition quoted (x : list byte) : list byte :=
  x22 :: quote_body x ++ [x22].

(** [x] as a literal whose length is written with the digits [ds]. *)
Definition literal (ds x : list byte) : list byte :=
  bs "{" ++ ds ++ bs "}" ++ CRLF ++ x.

(** [e] is the string [x] on the wire: quoted, or a literal whose digits
    give the length of [x]. *)
Inductive imap_string (x : list byte) : list byte -> Prop :=
| imap_quoted : imap_string x (quoted x)
| imap_literal ds :
    ds <> [] -> Forall (fun c => isdigit c = true) ds ->
    decimal ds = Z.of_nat (length x) ->
    imap_string x (literal ds x).

Definition all_ascii (x : list byte) : Prop :=
  Forall (fun c => code c <= 127) x.

(** A result that is not the model's own [OutOfFuel]. *)
Definition fuel_ok {A} (r : res A) : Prop :=
  match r with
  | Val _ => True
  | Err e => e <> OutOfFuel
  | ValErr _ e => e <> OutOfFuel
  end.

(** A parsing function that, started inside the view, leaves the cursor
    no further back and inside the view, and never runs out of fuel. *)
Definition steady {A} (p : parser A) : Prop :=
  forall view cur r cur',
    (cur <= length view)%nat ->
    p view cur = (r, cur') ->
    (cur <= cur' <= length view)%nat /\ fuel_ok r.

(** The same, for the calls with fewer than [m] bytes of the view left. *)
Definition steady_below {A} (m : nat) (p : parser A) : Prop :=
  forall view cur r cur',
    (cur <= length view)%nat ->
    (length view - cur < m)%nat ->
    p view cur = (r, cur') ->
    (cur <= cur' <= length view)%nat /\ fuel_ok r.

(** A steady parsing function that consumes a byte of the view at least
    whenever it hands back a value. *)
Definition progressing {A} (p : parser A) : Prop :=
  steady p /\
  forall view cur r cur',
    (cur <= length view)%nat ->
    p view cur = (r, cur') ->
    match r with
    | Err _ => True
    | _ => (cur < cur')%nat
    end.

(** The same, for the calls with fewer than [m] bytes of the view left. *)
Definition progressing_below {A} (m : nat) (p : parser A) : Prop :=
  steady_below m p /\
  forall view cur r cur',
    (cur <= length view)%nat ->
    (length view - cur < m)%nat ->
    p view cur = (r, cur') ->
    match r with
    | Err _ => True
    | _ => (cur < cur')%nat
    end.

(** The untagged ESEARCH response with the given fields. *)
Definition Esearch_response (tag : PyObject) (uid : bool)
    (returned : list (PyObject * PyObject)) : PyObject :=
  PyStructSequence UntaggedResponseType
    [PyToken (Some IMAP4_ESEARCH);
     PyStructSequence EsearchType [tag; PyBool uid; PyDict returned]].

(** *** Parts of a FETCH response (lines 498-603, 783-925, 1820-1855,
    2441-2460)

    The functions of the FETCH grammar that build strings, numbers,
    lists, tuples and dictionaries. *)

Definition parse_nstring : parser PyObject :=
  c <- PEEKC ;;
  if Byte.eqb c "N"%byte then EXPECTS (bs "NIL") ;;; ret Py_None
  else parse_string.

Definition parse_nstring_ascii : parser PyObject :=
  bytes <- parse_nstring ;;
  match bytes with
  | Py_None => ret Py_None
  | _ => decode_ascii bytes
  end.

(** [bytes.lower()]: the ASCII capitals are mapped, nothing else is. *)
Definition bytes_lower (o : PyObject) : PyObject :=
  match o with
  | PyBytes b => PyBytes (map tolower b)
  | other => other
  end.

Definition parse_string_ascii_lower : parser PyObject :=
  bytes <- parse_string ;; decode_ascii (bytes_lower bytes).

Definition section_spec_reject (c : byte) : bool := one_of [CR; LF; x5d] c.

(** [parse_bodysection]; [dict] is the dictionary the source adds the
    section to, given by its items.  Nothing is added on failure. *)
Definition parse_bodysection (dict : list (PyObject * PyObject))
  : parser (list (PyObject * PyObject)) :=
  EXPECTC "["%byte ;;;
  section <- bufcspn section_spec_reject ;;
  EXPECTC "]"%byte ;;;
  c <- PEEKC ;;
  origin <- (if Byte.eqb c "<"%byte then
               GETC ;;;
               origin <- parse_number ;;
               EXPECTC ">"%byte ;;;
               ret origin
             else ret Py_None) ;;
  EXPECTC " "%byte ;;;
  content <- parse_nstring ;;
  ret (PyDict_SetItem dict (PyUnicode section) (PyTuple [content; origin])).

(** The loop of [parse_body_extension] over the items of a
    parenthesised list; [item] is the recursive call. *)
Fixpoint body_extension_loop (item : parser PyObject) (fuel : nat)
    (items : list PyObject) : parser (list PyObject) :=
  match fuel with
  | O => fail OutOfFuel
  | S k =>
      extension <- item ;;
      c <- PEEKC ;;
      if Byte.eqb c ")"%byte then GETC ;;; ret (items ++ [extension])
      else EXPECTC " "%byte ;;;
           body_extension_loop item k (items ++ [extension])
  end.

(** [parse_body_extension], nested at most [depth] lists deep. *)
Fixpoint body_extension (depth : nat) : parser PyObject :=
  match depth with
  | O => fail OutOfFuel
  | S k =>
      c <- PEEKC ;;
      if Byte.eqb c "("%byte then
        GETC ;;;
        fun view =>
          (items <- body_extension_loop (body_extension k)
                      (S (length view)) [] ;;
           ret (PyList items)) view
      else if (48 <=? code c) && (code c <=? 57) then parse_number
      else parse_nstring_ascii
  end.

(** Every list opened takes a byte of the view, so the lists nest no
    deeper than the view is long. *)
Definition parse_body_extension : parser PyObject := fun view =>
  body_extension (S (length view)) view.

Fixpoint body_fld_param_loop (fuel : nat)
    (params : list (PyObject * PyObject))
  : parser (list (PyObject * PyObject)) :=
  match fuel with
  | O => fail OutOfFuel
  | S k =>
      key <- parse_string_ascii_lower ;;
      EXPECTC " "%byte ;;;
      value <- parse_string_ascii ;;
      let params' := PyDict_SetItem params key value in
      c <- PEEKC ;;
      if Byte.eqb c ")"%byte then GETC ;;; ret params'
      else EXPECTC " "%byte ;;; body_fld_param_loop k params'
  end.

Definition parse_body_fld_param : parser PyObject :=
  c <- PEEKC ;;
  if negb (Byte.eqb c "("%byte) then EXPECTS (bs "NIL") ;;; ret (PyDict [])
  else
    GETC ;;;
    fun view =>
      (params <- body_fld_param_loop (S (length view)) [] ;;
       ret (PyDict params)) view.

Definition parse_body_fld_dsp : parser PyObject :=
  c <- PEEKC ;;
  if negb (Byte.eqb c "("%byte) then EXPECTS (bs "NIL") ;;; ret Py_None
  else
    GETC ;;;
    type <- parse_string_ascii_lower ;;
    EXPECTC " "%byte ;;;
    params <- parse_body_fld_param ;;
    EXPECTC ")"%byte ;;;
    ret (PyTuple [type; params]).

Fixpoint body_fld_lang_loop (fuel : nat) (items : list PyObject)
  : parser (list PyObject) :=
  match fuel with
  | O => fail OutOfFuel
  | S k =>
      lang <- parse_string_ascii ;;
      c <- PEEKC ;;
      if Byte.eqb c ")"%byte then GETC ;;; ret (items ++ [lang])
      else EXPECTC " "%byte ;;; body_fld_lang_loop k (items ++ [lang])
  end.

Definition parse_body_fld_lang : parser PyObject :=
  c <- PEEKC ;;
  if negb (Byte.eqb c "("%byte) then
    lang <- parse_nstring_ascii ;;
    match lang with
    | Py_None => ret Py_None
    | _ => ret (PyList [lang])
    end
  else
    GETC ;;;
    fun view =>
      (items <- body_fld_lang_loop (S (length view)) [] ;;
       ret (PyList items)) view.

(** *** Vocabulary of the statements about these functions *)

(** The digits of a number [_parse_number] accepts. *)
Definition number_digits (ds : list byte) : Prop :=
  ds <> [] /\ Forall (fun c => isdigit c = true) ds
  /\ decimal ds <= ULLONG_MAX.

(** An element of a sequence set as it is written: a number, or two
    numbers with a colon between them, each given by its digits. *)
Inductive seq_item : Type :=
| seq_number (ds : list byte)
| seq_range (ds1 ds2 : list byte).

Definition seq_item_bytes (i : seq_item) : list byte :=
  match i with
  | seq_number ds => ds
  | seq_range ds1 ds2 => ds1 ++ bs ":" ++ ds2
  end.

(** The elements with a comma between every two. *)
Fixpoint sequence_set_bytes (items : list seq_item) : list byte :=
  match items with
  | [] => []
  | [i] => seq_item_bytes i
  | i :: rest => seq_item_bytes i ++ bs "," ++ sequence_set_bytes rest
  end.

Definition seq_item_value (i : seq_item) : PyObject :=
  match i with
  | seq_number ds => PyLong (decimal ds)
  | seq_range ds1 ds2 => PyTuple [PyLong (decimal ds1); PyLong (decimal ds2)]
  end.

Definition seq_item_ok (i : seq_item) : Prop :=
  match i with
  | seq_number ds => number_digits ds
  | seq_range ds1 ds2 => number_digits ds1 /\ number_digits ds2
  end.

(** A [str] without an ASCII capital. *)
Definition lower_str (o : PyObject) : Prop :=
  exists k, o = PyUnicode k /\ map tolower k = k.

Definition is_str (o : PyObject) : Prop := exists v, o = PyUnicode v.

(** The origin octet of a body section as it is written, if there is
    one, and its value. *)
Definition origin_bytes (origin : option (list byte)) : list byte :=
  match origin with
  | Some ds => bs "<" ++ ds ++ bs ">"
  | None => []
  end.

Definition origin_value (origin : option (list byte)) : PyObject :=
  match origin with
  | Some ds => PyLong (decimal ds)
  | None => Py_None
  end.

(** A body extension as it is written: a number by its digits, NIL, a
    string [x] written as [e], or a parenthesised list of at least one
    extension. *)
#[local] Unset Elimination Schemes.
Inductive ext : Type :=
| ext_number (ds : list byte)
| ext_nil
| ext_string (x e : list byte)
| ext_list (first : ext) (others : list ext).
#[local] Set Elimination Schemes.

Fixpoint ext_bytes (t : ext) : list byte :=
  match t with
  | ext_number ds => ds
  | ext_nil => bs "NIL"
  | ext_string _ e => e
  | ext_list first others =>
      bs "(" ++ ext_bytes first
        ++ flat_map (fun o => bs " " ++ ext_bytes o) others ++ bs ")"
  end.

Fixpoint ext_value (t : ext) : PyObject :=
  match t with
  | ext_number ds => PyLong (decimal ds)
  | ext_nil => Py_None
  | ext_string x _ => PyUnicode x
  | ext_list first others => PyList (ext_value first :: map ext_value others)
  end.

Fixpoint ext_ok (t : ext) : Prop :=
  match t with
  | ext_number ds => number_digits ds
  | ext_nil => True
  | ext_string x e => imap_string x e /\ all_ascii x
  | ext_list first others =>
      ext_ok first /\ fold_right (fun o P => ext_ok o /\ P) True others
  end.

(** How deep the lists of an extension nest, plus one. *)
Fixpoint ext_height (t : ext) : nat :=
  match t with
  | ext_list first others =>
      S (fold_right (fun o m => Nat.max (ext_height o) m)
           (ext_height first) others)
  | _ => 1
  end.

(** *** Addresses, envelopes, body structures and the attributes of a
    FETCH response (lines 384-497, 604-781, 926-1113, 1190-1330,
    1719-1819) *)

(** The struct sequence types of types.c that only a FETCH response
    uses. *)
Inductive FetchStructType : Type :=
| AddressType | EnvelopeType | TextBodyType | MessageBodyType
| BasicBodyType | MultipartBodyType.

(** The extension fields of a body that the response does not give
    (lines 1017-1029 and 1087-1103). *)
Definition ext_defaults_1part : list PyObject :=
  [Py_None; Py_None; Py_None; Py_None; PyList []].

Definition ext_defaults_mpart : list PyObject :=
  [PyDict []; Py_None; Py_None; Py_None; PyList []].

(** The extension fields parsed, then the defaults for the others. *)
Definition pad_ext (defaults fields : list PyObject) : list PyObject :=
  fields ++ skipn (length fields) defaults.

(** [PyUnicode_CompareWithASCIIString(o, s) == 0]. *)
Definition str_is (o : PyObject) (s : list byte) : bool :=
  match o with
  | PyUnicode u => bytes_eqb u s
  | _ => false
  end.

Section Fetch.

(** The struct sequences of these six types are left abstract:
    [fetch_struct t fields] is the object of type [t] whose fields, in
    the order of types.c, are [fields]. *)
Variable fetch_struct : FetchStructType -> list PyObject -> PyObject.

(** [parse_env_date] and [parse_date_time] hand a string of the view to
    Python's [email.utils.parsedate_to_datetime] and
    [datetime.strptime]; the functions below are given for any two such
    parsing functions. *)
Variable parse_env_date : parser PyObject.
Variable parse_date_time : parser PyObject.

Definition parse_address : parser PyObject :=
  EXPECTC "("%byte ;;;
  name <- parse_nstring ;;
  EXPECTC " "%byte ;;;
  adl <- parse_nstring ;;
  EXPECTC " "%byte ;;;
  mailbox <- parse_nstring ;;
  EXPECTC " "%byte ;;;
  host <- parse_nstring ;;
  EXPECTC ")"%byte ;;;
  ret (fetch_struct AddressType [name; adl; mailbox; host]).

Fixpoint env_addrs_loop (fuel : nat) (items : list PyObject)
  : parser (list PyObject) :=
  match fuel with
  | O => fail OutOfFuel
  | S k =>
      item <- parse_address ;;
      c <- PEEKC ;;
      if negb (Byte.eqb c "("%byte) then ret (items ++ [item])
      else env_addrs_loop k (items ++ [item])
  end.

Definition parse_env_addrs : parser PyObject :=
  c <- PEEKC ;;
  if Byte.eqb c "N"%byte then EXPECTS (bs "NIL") ;;; ret Py_None
  else
    EXPECTC "("%byte ;;;
    fun view =>
      (items <- env_addrs_loop (S (length view)) [] ;;
       EXPECTC ")"%byte ;;;
       ret (PyList items)) view.

Definition parse_envelope : parser PyObject :=
  EXPECTC "("%byte ;;;
  date <- parse_env_date ;;
  EXPECTC " "%byte ;;;
  subject <- parse_nstring ;;
  EXPECTC " "%byte ;;;
  env_from <- parse_env_addrs ;;
  EXPECTC " "%byte ;;;
  sender <- parse_env_addrs ;;
  EXPECTC " "%byte ;;;
  reply_to <- parse_env_addrs ;;
  EXPECTC " "%byte ;;;
  env_to <- parse_env_addrs ;;
  EXPECTC " "%byte ;;;
  cc <- parse_env_addrs ;;
  EXPECTC " "%byte ;;;
  bcc <- parse_env_addrs ;;
  EXPECTC " "%byte ;;;
  in_reply_to <- parse_nstring ;;
  EXPECTC " "%byte ;;;
  message_id <- parse_nstring ;;
  EXPECTC ")"%byte ;;;
  ret (fetch_struct EnvelopeType
         [date; subject; env_from; sender; reply_to; env_to; cc; bcc;
          in_reply_to; message_id]).

(** [parse_body_fields]: the fields 2 to 6 of the body it is given. *)
Definition parse_body_fields : parser (list PyObject) :=
  param <- parse_body_fld_param ;;
  EXPECTC " "%byte ;;;
  id <- parse_nstring_ascii ;;
  EXPECTC " "%byte ;;;
  desc <- parse_nstring_ascii ;;
  EXPECTC " "%byte ;;;
  enc <- parse_string_ascii_lower ;;
  EXPECTC " "%byte ;;;
  octets <- parse_number ;;
  ret [param; id; desc; enc; octets].

(** The loop that ends [parse_body_ext_1part] and
    [parse_body_ext_mpart]. *)
Fixpoint body_ext_loop (fuel : nat) (items : list PyObject)
  : parser (list PyObject) :=
  match fuel with
  | O => fail OutOfFuel
  | S k =>
      c <- PEEKC ;;
      if Byte.eqb c " "%byte then
        GETC ;;;
        field <- parse_body_extension ;;
        body_ext_loop k (items ++ [field])
      else ret items
  end.

(** [parse_body_ext_1part]: the extension fields it sets, from the
    field [ext] of the body on; their number is what the source
    returns. *)
Definition parse_body_ext_1part : parser (list PyObject) :=
  md5 <- parse_nstring_ascii ;;
  c <- PEEKC ;;
  if negb (Byte.eqb c " "%byte) then ret [md5]
  else
    GETC ;;;
    dsp <- parse_body_fld_dsp ;;
    c <- PEEKC ;;
    if negb (Byte.eqb c " "%byte) then ret [md5; dsp]
    else
      GETC ;;;
      lang <- parse_body_fld_lang ;;
      c <- PEEKC ;;
      if negb (Byte.eqb c " "%byte) then ret [md5; dsp; lang]
      else
        GETC ;;;
        loc <- parse_nstring_ascii ;;
        c <- PEEKC ;;
        if negb (Byte.eqb c " "%byte) then ret [md5; dsp; lang; loc]
        else
          fun view =>
            (items <- body_ext_loop (S (length view)) [] ;;
             ret [md5; dsp; lang; loc; PyList items]) view.

(** [parse_body_ext_mpart]: the same with the parameters first, from the
    field 3 of the body on. *)
Definition parse_body_ext_mpart : parser (list PyObject) :=
  param <- parse_body_fld_param ;;
  c <- PEEKC ;;
  if negb (Byte.eqb c " "%byte) then ret [param]
  else
    GETC ;;;
    dsp <- parse_body_fld_dsp ;;
    c <- PEEKC ;;
    if negb (Byte.eqb c " "%byte) then ret [param; dsp]
    else
      GETC ;;;
      lang <- parse_body_fld_lang ;;
      c <- PEEKC ;;
      if negb (Byte.eqb c " "%byte) then ret [param; dsp; lang]
      else
        GETC ;;;
        loc <- parse_nstring_ascii ;;
        c <- PEEKC ;;
        if negb (Byte.eqb c " "%byte) then ret [param; dsp; lang; loc]
        else
          fun view =>
            (items <- body_ext_loop (S (length view)) [] ;;
             ret [param; dsp; lang; loc; PyList items]) view.

(** [parse_body_type_1part]; [parse_body] is the recursive call for the
    body of a message/rfc822 part. *)
Definition body_type_1part (parse_body : parser PyObject)
  : parser PyObject :=
  media_type <- parse_string_ascii_lower ;;
  EXPECTC " "%byte ;;;
  media_subtype <- parse_string_ascii_lower ;;
  EXPECTC " "%byte ;;;
  typed <-
    (if str_is media_type (bs "text") then
       fields <- parse_body_fields ;;
       EXPECTC " "%byte ;;;
       lines <- parse_number ;;
       ret (TextBodyType, fields ++ [lines])
     else if str_is media_type (bs "message")
             && str_is media_subtype (bs "rfc822") then
       fields <- parse_body_fields ;;
       EXPECTC " "%byte ;;;
       envelope <- parse_envelope ;;
       EXPECTC " "%byte ;;;
       body <- parse_body ;;
       EXPECTC " "%byte ;;;
       lines <- parse_number ;;
       ret (MessageBodyType, fields ++ [envelope; body; lines])
     else
       fields <- parse_body_fields ;;
       ret (BasicBodyType, fields)) ;;
  c <- PEEKC ;;
  ext <- (if Byte.eqb c " "%byte then GETC ;;; parse_body_ext_1part
          else ret []) ;;
  ret (fetch_struct (fst typed)
         (media_type :: media_subtype :: snd typed
            ++ pad_ext ext_defaults_1part ext)).

(** The loop over the parts of a multipart body. *)
Fixpoint body_parts_loop (parse_body : parser PyObject) (fuel : nat)
    (parts : list PyObject) : parser (list PyObject) :=
  match fuel with
  | O => fail OutOfFuel
  | S k =>
      c <- PEEKC ;;
      if Byte.eqb c "("%byte then
        body <- parse_body ;;
        body_parts_loop parse_body k (parts ++ [body])
      else ret parts
  end.

(** [parse_body_type_mpart]; [parse_body] is the recursive call for a
    part. *)
Definition body_type_mpart (parse_body : parser PyObject)
  : parser PyObject :=
  fun view =>
    (parts <- body_parts_loop parse_body (S (length view)) [] ;;
     EXPECTC " "%byte ;;;
     media_subtype <- parse_string_ascii_lower ;;
     c <- PEEKC ;;
     ext <- (if Byte.eqb c " "%byte then GETC ;;; parse_body_ext_mpart
             else ret []) ;;
     ret (fetch_struct MultipartBodyType
            (PyUnicode (bs "multipart") :: media_subtype :: PyList parts
               :: pad_ext ext_defaults_mpart ext))) view.

(** [parse_body], with bodies nested at most [depth] deep. *)
Fixpoint body (depth : nat) : parser PyObject :=
  match depth with
  | O => fail OutOfFuel
  | S k =>
      EXPECTC "("%byte ;;;
      c <- PEEKC ;;
      b <- (if Byte.eqb c "("%byte then body_type_mpart (body k)
            else body_type_1part (body k)) ;;
      EXPECTC ")"%byte ;;;
      ret b
  end.

(** Every body opened takes a byte of the view. *)
Definition parse_body : parser PyObject := fun view =>
  body (S (length view)) view.

Definition parse_body_type_1part : parser PyObject :=
  body_type_1part parse_body.

Definition parse_body_type_mpart : parser PyObject :=
  body_type_mpart parse_body.

(** The loop of [parse_msg_att].  [bodysections] is the dictionary of
    the body sections once there is one; [data] holds that same object
    under BODYSECTIONS, so a section added to the one shows in the
    other: the entry of [data] is brought up to date after
    [parse_bodysection]. *)
Fixpoint msg_att_loop (fuel : nat) (data : list (PyObject * PyObject))
    (bodysections : option (list (PyObject * PyObject)))
  : parser (list (PyObject * PyObject)) :=
  match fuel with
  | O => fail OutOfFuel
  | S k =>
      token <- parse_token ;;
      let set att_data :=
        data' <- PyDict_SetItemToken false data token att_data ;;
        ret (data', bodysections) in
      let body_att :=
        EXPECTC " "%byte ;;; att_data <- parse_body ;; set att_data in
      state <-
        match token with
        | Some IMAP4_FLAGS =>
            EXPECTC " "%byte ;;; att_data <- parse_flag_list ;; set att_data
        | Some IMAP4_BODY =>
            c <- PEEKC ;;
            if Byte.eqb c "["%byte then
              data' <-
                match bodysections with
                | Some _ => ret data
                | None =>
                    PyDict_SetItemToken false data (Some IMAP4_BODYSECTIONS)
                      (PyDict [])
                end ;;
              let sections :=
                match bodysections with Some d => d | None => [] end in
              sections' <- parse_bodysection sections ;;
              ret (PyDict_SetItem data' (PyToken (Some IMAP4_BODYSECTIONS))
                     (PyDict sections'),
                   Some sections')
            else body_att
        | Some IMAP4_BODYSTRUCTURE => body_att
        | Some IMAP4_ENVELOPE =>
            EXPECTC " "%byte ;;; att_data <- parse_envelope ;; set att_data
        | Some IMAP4_INTERNALDATE =>
            EXPECTC " "%byte ;;; att_data <- parse_date_time ;; set att_data
        | Some IMAP4_MODSEQ =>
            EXPECTS (bs " (") ;;;
            number <- _parse_number ;;
            EXPECTC ")"%byte ;;;
            set (PyLong number)
        | Some IMAP4_RFC822 | Some IMAP4_RFC822_HEADER
        | Some IMAP4_RFC822_TEXT =>
            EXPECTC " "%byte ;;; att_data <- parse_nstring ;; set att_data
        | Some IMAP4_RFC822_SIZE | Some IMAP4_UID | Some IMAP4_X_GM_MSGID =>
            EXPECTC " "%byte ;;; att_data <- parse_number ;; set att_data
        | _ => fail (ParseError "unknown FETCH item")
        end ;;
      c <- PEEKC ;;
      if negb (Byte.eqb c " "%byte) then ret (fst state)
      else GETC ;;; msg_att_loop k (fst state) (snd state)
  end.

Definition parse_msg_att : parser PyObject :=
  EXPECTC "("%byte ;;;
  fun view =>
    (data <- msg_att_loop (S (length view)) [] None ;;
     EXPECTC ")"%byte ;;;
     ret (PyDict data)) view.

End Fetch.

(** *** Vocabulary for the facts on FETCH attributes *)

(** A struct sequence shown as the tuple of its fields. *)
Definition struct_tuple (t : FetchStructType) (fields : list PyObject)
  : PyObject := PyTuple fields.

(** An nstring as it is written: NIL, or the string [x] written as
    [e]. *)
Inductive nstr : Type :=
| nstr_nil
| nstr_string (x e : list byte).

Definition nstr_bytes (n : nstr) : list byte :=
  match n with
  | nstr_nil => bs "NIL"
  | nstr_string _ e => e
  end.

Definition nstr_value (n : nstr) : PyObject :=
  match n with
  | nstr_nil => Py_None
  | nstr_string x _ => PyBytes x
  end.

Definition nstr_ok (n : nstr) : Prop :=
  match n with
  | nstr_nil => True
  | nstr_string x e => imap_string x e
  end.

(** An address as it is written: four nstrings between parentheses. *)
Record address : Type := Address {
  addr_name : nstr;
  addr_adl : nstr;
  addr_mailbox : nstr;
  addr_host : nstr
}.

Definition address_bytes (a : address) : list byte :=
  bs "(" ++ nstr_bytes (addr_name a) ++ bs " " ++ nstr_bytes (addr_adl a)
    ++ bs " " ++ nstr_bytes (addr_mailbox a) ++ bs " "
    ++ nstr_bytes (addr_host a) ++ bs ")".

Definition address_value
    (fetch_struct : FetchStructType -> list PyObject -> PyObject)
    (a : address) : PyObject :=
  fetch_struct AddressType
    [nstr_value (addr_name a); nstr_value (addr_adl a);
     nstr_value (addr_mailbox a); nstr_value (addr_host a)].

Definition address_ok (a : address) : Prop :=
  nstr_ok (addr_name a) /\ nstr_ok (addr_adl a)
  /\ nstr_ok (addr_mailbox a) /\ nstr_ok (addr_host a).

(** A list of addresses as it is written: NIL when there is none, else
    the addresses one after the other between parentheses. *)
Definition env_addrs_bytes (l : list address) : list byte :=
  match l with
  | [] => bs "NIL"
  | _ => bs "(" ++ flat_map address_bytes l ++ bs ")"
  end.

Definition env_addrs_value
    (fetch_struct : FetchStructType -> list PyObject -> PyObject)
    (l : list address) : PyObject :=
  match l with
  | [] => Py_None
  | _ => PyList (map (address_value fetch_struct) l)
  end.

(** The keys [parse_msg_att] stores under. *)
Definition fetch_key (k : PyObject) : bool :=
  match k with
  | PyToken (Some t) =>
      match t with
      | IMAP4_FLAGS | IMAP4_BODY | IMAP4_BODYSTRUCTURE | IMAP4_ENVELOPE
      | IMAP4_INTERNALDATE | IMAP4_MODSEQ | IMAP4_RFC822
      | IMAP4_RFC822_HEADER | IMAP4_RFC822_TEXT | IMAP4_RFC822_SIZE
      | IMAP4_UID | IMAP4_X_GM_MSGID | IMAP4_BODYSECTIONS => true
      | _ => false
      end
  | _ => false
  end.

(** What [parse_msg_att] keeps of every item of its dictionary: the key
    is one of the keys above, and under BODYSECTIONS there is a
    dictionary. *)
Definition fetch_entry (kv : PyObject * PyObject) : Prop :=
  fetch_key (fst kv) = true
  /\ (fst kv = PyToken (Some IMAP4_BODYSECTIONS) ->
      exists sections, snd kv = PyDict sections).

(** [p] reads the bytes [e] as [v], whatever follows them. *)
Definition reads {A} (p : parser A) (e : list byte) (v : A) : Prop :=
  forall view cur post,
    Z.of_nat (length view) <= PY_SSIZE_T_MAX ->
    skipn cur view = e ++ post ->
    p view cur = (Val v, (cur + length e)%nat).

(** An envelope as it is written, but for its date: three nstrings and
    six lists of addresses. *)
Record envelope : Type := Envelope {
  env_subject : nstr;
  env_from : list address;
  env_sender : list address;
  env_reply_to : list address;
  env_to : list address;
  env_cc : list address;
  env_bcc : list address;
  env_in_reply_to : nstr;
  env_message_id : nstr
}.

Definition envelope_bytes (date : list byte) (e : envelope) : list byte :=
  bs "(" ++ date ++ bs " " ++ nstr_bytes (env_subject e)
    ++ bs " " ++ env_addrs_bytes (env_from e)
    ++ bs " " ++ env_addrs_bytes (env_sender e)
    ++ bs " " ++ env_addrs_bytes (env_reply_to e)
    ++ bs " " ++ env_addrs_bytes (env_to e)
    ++ bs " " ++ env_addrs_bytes (env_cc e)
    ++ bs " " ++ env_addrs_bytes (env_bcc e)
    ++ bs " " ++ nstr_bytes (env_in_reply_to e)
    ++ bs " " ++ nstr_bytes (env_message_id e) ++ bs ")".

Definition envelope_value
    (fetch_struct : FetchStructType -> list PyObject -> PyObject)
    (date : PyObject) (e : envelope) : PyObject :=
  fetch_struct EnvelopeType
    [date; nstr_value (env_subject e);
     env_addrs_value fetch_struct (env_from e);
     env_addrs_value fetch_struct (env_sender e);
     env_addrs_value fetch_struct (env_reply_to e);
     env_addrs_value fetch_struct (env_to e);
     env_addrs_value fetch_struct (env_cc e);
     env_addrs_value fetch_struct (env_bcc e);
     nstr_value (env_in_reply_to e); nstr_value (env_message_id e)].

Definition envelope_ok (e : envelope) : Prop :=
  nstr_ok (env_subject e)
  /\ Forall address_ok (env_from e) /\ Forall address_ok (env_sender e)
  /\ Forall address_ok (env_reply_to e) /\ Forall address_ok (env_to e)
  /\ Forall address_ok (env_cc e) /\ Forall address_ok (env_bcc e)
  /\ nstr_ok (env_in_reply_to e) /\ nstr_ok (env_message_id e).

(** types.c: the number of fields of each struct sequence
    ([n_in_sequence] of its description). *)
Definition n_in_sequence (t : FetchStructType) : nat :=
  match t with
  | AddressType => 4
  | TextBodyType => 13
  | MessageBodyType => 15
  | BasicBodyType => 12
  | MultipartBodyType => 8
  | EnvelopeType => 10
  end.

(** The four types of a body. *)
Definition is_body_type (t : FetchStructType) : bool :=
  match t with
  | TextBodyType | MessageBodyType | BasicBodyType | MultipartBodyType =>
      true
  | _ => false
  end.

(** What the loop of [parse_msg_att] keeps of its dictionary. *)
Definition fetch_items (data : list (PyObject * PyObject)) : Prop :=
  NoDup (map fst data) /\ Forall fetch_entry data.

End Parse.
(* ================================================================== *)
(** ** Properties of the scanner *)

Module ScanFacts.
Import Scan.

Lemma size_t_small z : 0 <= z <= SIZE_MAX -> size_t z = z.
Proof. unfold size_t, SIZE_MAX. intros H. apply Z.mod_small. lia. Qed.

Lemma feed_len_range vl lo :
  0 <= vl -> 0 <= feed_len vl lo <= vl.
Proof.
  intros Hvl. unfold feed_len. destruct lo as [n|]; [|lia].
  cbv zeta. generalize (PyLong_AsSsize_t n). intros len.
  destruct (len >? vl) eqn:E1; [lia|].
  destruct (len <? 0) eqn:E2; [|lia].
  destruct (len <? - vl) eqn:E3; lia.
Qed.

Lemma isdigit_value c : isdigit c = true -> 0 <= digit_value c <= 9.
Proof. unfold isdigit, digit_value. intros H. lia. Qed.

Lemma strtoul_digits_ge l : forall acc, 0 <= acc -> acc <= strtoul_digits l acc.
Proof.
  induction l as [|c t IH]; intros acc Hacc; simpl; [lia|].
  destruct (isdigit c) eqn:E; [|lia].
  apply isdigit_value in E. specialize (IH (acc * 10 + digit_value c)). lia.
Qed.

Lemma find_crlf_cons2 c d t :
  find_crlf (c :: d :: t) =
  if Byte.eqb c CR && Byte.eqb d LF then Some O
  else option_map S (find_crlf (d :: t)).
Proof. reflexivity. Qed.

Lemma find_crlf_Some l : forall i,
  find_crlf l = Some i ->
  (S i < length l)%nat /\ nth i l x00 = CR /\ nth (S i) l x00 = LF.
Proof.
  induction l as [|c t IH]; intros i H; [discriminate|].
  destruct t as [|d t']; [discriminate|].
  rewrite find_crlf_cons2 in H.
  destruct (Byte.eqb c CR && Byte.eqb d LF) eqn:E.
  - inversion H; subst i. apply andb_true_iff in E as [E1 E2].
    apply byte_dec_bl in E1, E2. subst c d. simpl. repeat split; lia.
  - destruct (find_crlf (d :: t')) as [j|] eqn:F; [|discriminate].
    simpl in H. inversion H; subst i.
    destruct (IH j eq_refl) as (H1 & H2 & H3).
    repeat split; [simpl in *; lia | exact H2 | exact H3].
Qed.

(** What a successful [memmem] says about the buffer. *)
Lemma memmem_crlf_Some b start len crlf :
  0 <= start -> 0 <= len -> start + len <= Z.of_nat (length b) ->
  memmem_crlf b start len = Some crlf ->
  start <= crlf /\ crlf + 2 <= start + len /\
  byte_at b crlf = CR /\ byte_at b (crlf + 1) = LF.
Proof.
  intros Hs Hl Hb H. unfold memmem_crlf in H.
  destruct (find_crlf _) as [i|] eqn:F; [|discriminate].
  simpl in H. inversion H; subst crlf.
  apply find_crlf_Some in F. destruct F as (F1 & F2 & F3).
  rewrite length_firstn, length_skipn in F1.
  rewrite nth_firstn, nth_skipn in F2, F3.
  assert (Hi : (S i < Z.to_nat len)%nat) by lia.
  destruct (Nat.ltb_spec i (Z.to_nat len)); [|lia].
  destruct (Nat.ltb_spec (S i) (Z.to_nat len)); [|lia].
  unfold byte_at. repeat split; try lia.
  - rewrite <- F2. f_equal. lia.
  - rewrite <- F3. f_equal. lia.
Qed.

Lemma set_cursor_wf s sf ll :
  wf s -> 0 <= sf <= buflen s -> 0 <= ll <= ULONG_MAX ->
  wf (set_cursor s sf ll).
Proof. intros [] ? ?. constructor; simpl; auto. Qed.

Lemma set_cursor_id s :
  set_cursor s (start_find s) (literal_left s) = s.
Proof. destruct s; reflexivity. Qed.

Lemma find_line_cases s : wf s -> find_line_spec s (find_line s).
Proof.
  intros [Halloc Hcur Hlen Hcap Hlit]. unfold find_line.
  rewrite (size_t_small (buflen s - start_find s)) by lia.
  destruct (memmem_crlf _ _ _) as [crlf|] eqn:M.
  - pose proof M as M'.
    apply memmem_crlf_Some in M'; try lia.
    destruct M' as (M1 & M2 & M3 & M4).
    assert (Hline : find_line_spec s
              (Return (Ok (firstn (Z.to_nat (crlf + 2)) (buf s)))
                      (set_cursor s crlf (literal_left s)))).
    { apply FL_line; auto; lia. }
    destruct (negb (crlf =? 0) && _); [|exact Hline].
    destruct ((_ =? 0) || _ || _); [exact Hline|].
    unfold strtoul.
    destruct (strtoul_digits _ 0 >? ULONG_MAX) eqn:E.
    + apply FL_errno with crlf; auto; lia.
    + rewrite (size_t_small (crlf + 2)) by lia.
      apply FL_literal; auto; try lia.
      pose proof (strtoul_digits_ge
                    (skipn (Z.to_nat (Z.of_nat
                       (rewind_digits (buf s) (Z.to_nat (crlf - 1)))))
                       (buf s)) 0). lia.
  - pose proof (FL_incomplete s M) as F.
    destruct (buflen s >? 0) eqn:E; [|exact F].
    rewrite size_t_small by lia. exact F.
Qed.

(** The body of the loop on a well-formed scanner. *)
Lemma Scanner_get_body_eq s :
  wf s ->
  Scanner_get_body s =
  if buflen s - start_find s <? literal_left s then
    Return (Raise IncompleteLiteral)
      (set_cursor s (buflen s)
                  (literal_left s - (buflen s - start_find s)))
  else find_line (skipped s).
Proof.
  intros [Halloc Hcur Hlen Hcap Hlit]. unfold Scanner_get_body, skipped.
  rewrite (size_t_small (buflen s - start_find s)) by lia.
  destruct (literal_left s >? 0) eqn:E.
  - destruct (buflen s - start_find s <? literal_left s) eqn:E2.
    + rewrite !size_t_small by (unfold ULONG_MAX, SIZE_MAX in *; lia).
      f_equal. f_equal. lia.
    + rewrite size_t_small by lia. reflexivity.
  - assert (Z0 : literal_left s = 0) by lia.
    destruct (buflen s - start_find s <? literal_left s) eqn:E2; [lia|].
    replace (set_cursor s (start_find s + literal_left s) 0) with s;
      [reflexivity|].
    destruct s; unfold set_cursor; simpl in *; f_equal; lia.
Qed.

Lemma skipped_wf s :
  wf s -> literal_left s <= buflen s - start_find s -> wf (skipped s).
Proof.
  intros H Hl. pose proof H as [Halloc Hcur Hlen Hcap Hlit].
  apply set_cursor_wf; auto; unfold ULONG_MAX; lia.
Qed.

(** *** The loop: fuel, termination, an induction principle *)

Lemma Scanner_get_loop_mono n : forall m s out,
  (n <= m)%nat ->
  Scanner_get_loop n s = Some out -> Scanner_get_loop m s = Some out.
Proof.
  induction n as [|n IH]; intros m s out Hle H; [discriminate|].
  destruct m as [|m]; [lia|].
  simpl in *. destruct (Scanner_get_body s); [|exact H].
  apply IH; [lia | exact H].
Qed.

Lemma Scanner_get_loop_agree n m s a b :
  Scanner_get_loop n s = Some a -> Scanner_get_loop m s = Some b -> a = b.
Proof.
  intros Ha Hb.
  apply (Scanner_get_loop_mono n (Nat.max n m)) in Ha; [|lia].
  apply (Scanner_get_loop_mono m (Nat.max n m)) in Hb; [|lia].
  congruence.
Qed.

(** What one pass does to a well-formed scanner. *)
Lemma body_Continue s s2 :
  wf s -> Scanner_get_body s = Continue s2 ->
  wf s2 /\ buf s2 = buf s /\ buflen s2 = buflen s /\ bufcap s2 = bufcap s
  /\ literal_left s <= buflen s - start_find s
  /\ start_find s + literal_left s + 2 <= start_find s2.
Proof.
  intros Hwf H. pose proof Hwf as [Halloc Hcur Hlen Hcap Hlit].
  rewrite Scanner_get_body_eq in H by exact Hwf.
  destruct (buflen s - start_find s <? literal_left s) eqn:E;
    [discriminate|].
  assert (Hs : wf (skipped s)) by (apply skipped_wf; [exact Hwf | lia]).
  pose proof (find_line_cases (skipped s) Hs) as F.
  rewrite H in F. inversion F; subst. simpl in *.
  repeat split; simpl; auto; try lia.
  all: unfold ULONG_MAX in *; lia.
Qed.

Lemma body_Return s r s' :
  wf s -> Scanner_get_body s = Return r s' ->
  wf s' /\ buf s' = buf s /\ buflen s' = buflen s /\ bufcap s' = bufcap s.
Proof.
  intros Hwf H. pose proof Hwf as [Halloc Hcur Hlen Hcap Hlit].
  rewrite Scanner_get_body_eq in H by exact Hwf.
  destruct (buflen s - start_find s <? literal_left s) eqn:E.
  - inversion H; subst. split; [|auto].
    apply set_cursor_wf; [exact Hwf | lia | lia].
  - assert (Hs : wf (skipped s)) by (apply skipped_wf; [exact Hwf | lia]).
    pose proof (find_line_cases (skipped s) Hs) as F.
    rewrite H in F. inversion F; subst; simpl in *.
    + destruct (buflen s >? 0) eqn:E0; simpl; (split; [|auto]); auto.
      apply set_cursor_wf; simpl; auto; lia.
    + split; [|auto]. apply set_cursor_wf; simpl; auto; lia.
    + split; [|auto]. exact Hs.
Qed.

Lemma Scanner_get_loop_total n : forall s,
  wf s -> (Z.to_nat (buflen s - start_find s) < n)%nat ->
  exists out, Scanner_get_loop n s = Some out.
Proof.
  induction n as [|n IH]; intros s Hwf Hn; [lia|].
  simpl. destruct (Scanner_get_body s) as [s2|r s'] eqn:B.
  - destruct (body_Continue s s2 Hwf B) as (W & _ & L & _ & A & C).
    pose proof Hwf as [Halloc Hcur Hlen Hcap Hlit].
    pose proof W as [_ Hcur2 _ _ _].
    apply IH; [exact W|]. rewrite L in *. lia.
  - eexists; reflexivity.
Qed.

(** [Scanner_get] returns on every well-formed scanner. *)
Lemma Scanner_get_total s :
  wf s -> exists r s', Scanner_get s = Some (r, s').
Proof.
  intros Hwf. pose proof Hwf as [Halloc Hcur Hlen Hcap Hlit].
  destruct (Scanner_get_loop_total (S (Z.to_nat (buflen s))) s Hwf)
    as [[r s'] H]; [lia|].
  exists r, s'. exact H.
Qed.

(** The loop equation. *)
Lemma Scanner_get_unfold s :
  wf s ->
  Scanner_get s =
  match Scanner_get_body s with
  | Return r s' => Some (r, s')
  | Continue s2 => Scanner_get s2
  end.
Proof.
  intros Hwf. unfold Scanner_get at 1. simpl.
  destruct (Scanner_get_body s) as [s2|r s'] eqn:B; [|reflexivity].
  destruct (body_Continue s s2 Hwf B) as (W & _ & L & _ & A & C).
  pose proof Hwf as [Halloc Hcur Hlen Hcap Hlit].
  pose proof W as [_ Hcur2 _ _ _].
  destruct (Scanner_get_loop_total (Z.to_nat (buflen s)) s2 W)
    as [out H]; [rewrite L in *; lia|].
  rewrite H. symmetry. unfold Scanner_get.
  apply (Scanner_get_loop_mono (Z.to_nat (buflen s))); [lia | exact H].
Qed.

(** Induction over the passes of a call of [Scanner_get]. *)
Lemma Scanner_get_ind
    (P : Scanner -> result exn (list byte) * Scanner -> Prop) :
  (forall s r s', wf s -> Scanner_get_body s = Return r s' -> P s (r, s')) ->
  (forall s s2 out, wf s -> Scanner_get_body s = Continue s2 -> wf s2 ->
     Scanner_get s2 = Some out -> P s2 out -> P s out) ->
  forall s out, wf s -> Scanner_get s = Some out -> P s out.
Proof.
  intros HR HC s out Hwf H. unfold Scanner_get in H.
  remember (S (Z.to_nat (buflen s))) as n eqn:En. clear En.
  revert s out Hwf H.
  induction n as [|n IH]; intros s out Hwf H; [discriminate|].
  simpl in H. destruct (Scanner_get_body s) as [s2|r s'] eqn:B.
  - destruct (body_Continue s s2 Hwf B) as (W & _).
    apply (HC s s2 out Hwf B W); [|apply IH; assumption].
    destruct (Scanner_get_total s2 W) as (r & s' & G).
    rewrite G. f_equal. unfold Scanner_get in G.
    exact (Scanner_get_loop_agree _ _ _ _ _ G H).
  - inversion H; subst. apply HR; assumption.
Qed.

(** [Scanner_get] keeps the buffer and the invariant. *)
Lemma Scanner_get_wf s r s' :
  wf s -> Scanner_get s = Some (r, s') ->
  wf s' /\ buf s' = buf s /\ buflen s' = buflen s /\ bufcap s' = bufcap s.
Proof.
  intros Hwf H. revert r s' H.
  enough (G : forall out, Scanner_get s = Some out ->
             wf (snd out) /\ buf (snd out) = buf s
             /\ buflen (snd out) = buflen s /\ bufcap (snd out) = bufcap s).
  { intros r s' H. exact (G (r, s') H). }
  intros out H. revert s out Hwf H.
  apply (Scanner_get_ind (fun s out =>
           wf (snd out) /\ buf (snd out) = buf s
           /\ buflen (snd out) = buflen s /\ bufcap (snd out) = bufcap s)).
  - intros s r s' Hwf B. simpl. exact (body_Return s r s' Hwf B).
  - intros s s2 out Hwf B W G (I1 & I2 & I3 & I4).
    destruct (body_Continue s s2 Hwf B) as (_ & B2 & B3 & B4 & _).
    split; [exact I1|]. repeat split; congruence.
Qed.

(** *** What a successful [get] returns *)

(** A successful [get] returns the bytes from offset 0 through a CR LF
    that lies at or after the end of the pending literal, and leaves the
    cursor on that CR with no literal pending. *)
Lemma Scanner_get_Ok s v s' :
  wf s -> Scanner_get s = Some (Ok v, s') ->
  exists e,
    start_find s + literal_left s <= e /\ e + 2 <= buflen s /\
    byte_at (buf s) e = CR /\ byte_at (buf s) (e + 1) = LF /\
    v = firstn (Z.to_nat (e + 2)) (buf s) /\ s' = set_cursor s e 0.
Proof.
  intros Hwf H. revert v s' H.
  enough (G : forall out, Scanner_get s = Some out ->
    forall v s', out = (Ok v, s') ->
    exists e,
      start_find s + literal_left s <= e /\ e + 2 <= buflen s /\
      byte_at (buf s) e = CR /\ byte_at (buf s) (e + 1) = LF /\
      v = firstn (Z.to_nat (e + 2)) (buf s) /\ s' = set_cursor s e 0).
  { intros v s' H. exact (G _ H v s' eq_refl). }
  intros out H. revert s out Hwf H.
  apply (Scanner_get_ind (fun s out => forall v s', out = (Ok v, s') ->
    exists e,
      start_find s + literal_left s <= e /\ e + 2 <= buflen s /\
      byte_at (buf s) e = CR /\ byte_at (buf s) (e + 1) = LF /\
      v = firstn (Z.to_nat (e + 2)) (buf s) /\ s' = set_cursor s e 0)).
  - intros s r s1 Hwf B v s' E. inversion E; subst r s1. clear E.
    pose proof Hwf as [Halloc Hcur Hlen Hcap Hlit].
    rewrite Scanner_get_body_eq in B by exact Hwf.
    destruct (buflen s - start_find s <? literal_left s) eqn:E;
      [discriminate|].
    assert (Hs : wf (skipped s)) by (apply skipped_wf; [exact Hwf | lia]).
    pose proof (find_line_cases (skipped s) Hs) as F.
    rewrite B in F. inversion F; subst; simpl in *.
    exists crlf. repeat split; auto.
  - intros s s2 out Hwf B W G IH v s' E.
    destruct (body_Continue s s2 Hwf B) as (_ & B2 & B3 & B4 & B5 & B6).
    destruct (IH v s' E) as (e & I1 & I2 & I3 & I4 & I5 & I6).
    pose proof W as [_ _ _ _ Hlit2].
    exists e. rewrite B2, B3 in *.
    repeat split; auto; try lia.
    rewrite I6. unfold set_cursor. rewrite B2, B3, B4. reflexivity.
Qed.

(** *** Literal headers *)

Lemma rewind_digits_stop b q :
  isdigit (nth q b x00) = false -> rewind_digits b (S q) = S q.
Proof. intros H. simpl. rewrite H. reflexivity. Qed.



Lemma skipn_nth_cons (b : list byte) n :
  (n < length b)%nat -> skipn n b = nth n b x00 :: skipn (S n) b.
Proof.
  revert n. induction b as [|c t IH]; intros n H; simpl in H; [lia|].
  destruct n as [|n]; [reflexivity|].
  simpl. apply IH. lia.
Qed.

(** What [find_line] computes once the CR LF is known. *)
Lemma find_line_at s crlf :
  wf s ->
  memmem_crlf (buf s) (start_find s) (buflen s - start_find s) = Some crlf ->
  find_line s =
  let line :=
    Return (Ok (firstn (Z.to_nat (crlf + 2)) (buf s)))
           (set_cursor s crlf (literal_left s)) in
  if negb (crlf =? 0)
     && Byte.eqb (byte_at (buf s) (crlf - 1)) "}"%byte then
    let p := Z.of_nat (rewind_digits (buf s) (Z.to_nat (crlf - 1))) in
    if (p =? 0)
       || negb (Byte.eqb (byte_at (buf s) (p - 1)) "{"%byte)
       || (p =? crlf - 1) then line
    else
      let (length, errno) := strtoul (skipn (Z.to_nat p) (buf s)) in
      if errno then Return (Raise BadLiteralLength) s
      else Continue (set_cursor s (crlf + 2) length)
  else line.
Proof.
  intros Hwf M. pose proof Hwf as [Halloc Hcur Hlen Hcap Hlit].
  unfold find_line.
  rewrite (size_t_small (buflen s - start_find s)) by lia.
  rewrite M.
  apply memmem_crlf_Some in M; try lia.
  rewrite (size_t_small (crlf + 2)) by lia. reflexivity.
Qed.

(** C9.  A line whose CR LF is preceded by the two bytes [{}] is not a
    literal header: [get] returns the line up to and including that CR LF
    and leaves no literal pending.  The CR LF is the first one found from
    the cursor, once what was left of an earlier literal is skipped. *)
Theorem get_empty_braces_is_line s crlf :
  wf s ->
  literal_left s <= buflen s - start_find s ->
  memmem_crlf (buf s) (start_find s + literal_left s)
    (buflen s - (start_find s + literal_left s)) = Some crlf ->
  2 <= crlf ->
  byte_at (buf s) (crlf - 2) = "{"%byte ->
  byte_at (buf s) (crlf - 1) = "}"%byte ->
  Scanner_get s =
    Some (Ok (firstn (Z.to_nat (crlf + 2)) (buf s)), set_cursor s crlf 0)
  /\ byte_at (buf s) crlf = CR /\ byte_at (buf s) (crlf + 1) = LF.
Proof.
  intros Hwf Hl M H2 Hopen Hclose.
  pose proof Hwf as [Halloc Hcur Hlen Hcap Hlit].
  assert (Hs : wf (skipped s)) by (apply skipped_wf; assumption).
  split.
  - rewrite Scanner_get_unfold by exact Hwf.
    rewrite Scanner_get_body_eq by exact Hwf.
    destruct (buflen s - start_find s <? literal_left s) eqn:E; [lia|].
    rewrite (find_line_at (skipped s) crlf Hs M). simpl.
    destruct (crlf =? 0) eqn:E0; [lia|]. simpl.
    rewrite Hclose. simpl.
    replace (Z.to_nat (crlf - 1)) with (S (Z.to_nat (crlf - 2))) by lia.
    rewrite rewind_digits_stop.
    + replace (Z.of_nat (S (Z.to_nat (crlf - 2)))) with (crlf - 1) by lia.
      rewrite Z.eqb_refl, orb_true_r. reflexivity.
    + unfold byte_at in Hopen. rewrite Hopen. reflexivity.
  - apply memmem_crlf_Some in M; try lia. tauto.
Qed.

(** The witness of C9: the line [a{}] followed by CR LF. *)
Lemma get_empty_braces_is_line_witness :
  Scanner_get (mkScanner (bs "a{}" ++ CRLF) 5 5 0 0) =
    Some (Ok (bs "a{}" ++ CRLF), mkScanner (bs "a{}" ++ CRLF) 5 5 3 0)
  /\ byte_at (bs "a{}" ++ CRLF) 3 = CR
  /\ byte_at (bs "a{}" ++ CRLF) (3 + 1) = LF.
Proof.
  apply (get_empty_braces_is_line (mkScanner (bs "a{}" ++ CRLF) 5 5 0 0) 3).
  - constructor; simpl; unfold SIZE_MAX, ULONG_MAX; lia.
  - simpl; lia.
  - reflexivity.
  - lia.
  - reflexivity.
  - reflexivity.
Defined.

Lemma decimal_from_ge ds : forall acc,
  Forall (fun c => isdigit c = true) ds -> 0 <= acc ->
  acc <= decimal_from acc ds.
Proof.
  unfold decimal_from.
  induction ds as [|d ds IH]; intros acc Hd Hacc; simpl; [lia|].
  inversion Hd; subst. apply isdigit_value in H1.
  specialize (IH (acc * 10 + digit_value d) H2). lia.
Qed.



Lemma find_line_header s crlf :
  wf s ->
  memmem_crlf (buf s) (start_find s) (buflen s - start_find s) = Some crlf ->
  find_line s =
  match header_at (buf s) crlf with
  | NoHeader =>
      Return (Ok (firstn (Z.to_nat (crlf + 2)) (buf s)))
             (set_cursor s crlf (literal_left s))
  | BadHeader => Return (Raise BadLiteralLength) s
  | Header len => Continue (set_cursor s (crlf + 2) len)
  end.
Proof.
  intros Hwf M. rewrite (find_line_at s crlf Hwf M). cbv zeta.
  unfold header_at.
  destruct (negb (crlf =? 0) && _); [|reflexivity].
  destruct ((_ =? 0) || _ || _); [reflexivity|].
  destruct (strtoul _) as [len errno]. destruct errno; reflexivity.
Qed.




(** A line spliced twice: the view runs through the CR LF that follows
    the second payload, whatever the payloads hold. *)
Example get_spliced_twice :
  let b := bs "a {2}" ++ CRLF ++ CRLF ++ bs " {1}" ++ CRLF ++ bs "}" ++ CRLF
  in
  spliced_line_end 2 b 18 9 = Some 18
  /\ Scanner_get (mkScanner b 18 18 0 0)
     = Some (Ok b, mkScanner b 18 18 16 0).
Proof. split; reflexivity. Qed.

(** The bytes before the CR LF that follows a payload read as a header
    only together with the payload: the spliced line is given no end,
    and nothing is said of what [get] does (see C1). *)
Example spliced_line_end_payload_header :
  spliced_line_end 3
    (bs "a {3}" ++ CRLF ++ bs "{5}" ++ CRLF ++ bs "b OK" ++ CRLF
       ++ bs "c" ++ CRLF) 21 10
  = None.
Proof. reflexivity. Qed.


(** *** feed on a well-formed scanner *)

Lemma memcpy_length dst off src n :
  0 <= off -> 0 <= n <= Z.of_nat (length src) ->
  off + n <= Z.of_nat (length dst) ->
  length (memcpy dst off src n) = length dst.
Proof.
  intros Ho Hn Hd. unfold memcpy.
  rewrite !length_app, !length_firstn, length_skipn. lia.
Qed.

Lemma memcpy_prefix dst off src n :
  0 <= off -> 0 <= n <= Z.of_nat (length src) ->
  off + n <= Z.of_nat (length dst) ->
  firstn (Z.to_nat (off + n)) (memcpy dst off src n)
  = firstn (Z.to_nat off) dst ++ firstn (Z.to_nat n) src.
Proof.
  intros Ho Hn Hd. unfold memcpy. rewrite app_assoc.
  rewrite firstn_app.
  rewrite (firstn_all2 (n := Z.to_nat (off + n))).
  - replace (Z.to_nat (off + n) - _)%nat with O.
    + simpl. rewrite app_nil_r. reflexivity.
    + rewrite length_app, !length_firstn. lia.
  - rewrite length_app, !length_firstn. lia.
Qed.

Lemma realloc_grow old size :
  Z.of_nat (length old) <= size ->
  length (realloc old size) = Z.to_nat size
  /\ firstn (length old) (realloc old size) = old.
Proof.
  intros H. unfold realloc.
  rewrite firstn_all2 by lia. split.
  - rewrite length_app, repeat_length. lia.
  - rewrite firstn_app, firstn_all, Nat.sub_diag. simpl.
    apply app_nil_r.
Qed.

(** A feed whose allocation succeeds appends the bytes taken from the
    caller's buffer and leaves the cursor and the literal counter alone. *)
Lemma Scanner_feed_ok s view lo :
  wf s ->
  let len := feed_len (Z.of_nat (length view)) lo in
  buflen s + len <= SIZE_MAX ->
  exists s',
    Scanner_feed s view lo true = (feed_returns lo, s') /\ wf s' /\
    start_find s' = start_find s /\ literal_left s' = literal_left s /\
    buflen s' = buflen s + len /\
    logical s' = logical s ++ firstn (Z.to_nat len) view.
Proof.
  intros Hwf len Hfit. pose proof Hwf as [Halloc Hcur Hlen Hcap Hlit].
  pose proof (feed_len_range (Z.of_nat (length view)) lo ltac:(lia)) as Hr.
  fold len in Hr.
  unfold Scanner_feed. fold len.
  rewrite (size_t_small (buflen s + len)) by lia.
  replace (buflen s + len - len) with (buflen s) by lia.
  rewrite (size_t_small (buflen s)) by lia.
  destruct (buflen s + len >? bufcap s) eqn:E.
  - destruct (realloc_grow (buf s) (buflen s + len) ltac:(lia)) as [R1 R2].
    eexists. split; [reflexivity|].
    split; [|split; [reflexivity|split; [reflexivity|split; [reflexivity|]]]].
    + constructor; simpl; try lia.
      rewrite memcpy_length; lia.
    + unfold logical. simpl. rewrite memcpy_prefix by lia.
      f_equal.
      rewrite <- R2 at 2. rewrite firstn_firstn. f_equal. lia.
  - eexists. split; [reflexivity|].
    split; [|split; [reflexivity|split; [reflexivity|split; [reflexivity|]]]].
    + constructor; simpl; try lia.
      rewrite memcpy_length; lia.
    + unfold logical. simpl. rewrite memcpy_prefix by lia. reflexivity.
Qed.

Lemma fed_bytes_nonneg chunks : 0 <= fed_bytes chunks.
Proof.
  induction chunks as [|[v lo] t IH]; simpl; [lia|].
  pose proof (feed_len_range (Z.of_nat (length v)) lo ltac:(lia)). lia.
Qed.

Lemma feed_all_ok chunks : forall s,
  wf s -> buflen s + fed_bytes chunks <= SIZE_MAX ->
  wf (feed_all s chunks) /\
  start_find (feed_all s chunks) = start_find s /\
  literal_left (feed_all s chunks) = literal_left s /\
  buflen (feed_all s chunks) = buflen s + fed_bytes chunks.
Proof.
  induction chunks as [|[v lo] t IH]; intros s Hwf Hfit; simpl in *.
  - split; [assumption|]. repeat split; lia.
  - pose proof (fed_bytes_nonneg t) as Ht.
    destruct (Scanner_feed_ok s v lo Hwf ltac:(lia))
      as (s' & F & W & F1 & F2 & F3 & _).
    unfold feed_all. simpl. rewrite F. simpl.
    destruct (IH s' W ltac:(lia)) as (I1 & I2 & I3 & I4).
    unfold feed_all in *. simpl in *.
    split; [exact I1|]. repeat split; try congruence. lia.
Qed.

(** *** The cursor between failing calls of [get] *)

Lemma get_Raise_resumable s e s' :
  wf s -> Scanner_get s = Some (Raise e, s') ->
  resumable (start_find s') s'.
Proof.
  intros Hwf H. revert e s' H.
  enough (G : forall out, Scanner_get s = Some out ->
            forall e s', out = (Raise e, s') -> resumable (start_find s') s').
  { intros e s' H. exact (G _ H e s' eq_refl). }
  intros out H. revert s out Hwf H.
  apply (Scanner_get_ind (fun s out =>
           forall e s', out = (Raise e, s') ->
           resumable (start_find s') s')).
  - intros s r s1 Hwf B e s' E. inversion E; subst r s1. clear E.
    pose proof Hwf as [Halloc Hcur Hlen Hcap Hlit].
    rewrite Scanner_get_body_eq in B by exact Hwf.
    unfold resumable.
    destruct (buflen s - start_find s <? literal_left s) eqn:E.
    + inversion B; subst. simpl. lia.
    + assert (Hs : wf (skipped s)) by (apply skipped_wf; [exact Hwf|lia]).
      pose proof (find_line_cases (skipped s) Hs) as F.
      rewrite B in F. inversion F; subst; simpl in *.
      * destruct (buflen s >? 0) eqn:E0; simpl; lia.
      * lia.
  - intros s s2 out Hwf B W G IH e s' E. exact (IH e s' E).
Qed.

Lemma get_Raise_monotone s e s' c :
  wf s -> c <= start_find s -> resumable c s ->
  Scanner_get s = Some (Raise e, s') -> c <= start_find s'.
Proof.
  intros Hwf Hc Hr H.
  enough (G : forall out, Scanner_get s = Some out ->
            forall c e s', c <= start_find s -> resumable c s ->
            out = (Raise e, s') -> c <= start_find s').
  { exact (G _ H c e s' Hc Hr eq_refl). }
  clear c e s' Hc Hr H. intros out H. revert s out Hwf H.
  apply (Scanner_get_ind (fun s out =>
           forall c e s', c <= start_find s -> resumable c s ->
           out = (Raise e, s') -> c <= start_find s')).
  - intros s r s1 Hwf B c e s' Hc Hr E. inversion E; subst r s1. clear E.
    pose proof Hwf as [Halloc Hcur Hlen Hcap Hlit].
    rewrite Scanner_get_body_eq in B by exact Hwf.
    unfold resumable in Hr.
    destruct (buflen s - start_find s <? literal_left s) eqn:E.
    + inversion B; subst. simpl. lia.
    + assert (Hs : wf (skipped s)) by (apply skipped_wf; [exact Hwf|lia]).
      pose proof (find_line_cases (skipped s) Hs) as F.
      rewrite B in F. inversion F; subst; simpl in *.
      * destruct (buflen s >? 0) eqn:E0; simpl; lia.
      * lia.
  - intros s s2 out Hwf B W G IH c e s' Hc Hr E.
    destruct (body_Continue s s2 Hwf B) as (_ & B2 & B3 & B4 & B5 & B6).
    pose proof Hwf as [Halloc Hcur Hlen Hcap Hlit].
    pose proof W as [_ Hcur2 _ _ _].
    apply (IH c e s'); [lia | | exact E].
    unfold resumable. rewrite B3. lia.
Qed.

(** C3.  Between two successive failing calls of [get], with any feeds
    but no consume in between, the scan cursor does not move back. *)
Theorem scan_cursor_monotone s0 e1 s1 chunks e2 s2 :
  wf s0 ->
  Scanner_get s0 = Some (Raise e1, s1) ->
  buflen s1 + fed_bytes chunks <= SIZE_MAX ->
  Scanner_get (feed_all s1 chunks) = Some (Raise e2, s2) ->
  start_find s1 <= start_find s2.
Proof.
  intros Hwf G1 Hfit G2.
  destruct (Scanner_get_wf s0 _ s1 Hwf G1) as (W1 & _).
  pose proof (get_Raise_resumable s0 e1 s1 Hwf G1) as R1.
  destruct (feed_all_ok chunks s1 W1 Hfit) as (W & F1 & F2 & F3).
  pose proof (fed_bytes_nonneg chunks) as Hn.
  pose proof W1 as [Halloc Hcur Hlen Hcap Hlit].
  apply (get_Raise_monotone (feed_all s1 chunks) e2 s2 (start_find s1) W);
    [lia | | exact G2].
  unfold resumable in *. rewrite F2, F3. lia.
Qed.

(** The witness of C3: the buffer holds the header [{1}] and its CR LF;
    the first [get] fails for want of the literal's byte, one byte is
    fed, and the second [get] skips it and fails for want of a line. *)
Lemma scan_cursor_monotone_witness :
  let s0 := mkScanner (bs "{1}" ++ CRLF) 5 5 0 0 in
  let s1 := mkScanner (bs "{1}" ++ CRLF) 5 5 5 1 in
  let s2 := mkScanner (bs "{1}" ++ CRLF ++ bs "x") 6 6 5 0 in
  start_find s1 <= start_find s2.
Proof.
  intros s0 s1 s2.
  apply (scan_cursor_monotone s0 IncompleteLiteral s1
           [(bs "x", None)] IncompleteLine s2).
  - constructor; simpl; unfold SIZE_MAX, ULONG_MAX; lia.
  - reflexivity.
  - vm_compute. discriminate.
  - reflexivity.
Defined.

(** *** consume *)

(** C10.  A [consume] of more bytes than the scanner holds fails with
    TooManyConsumed and returns the scanner exactly as it was: buffer,
    length, capacity, cursor and literal counter. *)
Theorem consume_too_many_unchanged s n :
  0 <= n <= SIZE_MAX -> buflen s < n ->
  Scanner_consume s n = (Raise TooManyConsumed, s).
Proof.
  intros Hn Hgt. unfold Scanner_consume.
  destruct (n <? 0) eqn:E1; [lia|].
  destruct (n >? SIZE_MAX) eqn:E2; [lia|]. simpl.
  destruct (n >? buflen s) eqn:E3; [reflexivity | lia].
Qed.

Lemma consume_too_many_unchanged_witness :
  let s := mkScanner (bs "ab" ++ CRLF) 4 4 2 0 in
  Scanner_consume s 5 = (Raise TooManyConsumed, s).
Proof.
  intros s. apply consume_too_many_unchanged.
  - unfold SIZE_MAX; lia.
  - simpl; lia.
Defined.

(** A [consume] within the logical length drops that many bytes from
    the front and resets the cursor and the literal counter. *)
Lemma Scanner_consume_ok s n :
  wf s -> 0 <= n <= buflen s ->
  exists s',
    Scanner_consume s n = (Ok tt, s') /\ wf s' /\
    start_find s' = 0 /\ literal_left s' = 0 /\
    buflen s' = buflen s - n /\
    logical s' = skipn (Z.to_nat n) (logical s).
Proof.
  intros Hwf Hn. pose proof Hwf as [Halloc Hcur Hlen Hcap Hlit].
  unfold Scanner_consume.
  destruct (n <? 0) eqn:E1; [lia|].
  destruct (n >? SIZE_MAX) eqn:E2; [lia|]. simpl orb. cbv iota.
  destruct (n >? buflen s) eqn:E3; [lia|].
  rewrite (size_t_small (buflen s - n)) by lia.
  eexists. split; [reflexivity|].
  assert (Hsk : Z.of_nat (length (skipn (Z.to_nat n) (buf s)))
                = bufcap s - n) by (rewrite length_skipn; lia).
  split; [|split; [reflexivity|split; [reflexivity|split; [reflexivity|]]]].
  - constructor; simpl; try (unfold ULONG_MAX; lia).
    rewrite memcpy_length; lia.
  - unfold logical. simpl.
    change (buflen s - n) with (0 + (buflen s - n)) at 1.
    rewrite memcpy_prefix by lia. simpl.
    rewrite skipn_firstn_comm. f_equal. lia.
Qed.

Lemma Scanner_new_wf : wf Scanner_new.
Proof. constructor; simpl; unfold SIZE_MAX, ULONG_MAX; lia. Qed.

(** Every failure of [consume] leaves the scanner as it was. *)
Lemma consume_failure_unchanged s n e s' :
  Scanner_consume s n = (Raise e, s') -> s' = s.
Proof.
  unfold Scanner_consume.
  destruct ((n <? 0) || (n >? SIZE_MAX)); [congruence|].
  destruct (n >? buflen s); [congruence | discriminate].
Qed.

(** *** feed when the allocation fails *)

(** When [PyMem_RawRealloc] fails, [feed] raises NoMemory and returns
    with [buflen] already increased: line 49 runs before the allocation
    and nothing undoes it. *)
Lemma Scanner_feed_nomem s view lo :
  let len := feed_len (Z.of_nat (length view)) lo in
  size_t (buflen s + len) > bufcap s ->
  Scanner_feed s view lo false =
    (Raise NoMemory,
     mkScanner (buf s) (size_t (buflen s + len)) (bufcap s)
               (start_find s) (literal_left s)).
Proof.
  intros len H. unfold Scanner_feed. fold len.
  destruct (size_t (buflen s + len) >? bufcap s) eqn:E; [reflexivity | lia].
Qed.

(** C6 fails on the code: a new scanner fed one byte while the
    allocation fails ends with logical length 1 (and no storage), not
    with the length 0 it had.  The change shows: [consume(1)], which the
    new scanner refuses, succeeds after the failed feed. *)
Theorem feed_nomem_changes_buflen :
  let s := snd (Scanner_feed Scanner_new (bs "a") None false) in
  Scanner_feed Scanner_new (bs "a") None false
    = (Raise NoMemory, mkScanner [] 1 0 0 0)
  /\ buflen Scanner_new = 0 /\ buflen s = 1
  /\ fst (Scanner_consume Scanner_new 1) = Raise TooManyConsumed
  /\ fst (Scanner_consume s 1) = Ok tt.
Proof. repeat split. Qed.

(** *** The framing loop of a client *)

(** Two lines, the first with a literal whose payload holds a CR LF. *)
Example drive_two_lines :
  let l1 := bs "a {4}" ++ CRLF ++ CRLF ++ bs "bc)" ++ CRLF in
  let l2 := bs "* OK" ++ CRLF in
  exists s, drive Scanner_new (l1 ++ l2) = Some ([l1; l2], s)
            /\ buflen s = 0.
Proof. eexists. split; [vm_compute; reflexivity | reflexivity]. Qed.

(** C1 fails on the code: fed that one line byte by byte, the scanner
    returns no view at all; it ends holding all 24 bytes and waiting for
    five more bytes of a literal.  The check for a literal header looks at
    the bytes before the CR LF without regard to the cursor, so it reads
    the payload of the literal it has just skipped as a header. *)
Theorem drive_literal_payload_as_header :
  exists s,
    drive Scanner_new list_literal_line = Some ([], s)
    /\ buflen s = 24 /\ start_find s = 24 /\ literal_left s = 5.
Proof. eexists. split; [vm_compute; reflexivity | repeat split]. Qed.

(** The same line fed at once: [get] fails with IncompleteLiteral. *)
Example get_literal_payload_as_header :
  let s := snd (Scanner_feed Scanner_new list_literal_line None true) in
  Scanner_get s
  = Some (Raise IncompleteLiteral, set_cursor s 24 5).
Proof. vm_compute. reflexivity. Qed.

(* ------------------------------------------------------------------ *)
(** ** The three methods on a well-formed scanner *)

Lemma skipped_id s : literal_left s = 0 -> skipped s = s.
Proof.
  intros H. unfold skipped, set_cursor.
  destruct s; simpl in *; subst. f_equal. lia.
Qed.

Lemma find_crlf_short l : (length l <= 1)%nat -> find_crlf l = None.
Proof.
  destruct l as [|c [|d t]]; simpl; intros H; try reflexivity; lia.
Qed.

Lemma find_crlf_app a : forall b i,
  find_crlf a = Some i -> find_crlf (a ++ b) = Some i.
Proof.
  induction a as [|c t IH]; intros b i H; [discriminate|].
  destruct t as [|d t']; [discriminate|].
  change ((c :: d :: t') ++ b) with (c :: d :: (t' ++ b)).
  rewrite find_crlf_cons2 in *.
  destruct (Byte.eqb c CR && Byte.eqb d LF); [exact H|].
  destruct (find_crlf (d :: t')) as [j|] eqn:F; [|discriminate].
  change (d :: t' ++ b) with ((d :: t') ++ b).
  rewrite (IH b j eq_refl). exact H.
Qed.

Lemma memmem_crlf_here b e len :
  0 <= e -> 2 <= len -> e + 2 <= Z.of_nat (length b) ->
  byte_at b e = CR -> byte_at b (e + 1) = LF ->
  memmem_crlf b e len = Some e.
Proof.
  intros He Hl Hb H1 H2. unfold memmem_crlf, byte_at in *.
  replace (Z.to_nat (e + 1)) with (S (Z.to_nat e)) in H2 by lia.
  rewrite (skipn_nth_cons b (Z.to_nat e)) by lia.
  rewrite (skipn_nth_cons b (S (Z.to_nat e))) by lia.
  rewrite H1, H2.
  destruct (Z.to_nat len) as [|[|n]] eqn:L; try lia.
  cbn. f_equal. lia.
Qed.

(** A pass that returns leaves the scanner in a state from which the
    same pass returns the same. *)
Lemma body_Return_again s r s1 :
  wf s -> Scanner_get_body s = Return r s1 ->
  Scanner_get_body s1 = Return r s1.
Proof.
  intros Hwf B.
  destruct (body_Return s r s1 Hwf B) as (W1 & _).
  pose proof Hwf as [Halloc Hcur Hlen Hcap Hlit].
  rewrite Scanner_get_body_eq in B by exact Hwf.
  rewrite Scanner_get_body_eq by exact W1.
  destruct (buflen s - start_find s <? literal_left s) eqn:E.
  - inversion B; subst r s1. simpl.
    destruct (buflen s - buflen s <? _) eqn:E2; [|lia].
    unfold set_cursor; simpl. do 2 f_equal. lia.
  - assert (Hs : wf (skipped s)) by (apply skipped_wf; [exact Hwf | lia]).
    set (t := skipped s) in *.
    assert (Lt : literal_left t = 0) by reflexivity.
    assert (Again : forall u, wf u -> literal_left u = 0 ->
              (if buflen u - start_find u <? literal_left u
               then Return (Raise IncompleteLiteral)
                      (set_cursor u (buflen u)
                         (literal_left u - (buflen u - start_find u)))
               else find_line (skipped u)) = find_line u).
    { intros u [_ Hc _ _ _] Lu. rewrite Lu.
      destruct (buflen u - start_find u <? 0) eqn:E3; [lia|].
      rewrite skipped_id by exact Lu. reflexivity. }
    pose proof (find_line_cases t Hs) as F. rewrite B in F.
    pose proof Hs as [Halloc' Hcur' Hlen' Hcap' Hlit'].
    inversion F; subst.
    + (* incomplete line *)
      match goal with H : memmem_crlf _ _ _ = None |- _ => rename H into M end.
      change (buflen t) with (buflen s) in *.
      destruct (buflen s >? 0) eqn:E0.
      * rewrite (Again _ W1 eq_refl).
        unfold find_line. cbn [buf buflen start_find literal_left set_cursor].
        change (buflen t) with (buflen s).
        rewrite (size_t_small (buflen s - (buflen s - 1))) by lia.
        unfold memmem_crlf. rewrite find_crlf_short.
        -- simpl. rewrite E0. rewrite (size_t_small (buflen s - 1)) by lia.
           reflexivity.
        -- rewrite length_firstn. lia.
      * rewrite (Again _ Hs Lt). exact B.
    + (* a line *)
      match goal with H : memmem_crlf _ _ _ = Some _ |- _ => rename H into M end.
      rewrite (Again _ W1 eq_refl).
      assert (M2 : memmem_crlf (buf t) crlf (buflen t - crlf) = Some crlf).
      { apply memmem_crlf_here; auto; lia. }
      rewrite (find_line_at t crlf Hs M) in B.
      rewrite (find_line_at (set_cursor t crlf 0) crlf W1 M2).
      cbn [buf buflen start_find literal_left set_cursor] in *.
      cbv zeta in *.
      destruct (negb (crlf =? 0) && _); [|reflexivity].
      destruct ((_ =? 0) || _ || _); [reflexivity|].
      destruct (strtoul _) as [len errno].
      destruct errno; discriminate.
    + (* errno *)
      rewrite (Again _ Hs Lt). exact B.
Qed.

Lemma memcpy_0 dst src n :
  0 <= n <= Z.of_nat (length src) -> n <= Z.of_nat (length dst) ->
  firstn (Z.to_nat n) (memcpy dst 0 src n) = firstn (Z.to_nat n) src.
Proof.
  intros Hn Hd.
  pose proof (memcpy_prefix dst 0 src n) as P.
  rewrite Z.add_0_l in P. rewrite P by lia. reflexivity.
Qed.

Lemma logical_byte_at s i :
  wf s -> 0 <= i < buflen s ->
  byte_at (buf s) i = nth (Z.to_nat i) (logical s) x00.
Proof.
  intros [Halloc _ Hlen _ _] Hi. unfold byte_at, logical.
  rewrite nth_firstn.
  destruct (Nat.ltb_spec (Z.to_nat i) (Z.to_nat (buflen s))); [reflexivity|lia].
Qed.

Lemma logical_length s : wf s -> 0 <= buflen s ->
  length (logical s) = Z.to_nat (buflen s).
Proof.
  intros [Halloc _ Hlen _ _] H. unfold logical.
  rewrite length_firstn. lia.
Qed.

Lemma memmem_crlf_logical s c :
  wf s -> 0 <= c <= buflen s ->
  memmem_crlf (buf s) c (buflen s - c) =
  option_map (fun i => c + Z.of_nat i)
    (find_crlf (skipn (Z.to_nat c) (logical s))).
Proof.
  intros [Halloc _ Hlen _ _] Hc. unfold memmem_crlf, logical.
  rewrite skipn_firstn_comm.
  replace (Z.to_nat (buflen s) - Z.to_nat c)%nat
    with (Z.to_nat (buflen s - c)) by lia.
  reflexivity.
Qed.

(** X1.  [get] returns on every well-formed scanner: the loop ends
    within the passes the model allows.  It changes the cursor only;
    the buffer, its length and its capacity are as before, and the
    scanner is well formed again. *)
Theorem get_returns_keeps_buffer s :
  wf s ->
  exists r s',
    Scanner_get s = Some (r, s') /\ wf s' /\
    buf s' = buf s /\ buflen s' = buflen s /\ bufcap s' = bufcap s.
Proof.
  intros Hwf. destruct (Scanner_get_total s Hwf) as (r & s' & H).
  exists r, s'. split; [exact H|]. exact (Scanner_get_wf s r s' Hwf H).
Qed.

Lemma get_returns_keeps_buffer_witness :
  let s := mkScanner (bs "a {1}" ++ CRLF ++ bs "b" ++ CRLF) 10 10 0 0 in
  exists r s',
    Scanner_get s = Some (r, s') /\ wf s' /\
    buf s' = buf s /\ buflen s' = buflen s /\ bufcap s' = bufcap s.
Proof.
  apply (get_returns_keeps_buffer
           (mkScanner (bs "a {1}" ++ CRLF ++ bs "b" ++ CRLF) 10 10 0 0)).
  split; cbn; unfold SIZE_MAX, ULONG_MAX; lia.
Defined.

(** X2.  A view [get] returns is a prefix of the scanner's contents that
    ends in CR LF; that CR LF lies at or after the place the cursor and
    the pending literal pointed to, and the cursor is left on it with no
    literal pending. *)
Theorem get_view_is_prefix_line s v s' :
  wf s -> Scanner_get s = Some (Ok v, s') ->
  exists line rest,
    v = line ++ CRLF /\ logical s = v ++ rest /\
    start_find s + literal_left s <= Z.of_nat (length line) /\
    start_find s' = Z.of_nat (length line) /\ literal_left s' = 0.
Proof.
  intros Hwf H. pose proof Hwf as [Halloc Hcur Hlen Hcap Hlit].
  destruct (Scanner_get_Ok s v s' Hwf H) as (e & E1 & E2 & E3 & E4 & E5 & E6).
  assert (Lv : length v = Z.to_nat (e + 2)).
  { rewrite E5, length_firstn. lia. }
  assert (Vl : v = firstn (Z.to_nat (e + 2)) (logical s)).
  { rewrite E5. unfold logical. rewrite firstn_firstn. f_equal. lia. }
  exists (firstn (Z.to_nat e) v), (skipn (Z.to_nat (e + 2)) (logical s)).
  assert (Ll : length (firstn (Z.to_nat e) v) = Z.to_nat e).
  { rewrite length_firstn. lia. }
  repeat split.
  - rewrite <- (firstn_skipn (Z.to_nat e) v) at 1. f_equal.
    assert (Ls : length (skipn (Z.to_nat e) v) = 2%nat).
    { rewrite length_skipn. lia. }
    assert (N0 : nth 0 (skipn (Z.to_nat e) v) x00 = CR).
    { rewrite nth_skipn, E5, nth_firstn.
      destruct (Nat.ltb_spec (Z.to_nat e + 0) (Z.to_nat (e + 2))); [|lia].
      rewrite Nat.add_0_r. exact E3. }
    assert (N1 : nth 1 (skipn (Z.to_nat e) v) x00 = LF).
    { rewrite nth_skipn, E5, nth_firstn.
      destruct (Nat.ltb_spec (Z.to_nat e + 1) (Z.to_nat (e + 2))); [|lia].
      unfold byte_at in E4.
      replace (Z.to_nat e + 1)%nat with (Z.to_nat (e + 1)) by lia.
      exact E4. }
    destruct (skipn (Z.to_nat e) v) as [|c [|d [|x t]]]; try discriminate.
    simpl in N0, N1. subst. reflexivity.
  - rewrite Vl. symmetry. apply firstn_skipn.
  - lia.
  - rewrite E6. simpl. lia.
  - rewrite E6. reflexivity.
Qed.

Lemma get_view_is_prefix_line_witness :
  exists line rest,
    bs "ab" ++ CRLF = line ++ CRLF /\
    logical (mkScanner (bs "ab" ++ CRLF ++ bs "c") 5 5 0 0)
      = (bs "ab" ++ CRLF) ++ rest /\
    0 + 0 <= Z.of_nat (length line) /\
    start_find (mkScanner (bs "ab" ++ CRLF ++ bs "c") 5 5 2 0)
      = Z.of_nat (length line) /\
    literal_left (mkScanner (bs "ab" ++ CRLF ++ bs "c") 5 5 2 0) = 0.
Proof.
  apply (get_view_is_prefix_line
           (mkScanner (bs "ab" ++ CRLF ++ bs "c") 5 5 0 0)
           (bs "ab" ++ CRLF)
           (mkScanner (bs "ab" ++ CRLF ++ bs "c") 5 5 2 0)).
  - split; cbn; unfold SIZE_MAX, ULONG_MAX; lia.
  - vm_compute. reflexivity.
Defined.

(** X3.  [get] called again, with nothing fed or consumed in between,
    gives the same result and leaves the scanner as the first call left
    it: the same view, or the same exception. *)
Theorem get_again_same s r s' :
  wf s -> Scanner_get s = Some (r, s') -> Scanner_get s' = Some (r, s').
Proof.
  intros Hwf H.
  enough (G : forall out, Scanner_get s = Some out ->
            Scanner_get (snd out) = Some out) by exact (G _ H).
  clear H r s'. intros out H'. revert s out Hwf H'.
  apply (Scanner_get_ind (fun s out => Scanner_get (snd out) = Some out)).
  - intros s r s1 Hwf B. simpl.
    destruct (body_Return s r s1 Hwf B) as (W1 & _).
    rewrite Scanner_get_unfold by exact W1.
    rewrite (body_Return_again s r s1 Hwf B). reflexivity.
  - intros s s2 out Hwf B W G IH. exact IH.
Qed.

Lemma get_again_same_witness :
  let b := bs "a {4}" ++ CRLF ++ bs "xy" in
  Scanner_get (mkScanner b 9 9 9 2)
  = Some (Raise IncompleteLiteral, mkScanner b 9 9 9 2).
Proof.
  apply (get_again_same
           (mkScanner (bs "a {4}" ++ CRLF ++ bs "xy") 9 9 0 0)).
  - split; cbn; unfold SIZE_MAX, ULONG_MAX; lia.
  - vm_compute. reflexivity.
Defined.

(** X4.  A [feed] whose allocation succeeds appends to the scanner's
    contents the first [feed_len] bytes of the caller's buffer, which
    are at most the whole buffer, and touches neither the cursor nor
    the pending literal.  It returns [None] when the length is absent or
    fits a [Py_ssize_t].  The source does not test the conversion of a
    length that does not fit: the -1 it gives is taken for the length,
    so that all of the buffer but its last byte is appended, and the
    call ends in a SystemError. *)
Theorem feed_appends s view lo :
  wf s ->
  buflen s + feed_len (Z.of_nat (length view)) lo <= SIZE_MAX ->
  exists s',
    Scanner_feed s view lo true = (feed_returns lo, s') /\ wf s' /\
    logical s' =
      logical s
      ++ firstn (Z.to_nat (feed_len (Z.of_nat (length view)) lo)) view /\
    0 <= feed_len (Z.of_nat (length view)) lo <= Z.of_nat (length view) /\
    start_find s' = start_find s /\ literal_left s' = literal_left s /\
    match lo with
    | None => feed_returns lo = Ok tt
    | Some n =>
        if fits_ssize_t n then feed_returns lo = Ok tt
        else feed_returns lo = Raise SystemError
             /\ feed_len (Z.of_nat (length view)) lo
                = Z.max 0 (Z.of_nat (length view) - 1)
    end.
Proof.
  intros Hwf Hfit.
  destruct (Scanner_feed_ok s view lo Hwf Hfit)
    as (s' & F1 & F2 & F3 & F4 & F5 & F6).
  exists s'. split; [exact F1|]. split; [exact F2|]. split; [exact F6|].
  split; [apply feed_len_range; lia|].
  split; [assumption|]. split; [assumption|].
  destruct lo as [n|]; [|reflexivity].
  unfold feed_returns, feed_len, PyLong_AsSsize_t.
  destruct (fits_ssize_t n); [reflexivity|].
  split; [reflexivity|]. cbv zeta.
  destruct (-1 >? Z.of_nat (length view)) eqn:E1; [lia|].
  change (-1 <? 0) with true. cbv iota.
  destruct (-1 <? - Z.of_nat (length view)) eqn:E2; lia.
Qed.

Lemma feed_appends_witness :
  exists s',
    Scanner_feed (mkScanner (bs "ab__") 2 4 1 0) (bs "cdef")
      (Some (2 ^ 70)) true
      = (Raise SystemError, s') /\ wf s' /\
    logical s' = bs "ab" ++ bs "cde" /\
    0 <= 3 <= 4 /\
    start_find s' = 1 /\ literal_left s' = 0 /\
    (feed_returns (Some (2 ^ 70)) = Raise SystemError
     /\ feed_len (Z.of_nat (length (bs "cdef"))) (Some (2 ^ 70)) = 3).
Proof.
  apply (feed_appends (mkScanner (bs "ab__") 2 4 1 0) (bs "cdef")
           (Some (2 ^ 70))).
  - split; cbn; unfold SIZE_MAX, ULONG_MAX; lia.
  - cbn. unfold SIZE_MAX. lia.
Defined.

(** The same call with a length that fits. *)
Example feed_negative_length :
  Scanner_feed (mkScanner (bs "ab__") 2 4 1 0) (bs "cdef") (Some (-1)) true
  = (Ok tt, mkScanner (bs "abcd" ++ bs "e") 5 5 1 0).
Proof. reflexivity. Qed.

(** X5.  [consume] of [n] bytes, [n] at most the length of the contents,
    removes the first [n] bytes of the contents and resets the scanner:
    the cursor is at the start and no literal is pending, whatever they
    were. *)
Theorem consume_drops_prefix s n :
  wf s -> 0 <= n <= buflen s ->
  exists s',
    Scanner_consume s n = (Ok tt, s') /\ wf s' /\
    logical s' = skipn (Z.to_nat n) (logical s) /\
    buflen s' = buflen s - n /\
    start_find s' = 0 /\ literal_left s' = 0.
Proof.
  intros Hwf Hn.
  destruct (Scanner_consume_ok s n Hwf Hn)
    as (s' & C1 & C2 & C3 & C4 & C5 & C6).
  exists s'. split; [exact C1|]. split; [exact C2|]. split; [exact C6|].
  split; [exact C5|]. split; assumption.
Qed.

Lemma consume_drops_prefix_witness :
  exists s',
    Scanner_consume (mkScanner (bs "ab" ++ CRLF ++ bs "{9}" ++ CRLF) 9 9 9 9) 4
      = (Ok tt, s') /\ wf s' /\
    logical s' = bs "{9}" ++ CRLF /\
    buflen s' = 9 - 4 /\
    start_find s' = 0 /\ literal_left s' = 0.
Proof.
  apply (consume_drops_prefix
           (mkScanner (bs "ab" ++ CRLF ++ bs "{9}" ++ CRLF) 9 9 9 9) 4).
  - split; cbn; unfold SIZE_MAX, ULONG_MAX; lia.
  - cbn. lia.
Defined.

(** X6.  A view returned by [get] can be consumed whole, and doing so
    splits the contents: what the scanner held is the view followed by
    what it holds afterwards, and the scan starts afresh there. *)
Theorem get_then_consume_splits s v s1 :
  wf s -> Scanner_get s = Some (Ok v, s1) ->
  exists s2,
    Scanner_consume s1 (Z.of_nat (length v)) = (Ok tt, s2) /\ wf s2 /\
    logical s = v ++ logical s2 /\
    start_find s2 = 0 /\ literal_left s2 = 0.
Proof.
  intros Hwf H. pose proof Hwf as [Halloc Hcur Hlen Hcap Hlit].
  destruct (Scanner_get_Ok s v s1 Hwf H) as (e & E1 & E2 & E3 & E4 & E5 & E6).
  destruct (Scanner_get_wf s _ s1 Hwf H) as (W1 & B1 & B2 & B3).
  assert (Lv : Z.of_nat (length v) = e + 2).
  { rewrite E5, length_firstn. lia. }
  destruct (Scanner_consume_ok s1 (Z.of_nat (length v)) W1 ltac:(lia))
    as (s2 & C1 & C2 & C3 & C4 & C5 & C6).
  exists s2. split; [exact C1|]. split; [exact C2|].
  split; [|split; assumption].
  rewrite C6. unfold logical at 2. rewrite B1, B2. fold (logical s).
  assert (Vl : v = firstn (length v) (logical s)).
  { rewrite E5 at 1. unfold logical. rewrite firstn_firstn. f_equal. lia. }
  rewrite Nat2Z.id. rewrite Vl at 1. symmetry. apply firstn_skipn.
Qed.

Lemma get_then_consume_splits_witness :
  exists s2,
    Scanner_consume (mkScanner (bs "ab" ++ CRLF ++ bs "c") 5 5 2 0)
      (Z.of_nat (length (bs "ab" ++ CRLF))) = (Ok tt, s2) /\ wf s2 /\
    logical (mkScanner (bs "ab" ++ CRLF ++ bs "c") 5 5 0 0)
      = (bs "ab" ++ CRLF) ++ logical s2 /\
    start_find s2 = 0 /\ literal_left s2 = 0.
Proof.
  apply (get_then_consume_splits
           (mkScanner (bs "ab" ++ CRLF ++ bs "c") 5 5 0 0)).
  - split; cbn; unfold SIZE_MAX, ULONG_MAX; lia.
  - vm_compute. reflexivity.
Defined.

Lemma nth_last_app (a b : list byte) :
  a <> [] -> nth (length a - 1) (a ++ b) x00 = last a x00.
Proof.
  intros Ha. destruct (exists_last Ha) as (a' & x & ->).
  rewrite last_last, length_app, <- app_assoc. simpl.
  replace (length a' + 1 - 1)%nat with (length a') by lia.
  apply nth_middle.
Qed.

(** X7.  A line that is not a literal header is returned as soon as it
    is complete.  The scan starts after [pre] (the bytes up to the
    cursor and the rest of a pending literal); if the first CR LF from
    there on ends [l] and the byte before it is no closing brace, [get]
    returns everything up to and including that CR LF. *)
Theorem get_line_without_header s pre l rest :
  wf s ->
  start_find s + literal_left s = Z.of_nat (length pre) ->
  logical s = pre ++ l ++ CRLF ++ rest ->
  find_crlf (l ++ CRLF) = Some (length l) ->
  last (pre ++ l) x00 <> "}"%byte ->
  Scanner_get s =
    Some (Ok (pre ++ l ++ CRLF),
          set_cursor s (Z.of_nat (length (pre ++ l))) 0).
Proof.
  intros Hwf Hpre Hlog Hfirst Hlast.
  pose proof Hwf as [Halloc Hcur Hlen Hcap Hlit].
  assert (Hbl : Z.to_nat (buflen s) = length (pre ++ l ++ CRLF ++ rest)).
  { rewrite <- Hlog. symmetry. apply logical_length; [exact Hwf|lia]. }
  rewrite !length_app in Hbl. simpl length in Hbl.
  rewrite Scanner_get_unfold, Scanner_get_body_eq by exact Hwf.
  destruct (buflen s - start_find s <? literal_left s) eqn:E; [lia|].
  assert (Hs : wf (skipped s)) by (apply skipped_wf; [exact Hwf | lia]).
  set (crlf := Z.of_nat (length (pre ++ l))).
  assert (Hc : crlf = Z.of_nat (length pre) + Z.of_nat (length l)).
  { unfold crlf. rewrite length_app. lia. }
  assert (M : memmem_crlf (buf (skipped s)) (start_find (skipped s))
                (buflen (skipped s) - start_find (skipped s)) = Some crlf).
  { rewrite (memmem_crlf_logical (skipped s)); [|exact Hs|simpl; lia].
    change (logical (skipped s)) with (logical s).
    cbn [start_find skipped set_cursor].
    rewrite Hpre, Nat2Z.id, Hlog, skipn_app, Nat.sub_diag, skipn_all.
    cbn [skipn app]. rewrite app_assoc.
    rewrite (find_crlf_app _ _ _ Hfirst). simpl. f_equal. lia. }
  rewrite (find_line_at (skipped s) crlf Hs M). cbv zeta.
  cbn [buf buflen start_find literal_left skipped set_cursor].
  assert (V : firstn (Z.to_nat (crlf + 2)) (buf s) = pre ++ l ++ CRLF).
  { transitivity (firstn (Z.to_nat (crlf + 2)) (logical s)).
    - unfold logical. rewrite firstn_firstn. f_equal. lia.
    - rewrite Hlog. rewrite !app_assoc. rewrite <- (app_assoc pre).
      rewrite firstn_app.
      rewrite !length_app. simpl length.
      replace (Z.to_nat (crlf + 2)) with (length pre + length l + 2)%nat by lia.
      rewrite firstn_all2 by (rewrite !length_app; simpl; lia).
      replace (length pre + length l + 2 - (length pre + (length l + 2)))%nat
        with O by lia.
      rewrite firstn_0, app_nil_r. reflexivity. }
  rewrite V.
  assert (T : negb (crlf =? 0)
              && Byte.eqb (byte_at (buf s) (crlf - 1)) "}"%byte = false).
  { destruct (crlf =? 0) eqn:E0; [reflexivity|]. simpl.
    rewrite logical_byte_at by (try exact Hwf; lia).
    rewrite Hlog, app_assoc.
    replace (Z.to_nat (crlf - 1)) with (length (pre ++ l) - 1)%nat
      by (unfold crlf; lia).
    rewrite nth_last_app.
    - destruct (Byte.eqb (last (pre ++ l) x00) "}"%byte) eqn:Q;
        [apply Byte.byte_dec_bl in Q; contradiction|reflexivity].
    - intros N. unfold crlf in E0. rewrite N in E0. discriminate. }
  rewrite T. reflexivity.
Qed.

Lemma get_line_without_header_witness :
  Scanner_get (mkScanner (bs "a {2}" ++ CRLF ++ CRLF ++ bs "b)" ++ CRLF) 13 13 7 2)
  = Some (Ok (bs "a {2}" ++ CRLF ++ CRLF ++ bs "b)" ++ CRLF),
          mkScanner (bs "a {2}" ++ CRLF ++ CRLF ++ bs "b)" ++ CRLF) 13 13 11 0).
Proof.
  apply (get_line_without_header
           (mkScanner (bs "a {2}" ++ CRLF ++ CRLF ++ bs "b)" ++ CRLF)
              13 13 7 2)
           (bs "a {2}" ++ CRLF ++ CRLF) (bs "b)") []).
  - split; cbn; unfold SIZE_MAX, ULONG_MAX; lia.
  - reflexivity.
  - reflexivity.
  - reflexivity.
  - cbn. discriminate.
Defined.

(* ------------------------------------------------------------------ *)
(** ** Resuming after a failed [get] *)

Lemma find_line_None s :
  wf s ->
  memmem_crlf (buf s) (start_find s) (buflen s - start_find s) = None ->
  find_line s =
  Return (Raise IncompleteLine)
    (if buflen s >? 0
     then set_cursor s (buflen s - 1) (literal_left s) else s).
Proof.
  intros [Halloc Hcur Hlen Hcap Hlit] M. unfold find_line.
  rewrite (size_t_small (buflen s - start_find s)) by lia.
  rewrite M. destruct (buflen s >? 0) eqn:E; [|reflexivity].
  rewrite size_t_small by lia. reflexivity.
Qed.

Lemma firstn_agree_nth (b1 b2 : list byte) n q :
  firstn n b1 = firstn n b2 -> (q < n)%nat ->
  nth q b1 x00 = nth q b2 x00.
Proof.
  intros H Hq.
  assert (N : nth q (firstn n b1) x00 = nth q (firstn n b2) x00)
    by (rewrite H; reflexivity).
  rewrite !nth_firstn in N.
  destruct (Nat.ltb_spec q n); [exact N | lia].
Qed.

Lemma firstn_agree_le (b1 b2 : list byte) n m :
  firstn n b1 = firstn n b2 -> (m <= n)%nat ->
  firstn m b1 = firstn m b2.
Proof.
  intros H Hm. replace m with (Nat.min m n) by lia.
  rewrite <- !firstn_firstn. rewrite H. reflexivity.
Qed.

Lemma firstn_agree_skipn (b1 b2 : list byte) n p m :
  firstn n b1 = firstn n b2 -> (p + m <= n)%nat ->
  firstn m (skipn p b1) = firstn m (skipn p b2).
Proof.
  intros H Hpm. rewrite !firstn_skipn_comm. f_equal.
  apply (firstn_agree_le _ _ n); [exact H | lia].
Qed.

Lemma rewind_digits_le b p : (rewind_digits b p <= p)%nat.
Proof.
  induction p as [|q IH]; [apply Nat.le_refl|]. simpl.
  destruct (isdigit _); lia.
Qed.

Lemma rewind_digits_agree (b1 b2 : list byte) p :
  (forall q, (q < p)%nat -> nth q b1 x00 = nth q b2 x00) ->
  rewind_digits b1 p = rewind_digits b2 p.
Proof.
  induction p as [|q IH]; intros H; [reflexivity|]. simpl.
  rewrite <- (H q) by lia.
  destruct (isdigit _); [|reflexivity].
  apply IH. intros k Hk. apply H. lia.
Qed.

Lemma strtoul_digits_agree k : forall (l1 l2 : list byte) acc,
  firstn (S k) l1 = firstn (S k) l2 -> isdigit (nth k l1 x00) = false ->
  strtoul_digits l1 acc = strtoul_digits l2 acc.
Proof.
  induction k as [|k IH]; intros l1 l2 acc H D.
  - destruct l1 as [|c t1], l2 as [|d t2]; try discriminate;
      try reflexivity.
    inversion H; subst. simpl in D. simpl. rewrite D. reflexivity.
  - destruct l1 as [|c t1], l2 as [|d t2]; try discriminate;
      try reflexivity.
    inversion H; subst. simpl.
    destruct (isdigit d); [|reflexivity].
    apply IH; [assumption | exact D].
Qed.

(** The header test reads the bytes before the CR LF only. *)
Lemma header_at_agree (b1 b2 : list byte) n crlf :
  firstn n b1 = firstn n b2 -> 0 <= crlf <= Z.of_nat n ->
  header_at b1 crlf = header_at b2 crlf.
Proof.
  intros H Hc. unfold header_at.
  destruct (crlf =? 0) eqn:E0; [reflexivity|]. cbn [negb andb].
  assert (A : forall i, 0 <= i < Z.of_nat n -> byte_at b1 i = byte_at b2 i).
  { intros i Hi. unfold byte_at.
    apply (firstn_agree_nth _ _ n); [exact H | lia]. }
  rewrite <- (A (crlf - 1)) by lia.
  destruct (Byte.eqb (byte_at b1 (crlf - 1)) "}"%byte) eqn:EB;
    [|reflexivity].
  rewrite <- (rewind_digits_agree b1 b2)
    by (intros q Hq; apply (firstn_agree_nth _ _ n); [exact H | lia]).
  pose proof (rewind_digits_le b1 (Z.to_nat (crlf - 1))) as Hp.
  set (p := rewind_digits b1 (Z.to_nat (crlf - 1))) in *.
  destruct (Z.of_nat p =? 0) eqn:P0; [reflexivity|]. cbn [orb].
  rewrite <- (A (Z.of_nat p - 1)) by lia.
  destruct (negb (Byte.eqb (byte_at b1 (Z.of_nat p - 1)) "{"%byte));
    [reflexivity|]. cbn [orb].
  destruct (Z.of_nat p =? crlf - 1) eqn:P1; [reflexivity|].
  unfold strtoul. rewrite Nat2Z.id.
  rewrite (strtoul_digits_agree (Z.to_nat (crlf - 1) - p)
             (skipn p b1) (skipn p b2) 0).
  - reflexivity.
  - apply (firstn_agree_skipn _ _ n); [exact H | lia].
  - rewrite nth_skipn.
    replace (p + (Z.to_nat (crlf - 1) - p))%nat
      with (Z.to_nat (crlf - 1)) by lia.
    apply Byte.byte_dec_bl in EB. unfold byte_at in EB. rewrite EB.
    reflexivity.
Qed.

Lemma extends_logical t s :
  wf s -> wf t -> extends t s ->
  logical t = logical s ++ skipn (Z.to_nat (buflen s)) (logical t).
Proof.
  intros [_ Hc _ _ _] Wt (E1 & E2 & E3 & E4).
  rewrite <- (firstn_skipn (Z.to_nat (buflen s)) (logical t)) at 1.
  f_equal. rewrite <- E4. unfold logical. rewrite firstn_firstn.
  f_equal. lia.
Qed.

Lemma memmem_crlf_extends t s c crlf :
  wf s -> wf t -> extends t s -> 0 <= c <= buflen s ->
  memmem_crlf (buf s) c (buflen s - c) = Some crlf ->
  memmem_crlf (buf t) c (buflen t - c) = Some crlf.
Proof.
  intros Ws Wt E Hc M. pose proof E as (E1 & E2 & E3 & E4).
  pose proof (logical_length s Ws ltac:(lia)) as Ll.
  rewrite (memmem_crlf_logical s c Ws Hc) in M.
  rewrite (memmem_crlf_logical t c Wt) by lia.
  rewrite (extends_logical t s Ws Wt E), skipn_app.
  destruct (find_crlf (skipn (Z.to_nat c) (logical s))) as [i|] eqn:F;
    [|discriminate].
  rewrite (find_crlf_app _ _ _ F). exact M.
Qed.

Lemma find_line_extends s t s2 :
  wf s -> wf t -> extends t s ->
  find_line s = Continue s2 ->
  find_line t = Continue (set_cursor t (start_find s2) (literal_left s2)).
Proof.
  intros Ws Wt E F. pose proof E as (E1 & E2 & E3 & E4).
  pose proof Ws as [Halloc Hcur Hlen Hcap Hlit].
  destruct (memmem_crlf (buf s) (start_find s) (buflen s - start_find s))
    as [crlf|] eqn:M.
  - pose proof M as M0.
    apply memmem_crlf_Some in M0; try lia.
    destruct M0 as (M1 & M2 & _).
    rewrite (find_line_header s crlf Ws M) in F.
    assert (M' : memmem_crlf (buf t) (start_find t)
                   (buflen t - start_find t) = Some crlf).
    { rewrite E1. apply (memmem_crlf_extends t s); auto. }
    rewrite (find_line_header t crlf Wt M').
    rewrite (header_at_agree (buf t) (buf s) (Z.to_nat (buflen s)) crlf).
    + destruct (header_at (buf s) crlf); try discriminate.
      inversion F; subst. reflexivity.
    + exact E4.
    + lia.
  - rewrite find_line_None in F by auto. discriminate.
Qed.

Lemma body_extends s t s2 :
  wf s -> wf t -> extends t s ->
  Scanner_get_body s = Continue s2 ->
  Scanner_get_body t
    = Continue (set_cursor t (start_find s2) (literal_left s2))
  /\ extends (set_cursor t (start_find s2) (literal_left s2)) s2.
Proof.
  intros Ws Wt E B. pose proof E as (E1 & E2 & E3 & E4).
  destruct (body_Continue s s2 Ws B) as (W2 & B2 & B3 & B4 & B5 & B6).
  pose proof Ws as [Halloc Hcur Hlen Hcap Hlit].
  rewrite Scanner_get_body_eq in B by exact Ws.
  rewrite Scanner_get_body_eq by exact Wt.
  destruct (buflen s - start_find s <? literal_left s) eqn:C;
    [discriminate|].
  destruct (buflen t - start_find t <? literal_left t) eqn:C'; [lia|].
  split.
  - apply (find_line_extends (skipped s) (skipped t) s2) in B.
    + exact B.
    + apply skipped_wf; [exact Ws | lia].
    + apply skipped_wf; [exact Wt | lia].
    + unfold extends, skipped, set_cursor, logical in *. simpl.
      repeat split; auto; lia.
  - unfold extends, set_cursor, logical in *. simpl.
    rewrite B2, B3. repeat split; auto; lia.
Qed.

Lemma find_crlf_skip u : forall w,
  find_crlf u = None -> (u = [] \/ last u x00 <> CR) ->
  find_crlf (u ++ w) = option_map (Nat.add (length u)) (find_crlf w).
Proof.
  induction u as [|x u IH]; intros w F L.
  - simpl. destruct (find_crlf w); reflexivity.
  - destruct u as [|y u'].
    + destruct L as [L|L]; [discriminate|]. simpl in L.
      simpl app. destruct w as [|d w']; [reflexivity|].
      rewrite find_crlf_cons2.
      destruct (Byte.eqb x CR) eqn:EX;
        [apply Byte.byte_dec_bl in EX; contradiction|].
      simpl andb. destruct (find_crlf (d :: w')); reflexivity.
    + change ((x :: y :: u') ++ w) with (x :: y :: (u' ++ w)).
      rewrite find_crlf_cons2 in *.
      destruct (Byte.eqb x CR && Byte.eqb y LF); [discriminate|].
      destruct (find_crlf (y :: u')) eqn:F2; [discriminate|].
      change (y :: u' ++ w) with ((y :: u') ++ w).
      rewrite IH.
      * destruct (find_crlf w); reflexivity.
      * reflexivity.
      * right. destruct L as [L|L]; [discriminate|]. exact L.
Qed.

Lemma last_skipn (l : list byte) : forall c,
  (c < length l)%nat -> last (skipn c l) x00 = last l x00.
Proof.
  induction l as [|x l IH]; intros c Hc; [simpl in Hc; lia|].
  destruct c as [|c]; [reflexivity|].
  simpl in Hc. simpl skipn. rewrite IH by lia.
  destruct l; [simpl in Hc; lia | reflexivity].
Qed.

(** Where the CR LF search finds the line end after more bytes came in:
    from the cursor a failed search left, the same place as from where
    the failed search had started. *)
Lemma memmem_crlf_resume t s c :
  wf s -> wf t -> extends t s -> 0 <= c <= buflen s -> 0 < buflen s ->
  memmem_crlf (buf s) c (buflen s - c) = None ->
  last (logical s) x00 <> CR ->
  memmem_crlf (buf t) (buflen s - 1) (buflen t - (buflen s - 1)) =
  memmem_crlf (buf t) c (buflen t - c).
Proof.
  intros Ws Wt E Hc Hpos M Hlast. pose proof E as (E1 & E2 & E3 & E4).
  pose proof (logical_length s Ws ltac:(lia)) as Ll.
  rewrite (memmem_crlf_logical s c Ws Hc) in M.
  rewrite !(memmem_crlf_logical t) by (auto; lia).
  rewrite (extends_logical t s Ws Wt E), !skipn_app.
  set (A := skipn (Z.to_nat (buflen s)) (logical t)).
  replace (Z.to_nat (buflen s - 1) - length (logical s))%nat with O by lia.
  replace (Z.to_nat c - length (logical s))%nat with O by lia.
  cbn [skipn].
  destruct (find_crlf (skipn (Z.to_nat c) (logical s))) eqn:F;
    [discriminate|].
  rewrite (find_crlf_skip (skipn (Z.to_nat c) (logical s)) A F).
  - rewrite (find_crlf_skip (skipn (Z.to_nat (buflen s - 1)) (logical s)) A).
    + rewrite !length_skipn.
      destruct (find_crlf A); simpl; [f_equal; lia | reflexivity].
    + apply find_crlf_short. rewrite length_skipn. lia.
    + right. rewrite last_skipn by lia. exact Hlast.
  - destruct (Z.eq_dec c (buflen s)) as [->|Hne].
    + left. apply skipn_all2. lia.
    + right. rewrite last_skipn by lia. exact Hlast.
Qed.

Lemma set_cursor_twice s a b c d :
  set_cursor (set_cursor s a b) c d = set_cursor s c d.
Proof. reflexivity. Qed.

(** Two searches that find the same CR LF return alike, but for the
    state a rejected header leaves. *)
Lemma find_line_same_crlf u u' :
  wf u -> wf u' ->
  buf u' = buf u -> buflen u' = buflen u -> bufcap u' = bufcap u ->
  literal_left u' = literal_left u ->
  memmem_crlf (buf u') (start_find u') (buflen u' - start_find u')
    = memmem_crlf (buf u) (start_find u) (buflen u - start_find u) ->
  find_line u' = find_line u
  \/ (find_line u = Return (Raise BadLiteralLength) u
      /\ find_line u' = Return (Raise BadLiteralLength) u').
Proof.
  intros Wu Wu' Hb Hl Hc Hll M.
  assert (SC : forall a b, set_cursor u' a b = set_cursor u a b).
  { intros a b. unfold set_cursor. rewrite Hb, Hl, Hc. reflexivity. }
  destruct (memmem_crlf (buf u) (start_find u) (buflen u - start_find u))
    as [crlf|] eqn:Mu.
  - rewrite (find_line_header u crlf Wu Mu).
    rewrite (find_line_header u' crlf Wu' M).
    rewrite Hb, Hll.
    destruct (header_at (buf u) crlf); rewrite ?SC; auto.
  - rewrite (find_line_None u Wu Mu), (find_line_None u' Wu' M).
    rewrite Hl, Hll, SC.
    destruct (buflen u >? 0) eqn:E; [left; reflexivity|].
    left. do 2 f_equal.
    pose proof Wu as [_ Hcu _ _ _]. pose proof Wu' as [_ Hcu' _ _ _].
    destruct u, u'; simpl in *; subst. f_equal. lia.
Qed.

Lemma get_resume_extends s out :
  wf s -> Scanner_get s = Some out ->
  forall t e s1, out = (Raise e, s1) -> wf t -> extends t s ->
  e = IncompleteLiteral
  \/ (e = IncompleteLine /\ last (logical s) x00 <> CR) ->
  exists r u u1,
    Scanner_get t = Some (r, u) /\
    Scanner_get (set_cursor t (start_find s1) (literal_left s1))
      = Some (r, u1) /\
    (r <> Raise BadLiteralLength -> u1 = u).
Proof.
  intros Hwf H. revert s out Hwf H.
  apply (Scanner_get_ind (fun s out =>
    forall t e s1, out = (Raise e, s1) -> wf t -> extends t s ->
    e = IncompleteLiteral
    \/ (e = IncompleteLine /\ last (logical s) x00 <> CR) ->
    exists r u u1,
      Scanner_get t = Some (r, u) /\
      Scanner_get (set_cursor t (start_find s1) (literal_left s1))
        = Some (r, u1) /\
      (r <> Raise BadLiteralLength -> u1 = u))).
  - intros s r0 s0 Ws B t e s1 Eq Wt E Hcase.
    inversion Eq; subst r0 s0. clear Eq.
    destruct (body_Return s _ s1 Ws B) as (W1 & B1 & B2 & B3).
    pose proof E as (E1 & E2 & E3 & E4).
    pose proof Ws as [Halloc Hcur Hlen Hcap Hlit].
    pose proof Wt as [Halloct Hcurt Hlent Hcapt Hlitt].
    pose proof W1 as [_ Hcur1 _ _ Hlit1].
    set (t1 := set_cursor t (start_find s1) (literal_left s1)).
    assert (Wt1 : wf t1).
    { apply set_cursor_wf; [exact Wt | lia | lia]. }
    assert (K : Scanner_get_body t1 = Scanner_get_body t
                \/ exists u u1,
                     Scanner_get_body t = Return (Raise BadLiteralLength) u
                     /\ Scanner_get_body t1
                        = Return (Raise BadLiteralLength) u1).
    { rewrite Scanner_get_body_eq in B by exact Ws.
      rewrite (Scanner_get_body_eq t Wt), (Scanner_get_body_eq t1 Wt1).
      destruct (buflen s - start_find s <? literal_left s) eqn:C.
      - (* the literal was incomplete *)
        inversion B; subst e. left.
        match goal with H : _ = s1 |- _ => rename H into S1 end.
        subst t1. rewrite <- S1.
        cbn [buf buflen start_find literal_left set_cursor skipped].
        rewrite E1, E2.
        destruct (buflen t - buflen s
                  <? literal_left s - (buflen s - start_find s)) eqn:C1;
        destruct (buflen t - start_find s <? literal_left s) eqn:C2;
          try lia.
        + unfold set_cursor; simpl. do 2 f_equal. lia.
        + unfold skipped, set_cursor; simpl. rewrite E1, E2.
          do 2 f_equal. lia.
      - (* the line was incomplete *)
        assert (Wk : wf (skipped s))
          by (apply skipped_wf; [exact Ws | lia]).
        destruct (buflen t - start_find t <? literal_left t) eqn:C2;
          [lia|].
        assert (Wkt : wf (skipped t))
          by (apply skipped_wf; [exact Wt | lia]).
        destruct (memmem_crlf (buf (skipped s)) (start_find (skipped s))
                    (buflen (skipped s) - start_find (skipped s)))
          as [crlf|] eqn:M.
        + rewrite (find_line_header _ crlf Wk M) in B.
          destruct (header_at (buf (skipped s)) crlf);
            inversion B; subst.
          destruct Hcase as [Hc|[Hc _]]; discriminate.
        + rewrite (find_line_None _ Wk M) in B.
          inversion B; subst e.
          match goal with H : _ = s1 |- _ => rename H into S1 end.
          destruct Hcase as [Hc|[_ Hlast]]; [discriminate|].
          cbn [buf buflen start_find literal_left set_cursor skipped]
            in S1, M.
          destruct (buflen s >? 0) eqn:Pos.
          * assert (L1 : literal_left t1 = 0)
              by (subst t1; rewrite <- S1; reflexivity).
            assert (S1f : start_find t1 = buflen s - 1)
              by (subst t1; rewrite <- S1; reflexivity).
            rewrite L1. change (buflen t1) with (buflen t). rewrite S1f.
            destruct (buflen t - (buflen s - 1) <? 0) eqn:C3; [lia|].
            rewrite (skipped_id t1 L1).
            assert (Mt : memmem_crlf (buf t1) (start_find t1)
                           (buflen t1 - start_find t1)
                         = memmem_crlf (buf (skipped t))
                             (start_find (skipped t))
                             (buflen (skipped t) - start_find (skipped t))).
            { rewrite S1f.
              cbn [buf buflen start_find literal_left set_cursor skipped].
              change (buf t1) with (buf t).
              change (buflen t1) with (buflen t).
              rewrite E1, E2.
              apply (memmem_crlf_resume t s); auto; lia. }
            destruct (find_line_same_crlf (skipped t) t1 Wkt Wt1
                        eq_refl eq_refl eq_refl L1 Mt)
              as [Same|[Bad1 Bad2]].
            -- left. exact Same.
            -- right. eauto.
          * left. subst t1. rewrite <- S1.
            unfold skipped, set_cursor; simpl. rewrite E1, E2.
            destruct (buflen t - (start_find s + literal_left s) <? 0)
              eqn:C3; [lia|].
            do 2 f_equal. lia. }
    destruct (Scanner_get_total t Wt) as (r & u & G).
    destruct K as [K|(u0 & u1 & K1 & K2)].
    + exists r, u, u. repeat split; auto.
      rewrite Scanner_get_unfold by exact Wt1. rewrite K.
      rewrite <- Scanner_get_unfold by exact Wt. exact G.
    + rewrite Scanner_get_unfold in G by exact Wt. rewrite K1 in G.
      inversion G; subst.
      exists (Raise BadLiteralLength), u, u1. repeat split.
      * rewrite Scanner_get_unfold by exact Wt. rewrite K1. reflexivity.
      * rewrite Scanner_get_unfold by exact Wt1. rewrite K2. reflexivity.
      * intros N. contradiction.
  - intros s s2 out Ws B W2 G IH t e s1 Eq Wt E Hcase.
    destruct (body_extends s t s2 Ws Wt E B) as (Bt & E2).
    destruct (body_Continue s s2 Ws B) as (_ & B2 & B3 & _).
    destruct (body_Continue t _ Wt Bt) as (Wt2 & _).
    destruct (IH _ e s1 Eq Wt2 E2) as (r & u & u1 & I1 & I2 & I3).
    { unfold logical. rewrite B2, B3. exact Hcase. }
    exists r, u, u1. repeat split; auto.
    rewrite Scanner_get_unfold by exact Wt. rewrite Bt. exact I1.
Qed.

Lemma Scanner_feed_set_cursor s a b view lo ok :
  snd (Scanner_feed (set_cursor s a b) view lo ok)
  = set_cursor (snd (Scanner_feed s view lo ok)) a b.
Proof.
  unfold Scanner_feed, set_cursor. simpl.
  destruct (_ >? _); [destruct ok|]; reflexivity.
Qed.

(** X8.  Resuming is sound.  When [get] fails for want of bytes and
    more are fed, the next [get] answers as it would have, had the
    failed call never been made: the cursor the failed call left makes
    no difference to the result, nor to the state (but for the cursor
    left behind by a header whose length is rejected).  For an
    incomplete line this is shown for contents that do not end in CR
    when the call fails. *)
Theorem get_resumes_after_feed s e s1 view lo :
  wf s -> Scanner_get s = Some (Raise e, s1) ->
  e = IncompleteLiteral
  \/ (e = IncompleteLine /\ last (logical s) x00 <> CR) ->
  buflen s + feed_len (Z.of_nat (length view)) lo <= SIZE_MAX ->
  exists r u u1,
    Scanner_get (snd (Scanner_feed s view lo true)) = Some (r, u) /\
    Scanner_get (snd (Scanner_feed s1 view lo true)) = Some (r, u1) /\
    (r <> Raise BadLiteralLength -> u1 = u).
Proof.
  intros Ws G Hcase Hfit.
  destruct (Scanner_get_wf s _ s1 Ws G) as (W1 & B1 & B2 & B3).
  assert (S1 : s1 = set_cursor s (start_find s1) (literal_left s1)).
  { destruct s, s1; unfold set_cursor; simpl in *; subst. reflexivity. }
  destruct (Scanner_feed_ok s view lo Ws Hfit)
    as (t & F1 & F2 & F3 & F4 & F5 & F6).
  replace (Scanner_feed s1 view lo true)
    with (Scanner_feed (set_cursor s (start_find s1) (literal_left s1))
            view lo true) by (rewrite <- S1; reflexivity).
  rewrite Scanner_feed_set_cursor. rewrite F1. simpl snd.
  apply (get_resume_extends s _ Ws G t e s1 eq_refl F2); [|exact Hcase].
  pose proof Ws as [Halloc Hcur Hlen Hcap Hlit].
  pose proof (feed_len_range (Z.of_nat (length view)) lo ltac:(lia)) as R.
  pose proof (logical_length s Ws ltac:(lia)) as Ll.
  unfold extends. repeat split; auto; try lia.
  transitivity (firstn (Z.to_nat (buflen s)) (logical t)).
  - unfold logical. rewrite firstn_firstn. f_equal. lia.
  - rewrite F6, firstn_app, <- Ll, Nat.sub_diag, firstn_0, app_nil_r.
    apply firstn_all.
Qed.

Lemma get_resumes_after_feed_witness :
  let s := mkScanner (bs "a {3}" ++ CRLF ++ bs "x") 8 8 0 0 in
  let s1 := mkScanner (bs "a {3}" ++ CRLF ++ bs "x") 8 8 8 2 in
  exists r u u1,
    Scanner_get (snd (Scanner_feed s (bs "yz b" ++ CRLF) None true))
      = Some (r, u) /\
    Scanner_get (snd (Scanner_feed s1 (bs "yz b" ++ CRLF) None true))
      = Some (r, u1) /\
    (r <> Raise BadLiteralLength -> u1 = u).
Proof.
  apply (get_resumes_after_feed
           (mkScanner (bs "a {3}" ++ CRLF ++ bs "x") 8 8 0 0)
           IncompleteLiteral).
  - split; cbn; unfold SIZE_MAX, ULONG_MAX; lia.
  - vm_compute. reflexivity.
  - left. reflexivity.
  - cbn. unfold SIZE_MAX. lia.
Defined.

(** The condition on CR is needed.  A literal whose last byte is CR
    and that ends the contents leaves the cursor on that CR; an LF fed
    next then ends the line inside the literal, where a scan of the
    same bytes fed at once goes on to the CR LF after it. *)
Example resume_differs_after_cr :
  let s := snd (Scanner_feed Scanner_new (bs "a {1}" ++ CRLF ++ [CR])
                  None true) in
  let chunk := [LF] ++ bs " b" ++ CRLF in
  exists s1,
    Scanner_get s = Some (Raise IncompleteLine, s1)
    /\ option_map fst (Scanner_get (snd (Scanner_feed s1 chunk None true)))
       = Some (Ok (bs "a {1}" ++ CRLF ++ CRLF))
    /\ option_map fst (Scanner_get (snd (Scanner_feed s chunk None true)))
       = Some (Ok (bs "a {1}" ++ CRLF ++ CRLF ++ bs " b" ++ CRLF)).
Proof. eexists. repeat split; vm_compute; reflexivity. Qed.

End ScanFacts.

(* ================================================================== *)
(** ** Properties of the parser *)

Module ParseFacts.
Import Parse.
Import ScanFacts.

(** *** The view at the cursor *)

Lemma skipn_length_eq (view : list byte) cur l :
  skipn cur view = l -> l <> [] -> (cur + length l = length view)%nat.
Proof.
  intros H Hl. assert (L : length (skipn cur view) = length l) by congruence.
  rewrite length_skipn in L. destruct l; [congruence|]. simpl in *. lia.
Qed.

Lemma skipn_nth_error (view : list byte) cur c r :
  skipn cur view = c :: r -> nth_error view cur = Some c.
Proof.
  revert cur. induction view as [|a v IH]; intros cur H.
  - rewrite skipn_nil in H. discriminate.
  - destruct cur as [|cur]; simpl in *; [congruence | auto].
Qed.

Lemma skipn_advance (view : list byte) cur a r :
  skipn cur view = a ++ r -> skipn (cur + length a) view = r.
Proof.
  intros H. rewrite Nat.add_comm, <- skipn_skipn, H.
  rewrite skipn_app, skipn_all, Nat.sub_diag. reflexivity.
Qed.

Lemma skipn_advance1 (view : list byte) cur c r :
  skipn cur view = c :: r -> skipn (S cur) view = r.
Proof.
  intros H. replace (S cur) with (cur + length [c])%nat by (simpl; lia).
  apply skipn_advance. exact H.
Qed.

Lemma byte_eqb_refl c : Byte.eqb c c = true.
Proof. apply byte_dec_lb. reflexivity. Qed.

Lemma bytes_eqb_refl s : bytes_eqb s s = true.
Proof.
  induction s as [|c s IH]; simpl; [reflexivity|].
  rewrite byte_eqb_refl. exact IH.
Qed.

Lemma PEEKC_at view cur c r :
  skipn cur view = c :: r -> PEEKC view cur = (Val c, cur).
Proof. intros H. unfold PEEKC. rewrite (skipn_nth_error _ _ _ _ H). reflexivity. Qed.

Lemma GETC_at view cur c r :
  skipn cur view = c :: r -> GETC view cur = (Val c, S cur).
Proof. intros H. unfold GETC. rewrite (skipn_nth_error _ _ _ _ H). reflexivity. Qed.

Lemma EXPECTC_at view cur c r :
  skipn cur view = c :: r -> EXPECTC c view cur = (Val tt, S cur).
Proof.
  intros H. unfold EXPECTC. rewrite (skipn_nth_error _ _ _ _ H).
  rewrite byte_eqb_refl. reflexivity.
Qed.

Lemma EXPECTS_at view cur s r :
  s <> [] -> skipn cur view = s ++ r ->
  EXPECTS s view cur = (Val tt, (cur + length s)%nat).
Proof.
  intros Hs H. unfold EXPECTS.
  assert (L : length (skipn cur view) = length (s ++ r)) by congruence.
  rewrite length_skipn, length_app in L.
  destruct (Nat.ltb_spec (length view) (cur + length s)) as [Hlt|Hge].
  - destruct s as [|c s]; [congruence|]. simpl in *; lia.
  - rewrite H, firstn_app, firstn_all, Nat.sub_diag. simpl.
    rewrite app_nil_r, bytes_eqb_refl. reflexivity.
Qed.

Lemma span_app ok tok r :
  Forall (fun c => ok c = true) tok ->
  match r with [] => True | c :: _ => ok c = false end ->
  span ok (tok ++ r) = tok.
Proof.
  intros Ht Hr. induction Ht as [|c t Hc Ht IH]; simpl.
  - destruct r as [|c r]; [reflexivity|]. simpl. rewrite Hr. reflexivity.
  - rewrite Hc, IH. reflexivity.
Qed.

(** *** Numbers *)

Lemma ull_small z : 0 <= z <= ULLONG_MAX -> ull z = z.
Proof. unfold ull, ULLONG_MAX. intros H. apply Z.mod_small. lia. Qed.

Lemma digit_code c :
  isdigit c = true -> (48 <=? code c) && (code c <=? 57) = true.
Proof. intros H. exact H. Qed.

(** The loop of [_parse_number] over a run of digits: the value of the
    run, unless it exceeds [ULLONG_MAX]. *)
Lemma number_loop_digits ds : forall rest res n,
  Forall (fun c => isdigit c = true) ds ->
  match rest with [] => True | c :: _ => isdigit c = false end ->
  0 <= res <= ULLONG_MAX ->
  number_loop (ds ++ rest) res n =
  if decimal_from res ds <=? ULLONG_MAX
  then Some (decimal_from res ds, (n + length ds)%nat)
  else None.
Proof.
  induction ds as [|d ds IH]; intros rest res n Hd Hr Hres.
  - simpl. unfold decimal_from. simpl.
    destruct (res <=? ULLONG_MAX) eqn:E; [|lia].
    rewrite Nat.add_0_r.
    destruct rest as [|c t]; [reflexivity|].
    simpl. unfold isdigit in Hr. rewrite Hr. reflexivity.
  - inversion Hd as [|? ? Hd1 Hd2]; subst.
    simpl app. simpl number_loop.
    rewrite (digit_code d Hd1).
    pose proof (isdigit_value d Hd1) as Hv. unfold digit_value in Hv.
    change (ULLONG_MAX / 10) with 1844674407370955161.
    change (ULLONG_MAX mod 10) with 5.
    change (decimal_from res (d :: ds))
      with (decimal_from (res * 10 + digit_value d) ds).
    unfold digit_value.
    destruct ((res >? 1844674407370955161)
              || ((res =? 1844674407370955161) && (code d - 48 >? 5)))
      eqn:E.
    + assert (Hbig : ULLONG_MAX < res * 10 + (code d - 48)).
      { unfold ULLONG_MAX. apply orb_true_iff in E. destruct E as [E|E].
        - lia.
        - apply andb_true_iff in E. lia. }
      pose proof (decimal_from_ge ds (res * 10 + (code d - 48)) Hd2
                    ltac:(lia)) as Hge.
      unfold digit_value in Hge.
      destruct (decimal_from (res * 10 + (code d - 48)) ds <=? ULLONG_MAX)
        eqn:E2; [lia | reflexivity].
    + assert (Hfit : 0 <= res * 10 + (code d - 48) <= ULLONG_MAX).
      { unfold ULLONG_MAX in *. apply orb_false_iff in E.
        destruct E as [E1 E2]. apply andb_false_iff in E2. lia. }
      rewrite (ull_small (res * 10)) by (unfold ULLONG_MAX in *; lia).
      rewrite ull_small by exact Hfit.
      rewrite (IH rest _ (S n) Hd2 Hr Hfit).
      replace (S n + length ds)%nat with (n + length (d :: ds))%nat
        by (simpl; lia).
      reflexivity.
Qed.

Lemma skipn_in_view (view : list byte) cur c r :
  skipn cur view = c :: r -> (length view <=? cur)%nat = false.
Proof.
  intros H. pose proof (skipn_length_eq view cur (c :: r) H ltac:(discriminate)).
  simpl in *. apply Nat.leb_gt. lia.
Qed.

Lemma _parse_number_at view cur ds rest :
  ds <> [] ->
  Forall (fun c => isdigit c = true) ds ->
  match rest with [] => True | c :: _ => isdigit c = false end ->
  skipn cur view = ds ++ rest ->
  _parse_number view cur =
  if decimal ds <=? ULLONG_MAX
  then (Val (decimal ds), (cur + length ds)%nat)
  else (Err (ParseError "number overflowed"), cur).
Proof.
  intros Hne Hd Hr H. unfold _parse_number.
  destruct ds as [|d ds]; [congruence|].
  rewrite (skipn_in_view view cur d (ds ++ rest) H). rewrite H.
  rewrite (number_loop_digits (d :: ds) rest 0 O Hd Hr)
    by (unfold ULLONG_MAX; lia).
  fold (decimal (d :: ds)).
  destruct (decimal (d :: ds) <=? ULLONG_MAX); reflexivity.
Qed.

(** C7.  A number is a run of one or more digits.  When its value is at
    most 18446744073709551615 it is returned exactly, and the cursor
    moves past the digits; when it is larger the parse fails with
    "number overflowed".  [parse_number], through which every other
    production reads a number, returns the same value as a Python int. *)
Theorem number_overflow_boundary view cur ds rest :
  ds <> [] ->
  Forall (fun c => isdigit c = true) ds ->
  match rest with [] => True | c :: _ => isdigit c = false end ->
  skipn cur view = ds ++ rest ->
  ULLONG_MAX = 18446744073709551615
  /\ (decimal ds <= ULLONG_MAX ->
      _parse_number view cur = (Val (decimal ds), (cur + length ds)%nat)
      /\ parse_number view cur
         = (Val (PyLong (decimal ds)), (cur + length ds)%nat))
  /\ (ULLONG_MAX < decimal ds ->
      _parse_number view cur = (Err (ParseError "number overflowed"), cur)
      /\ parse_number view cur
         = (Err (ParseError "number overflowed"), cur)).
Proof.
  intros Hne Hd Hr H.
  pose proof (_parse_number_at view cur ds rest Hne Hd Hr H) as E.
  split; [reflexivity|]. split; intros Hv.
  - destruct (decimal ds <=? ULLONG_MAX) eqn:B; [|lia].
    split; [exact E|]. unfold parse_number, bind. rewrite E. reflexivity.
  - destruct (decimal ds <=? ULLONG_MAX) eqn:B; [lia|].
    split; [exact E|]. unfold parse_number, bind. rewrite E. reflexivity.
Qed.

(** The witness of C7: the largest number accepted and the next one. *)
Lemma number_overflow_boundary_witness :
  _parse_number (bs "18446744073709551615") 0%nat
    = (Val 18446744073709551615, 20%nat)
  /\ _parse_number (bs "18446744073709551616") 0%nat
    = (Err (ParseError "number overflowed"), 0%nat).
Proof.
  assert (D : forall s, forallb isdigit s = true ->
                        Forall (fun c => isdigit c = true) s).
  { intros s Hs. apply Forall_forall. intros c Hc.
    exact (proj1 (forallb_forall isdigit s) Hs c Hc). }
  split.
  - destruct (number_overflow_boundary (bs "18446744073709551615") 0%nat
                (bs "18446744073709551615") []
                ltac:(discriminate)
                (D (bs "18446744073709551615") eq_refl) I eq_refl)
      as (_ & H & _).
    exact (proj1 (H ltac:(vm_compute; discriminate))).
  - destruct (number_overflow_boundary (bs "18446744073709551616") 0%nat
                (bs "18446744073709551616") []
                ltac:(discriminate)
                (D (bs "18446744073709551616") eq_refl) I eq_refl)
      as (_ & _ & H).
    exact (proj1 (H ltac:(vm_compute; reflexivity))).
Defined.

(** *** Quoted strings *)

Lemma quoted_loop_body x : forall rest buffer n,
  quoted_loop (quote_body x ++ rest) buffer n =
  quoted_loop rest (buffer ++ x) (n + length (quote_body x))%nat.
Proof.
  induction x as [|c x IH]; intros rest buffer n.
  - simpl. rewrite app_nil_r, Nat.add_0_r. reflexivity.
  - unfold quote_body. simpl flat_map. fold (quote_body x).
    destruct (quoted_special c) eqn:E.
    + simpl app. cbn [quoted_loop].
      change (Byte.eqb x5c x22) with false.
      change (Byte.eqb x5c x5c) with true. cbv iota.
      unfold quoted_special in E.
      destruct (Byte.eqb c x22) eqn:E1; simpl negb; simpl andb; cbv iota.
      * rewrite IH, <- app_assoc. simpl. f_equal. lia.
      * simpl in E. rewrite E. simpl negb. cbv iota.
        rewrite IH, <- app_assoc. simpl. f_equal. lia.
    + simpl app. cbn [quoted_loop].
      unfold quoted_special in E. apply orb_false_iff in E.
      destruct E as [E1 E2]. rewrite E1, E2.
      rewrite IH, <- app_assoc. simpl. f_equal. lia.
Qed.

(** [parse_string] at a quoted string: the bytes, unescaped, and the
    cursor moved past the closing quote. *)
Lemma parse_string_quoted_at view cur x post :
  skipn cur view = quoted x ++ post ->
  parse_string view cur
  = (Val (PyBytes x), (cur + length (quoted x))%nat).
Proof.
  unfold quoted. simpl app. rewrite <- app_assoc. simpl app. intros H.
  unfold parse_string, bind at 1.
  rewrite (GETC_at _ _ _ _ H), byte_eqb_refl.
  pose proof (skipn_advance1 _ _ _ _ H) as H1.
  rewrite H1, quoted_loop_body. cbn [quoted_loop].
  rewrite byte_eqb_refl. simpl app. simpl Nat.add.
  pose proof (skipn_advance _ _ _ _ H1) as H2. simpl Nat.add in H2.
  unfold bind. rewrite (EXPECTC_at _ _ _ _ H2). unfold ret.
  f_equal. rewrite length_app. simpl. lia.
Qed.

Lemma parse_string_bad_escape_at view cur x c rest :
  c <> x22 -> c <> x5c ->
  skipn cur view = x22 :: quote_body x ++ x5c :: c :: rest ->
  parse_string view cur
  = (Err (ParseError "invalid quoted character"), S cur).
Proof.
  intros Hq Hb H. unfold parse_string, bind at 1.
  rewrite (GETC_at _ _ _ _ H), byte_eqb_refl.
  rewrite (skipn_advance1 _ _ _ _ H), quoted_loop_body. cbn [quoted_loop].
  change (Byte.eqb x5c x22) with false.
  change (Byte.eqb x5c x5c) with true. cbv iota.
  destruct (Byte.eqb c x22) eqn:E1; [apply byte_dec_bl in E1; congruence|].
  destruct (Byte.eqb c x5c) eqn:E2; [apply byte_dec_bl in E2; congruence|].
  reflexivity.
Qed.

(** C4 (amended).  In a quoted string a backslash is accepted only
    before a quote or a backslash: any other escaped byte makes
    [parse_imap_string] fail with "invalid quoted character".  Every other
    byte between the quotes, CR and LF included, is copied to the result
    as it is. *)
Theorem quoted_string_escapes :
  (forall x, parse_imap_string (quoted x) = Val (PyBytes x))
  /\ (forall x c rest, c <> x22 -> c <> x5c ->
        parse_imap_string (x22 :: quote_body x ++ x5c :: c :: rest)
        = Err (ParseError "invalid quoted character")).
Proof.
  split.
  - intros x. unfold parse_imap_string, entry_point.
    rewrite (parse_string_quoted_at (quoted x) 0 x []);
      [|rewrite app_nil_r; reflexivity].
    unfold quoted at 1. simpl Nat.add.
    rewrite Nat.eqb_refl. reflexivity.
  - intros x c rest Hq Hb. unfold parse_imap_string, entry_point.
    rewrite (parse_string_bad_escape_at _ 0 x c rest Hq Hb eq_refl).
    reflexivity.
Qed.

(** The witness of C4: an escaped [n] is rejected, escaped quotes and
    backslashes are not. *)
Lemma quoted_string_escapes_witness :
  parse_imap_string (x22 :: bs "a" ++ x5c :: bs "nb" ++ [x22])
    = Err (ParseError "invalid quoted character")
  /\ parse_imap_string (x22 :: bs "a" ++ [x5c; x22; x5c; x5c] ++ [x22])
    = Val (PyBytes (bs "a" ++ [x22; x5c])).
Proof.
  destruct quoted_string_escapes as [H1 H2]. split.
  - apply (H2 (bs "a") "n"%byte (bs "b" ++ [x22])); discriminate.
  - apply (H1 (bs "a" ++ [x22; x5c])).
Defined.

(** C4 (as stated) fails: a bare CR between the quotes is not rejected;
    it is part of the string returned.  So is a bare LF. *)
Lemma quoted_string_keeps_cr_lf :
  parse_imap_string (x22 :: bs "a" ++ [CR] ++ bs "b" ++ [x22])
    = Val (PyBytes (bs "a" ++ [CR] ++ bs "b"))
  /\ parse_imap_string (x22 :: bs "a" ++ [LF] ++ bs "b" ++ [x22])
    = Val (PyBytes (bs "a" ++ [LF] ++ bs "b")).
Proof. split; reflexivity. Qed.

(** *** The entry points *)

Lemma entry_point_trailing p what view r cur :
  p view O = (r, cur) -> (forall e, r <> Err e) -> cur <> length view ->
  exists msg, entry_point p what view = Err (ParseError msg).
Proof.
  intros Hp Hr Hc. unfold entry_point.
  destruct view as [|c view]; [eexists; reflexivity|].
  rewrite Hp.
  destruct (Nat.eqb_spec cur (length (c :: view))) as [E|E]; [congruence|].
  destruct r as [a|e|a e]; simpl; try (eexists; reflexivity).
  exfalso. exact (Hr e eq_refl).
Qed.

Lemma entry_point_run p what view v :
  view <> [] -> p view O = (Val v, length view) ->
  entry_point p what view = Val v.
Proof.
  intros Hne H. unfold entry_point.
  destruct view as [|c view]; [congruence|].
  rewrite H, Nat.eqb_refl. reflexivity.
Qed.

(** A value an entry point returns is the production's, and the
    production has read the whole view. *)
Lemma entry_point_Val p what view v :
  entry_point p what view = Val v -> p view O = (Val v, length view).
Proof.
  unfold entry_point. destruct view as [|c view]; [discriminate|].
  destruct (p (c :: view) O) as [r cur].
  destruct (Nat.eqb_spec cur (length (c :: view))) as [E|E].
  - destruct r; simpl; intros H; try discriminate.
    simpl in E. congruence.
  - destruct r; simpl; discriminate.
Qed.

(** C8.  Each of the three entry points fails with a ParseError on the
    empty input, and whenever its production returns a result with the
    cursor short of the end of the input. *)
Theorem entry_points_consume_all (parse_msg_att : parser PyObject) :
  (parse_response_line parse_msg_att [] = Err (ParseError "nothing to parse")
   /\ parse_imap_string [] = Err (ParseError "nothing to parse")
   /\ parse_imap_astring [] = Err (ParseError "nothing to parse"))
  /\ (forall view r cur,
        parse_response parse_msg_att view O = (r, cur) ->
        (forall e, r <> Err e) -> cur <> length view ->
        exists msg,
          parse_response_line parse_msg_att view = Err (ParseError msg))
  /\ (forall view r cur,
        parse_string view O = (r, cur) ->
        (forall e, r <> Err e) -> cur <> length view ->
        exists msg, parse_imap_string view = Err (ParseError msg))
  /\ (forall view r cur,
        parse_astring view O = (r, cur) ->
        (forall e, r <> Err e) -> cur <> length view ->
        exists msg, parse_imap_astring view = Err (ParseError msg)).
Proof.
  split; [repeat split|].
  split; [|split]; intros view r cur; apply entry_point_trailing.
Qed.

(** The witness of C8: a response, a string and an astring, each
    followed by one more byte. *)
Lemma entry_points_consume_all_witness :
  (exists msg,
     parse_response_line no_msg_att (bs "* 1 EXISTS" ++ CRLF ++ bs "x")
     = Err (ParseError msg))
  /\ (exists msg,
        parse_imap_string (quoted (bs "a") ++ bs "x") = Err (ParseError msg))
  /\ (exists msg,
        parse_imap_astring (bs "abc def") = Err (ParseError msg)).
Proof.
  destruct (entry_points_consume_all no_msg_att) as (_ & H1 & H2 & H3).
  split; [|split].
  - apply (H1 _ (Val (PyStructSequence UntaggedResponseType
                        [PyToken (Some IMAP4_EXISTS); PyLong 1])) 12%nat);
      [reflexivity | discriminate | simpl; lia].
  - apply (H2 _ (Val (PyBytes (bs "a"))) 3%nat);
      [reflexivity | discriminate | simpl; lia].
  - apply (H3 _ (Val (PyBytes (bs "abc"))) 3%nat);
      [reflexivity | discriminate | simpl; lia].
Defined.

(** *** Literals and strings *)

Lemma bind_Val {A B} (p : parser A) (f : A -> parser B) view cur a cur' :
  p view cur = (Val a, cur') -> bind p f view cur = f a view cur'.
Proof. intros H. unfold bind. rewrite H. reflexivity. Qed.

(** [parse_string] at a literal: the payload, and the cursor moved past
    it. *)
Lemma parse_string_literal_at view cur ds x post :
  ds <> [] -> Forall (fun c => isdigit c = true) ds ->
  decimal ds = Z.of_nat (length x) ->
  Z.of_nat (length view) <= PY_SSIZE_T_MAX ->
  skipn cur view = literal ds x ++ post ->
  parse_string view cur
  = (Val (PyBytes x), (cur + length (literal ds x))%nat).
Proof.
  intros Hne Hd Hv Hmax H.
  unfold literal in *. simpl app in H. rewrite <- !app_assoc in H.
  simpl app in H.
  assert (Hx : Z.of_nat (length x) <= PY_SSIZE_T_MAX).
  { assert (L : length (skipn cur view) =
                length ("{"%byte :: ds ++ "}"%byte :: CR :: LF :: x ++ post))
      by congruence.
    rewrite length_skipn in L. simpl in L.
    rewrite !length_app in L. simpl in L. rewrite length_app in L. lia. }
  unfold parse_string.
  rewrite (bind_Val _ _ _ _ _ _ (GETC_at _ _ _ _ H)).
  change (Byte.eqb "{" x22) with false.
  change (Byte.eqb "{" "{") with true. cbv iota.
  pose proof (skipn_advance1 _ _ _ _ H) as H1.
  assert (N : _parse_number view (S cur)
              = (Val (decimal ds), (S cur + length ds)%nat)).
  { rewrite (_parse_number_at view (S cur) ds
                 ("}"%byte :: CR :: LF :: x ++ post) Hne Hd eq_refl H1).
    destruct (decimal ds <=? ULLONG_MAX) eqn:E; [reflexivity|].
    unfold ULLONG_MAX, PY_SSIZE_T_MAX in *. lia. }
  rewrite (bind_Val _ _ _ _ _ _ N).
  destruct (decimal ds >? PY_SSIZE_T_MAX) eqn:E; [lia|].
  pose proof (skipn_advance _ _ _ _ H1) as H2.
  change ("}"%byte :: CR :: LF :: x ++ post)
    with ((bs "}" ++ CRLF) ++ (x ++ post)) in H2.
  rewrite (bind_Val _ _ _ _ _ _
             (EXPECTS_at view _ (bs "}" ++ CRLF) (x ++ post)
                ltac:(vm_compute; discriminate) H2)).
  pose proof (skipn_advance _ _ _ _ H2) as H3.
  change (length (bs "}" ++ CRLF)) with 3%nat in *.
  assert (L : length (skipn (S cur + length ds + 3) view)
              = length (x ++ post)) by congruence.
  rewrite length_skipn, length_app in L.
  destruct (Z.of_nat (length view - (S cur + length ds + 3)) <? decimal ds)
    eqn:E2; [apply Z.ltb_lt in E2; lia|].
  rewrite H3, Hv, Nat2Z.id, firstn_app, firstn_all, Nat.sub_diag.
  simpl firstn. rewrite app_nil_r. f_equal.
  simpl. rewrite !length_app. simpl. lia.
Qed.

(** [parse_string] at a string, quoted or literal. *)
Lemma parse_string_at view cur x e post :
  imap_string x e ->
  Z.of_nat (length view) <= PY_SSIZE_T_MAX ->
  skipn cur view = e ++ post ->
  parse_string view cur = (Val (PyBytes x), (cur + length e)%nat).
Proof.
  intros He Hmax H. destruct He as [|ds Hne Hd Hv].
  - apply (parse_string_quoted_at view cur x post H).
  - apply (parse_string_literal_at view cur ds x post Hne Hd Hv Hmax H).
Qed.

Lemma parse_string_ascii_at view cur x e post :
  imap_string x e -> all_ascii x ->
  Z.of_nat (length view) <= PY_SSIZE_T_MAX ->
  skipn cur view = e ++ post ->
  parse_string_ascii view cur = (Val (PyUnicode x), (cur + length e)%nat).
Proof.
  intros He Ha Hmax H. unfold parse_string_ascii.
  rewrite (bind_Val _ _ _ _ _ _ (parse_string_at _ _ _ _ _ He Hmax H)).
  unfold decode_ascii.
  replace (forallb (fun c => code c <=? 127) x) with true; [reflexivity|].
  symmetry. apply forallb_forall. intros c Hc.
  unfold all_ascii in Ha. rewrite Forall_forall in Ha.
  specialize (Ha c Hc). lia.
Qed.

(** A string that is the whole input is returned; followed by anything
    more it is refused. *)
Lemma parse_imap_string_ok x e :
  imap_string x e -> Z.of_nat (length e) <= PY_SSIZE_T_MAX ->
  parse_imap_string e = Val (PyBytes x).
Proof.
  intros He Hmax. apply entry_point_run.
  - destruct He; discriminate.
  - apply (parse_string_at e 0 x e [] He Hmax). rewrite app_nil_r. reflexivity.
Qed.

Lemma parse_imap_string_trailing x e t :
  imap_string x e -> t <> [] ->
  Z.of_nat (length (e ++ t)) <= PY_SSIZE_T_MAX ->
  parse_imap_string (e ++ t)
  = Err (ParseError "trailing characters after string").
Proof.
  intros He Ht Hmax. unfold parse_imap_string, entry_point.
  rewrite (parse_string_at (e ++ t) 0 x e t He Hmax eq_refl).
  destruct (e ++ t) eqn:E; [destruct He; discriminate|]. rewrite <- E.
  destruct (Nat.eqb_spec (0 + length e) (length (e ++ t))) as [L|L];
    [|reflexivity].
  rewrite length_app in L. destruct t; [congruence | simpl in L; lia].
Qed.

Lemma parse_token_at view cur tok r t :
  tok <> [] -> Forall (fun c => token_char c = true) tok ->
  match r with [] => True | c :: _ => token_char c = false end ->
  imap4_token tok = Some t ->
  skipn cur view = tok ++ r ->
  parse_token view cur = (Val (Some t), (cur + length tok)%nat).
Proof.
  intros Hne Ht Hr Hk H. unfold parse_token.
  destruct tok as [|c tok]; [congruence|].
  rewrite (skipn_in_view view cur c (tok ++ r) H), H.
  rewrite (span_app token_char (c :: tok) r Ht Hr), Hk. reflexivity.
Qed.

(** *** ESEARCH *)

(** With the error indicator clear [Token_FromLong] gives the token. *)
Lemma Token_FromLong_clear {B} token (f : PyObject -> parser B) view cur :
  bind (Token_FromLong false token) f view cur = f (PyToken token) view cur.
Proof. reflexivity. Qed.

Lemma PyDict_SetItemToken_clear {B} d token v
    (f : list (PyObject * PyObject) -> parser B) view cur :
  bind (PyDict_SetItemToken false d token v) f view cur
  = f (PyDict_SetItem d (PyToken token) v) view cur.
Proof. reflexivity. Qed.

(** Once a step has failed, or has left the error indicator set, the
    function does not return without an error. *)
Lemma bind_not_Val {A B} (p : parser A) (f : A -> parser B) view cur :
  (forall a, fst (p view cur) <> Val a) ->
  forall b, fst (bind p f view cur) <> Val b.
Proof.
  unfold bind. intros Hp b.
  destruct (p view cur) as [[a|e|a e] c]; simpl in *.
  - exfalso. exact (Hp a eq_refl).
  - discriminate.
  - destruct (f a view c) as [[b'|e'|b' e'] c']; discriminate.
Qed.

Lemma unchecked_Val (p : parser PyObject) view cur a cur' :
  p view cur = (Val a, cur') -> unchecked p view cur = (Val a, cur').
Proof. intros H. unfold unchecked. rewrite H. reflexivity. Qed.

(** The search correlator: [(TAG ], a string, [)]. *)
Lemma search_correlator_at view cur x e post :
  imap_string x e -> all_ascii x ->
  Z.of_nat (length view) <= PY_SSIZE_T_MAX ->
  skipn cur view = bs "(TAG " ++ e ++ ")"%byte :: post ->
  (EXPECTS (bs "(TAG ") ;;;
   tag <- unchecked parse_string_ascii ;;
   EXPECTC ")"%byte ;;;
   ret tag) view cur
  = (Val (PyUnicode x), (cur + 5 + length e + 1)%nat).
Proof.
  intros He Ha Hmax H.
  rewrite (bind_Val _ _ _ _ _ _
             (EXPECTS_at view cur (bs "(TAG ") _
                ltac:(vm_compute; discriminate) H)).
  pose proof (skipn_advance _ _ _ _ H) as H1.
  change (length (bs "(TAG ")) with 5%nat in *.
  rewrite (bind_Val _ _ _ _ _ _
             (unchecked_Val _ _ _ _ _
                (parse_string_ascii_at view (cur + 5) x e _ He Ha Hmax H1))).
  pose proof (skipn_advance _ _ _ _ H1) as H2.
  rewrite (bind_Val _ _ _ _ _ _ (EXPECTC_at _ _ _ _ H2)).
  unfold ret. f_equal. lia.
Qed.

(** [parse_esearch_response] at a correlator whose tag is a string. *)
Lemma parse_esearch_response_at view cur x e post uid returned cur' :
  imap_string x e -> all_ascii x ->
  Z.of_nat (length view) <= PY_SSIZE_T_MAX ->
  skipn cur view = bs " (TAG " ++ e ++ ")"%byte :: post ->
  esearch_returns false (S (length view)) false [] view
    (cur + 6 + length e + 1)%nat
    = (Val (uid, returned), cur') ->
  parse_esearch_response view cur
  = (Val (PyStructSequence EsearchType
            [PyUnicode x; PyBool uid; PyDict returned]), cur').
Proof.
  intros He Ha Hmax H Hloop.
  change (bs " (TAG " ++ e ++ ")"%byte :: post)
    with (" "%byte :: "("%byte :: bs "TAG " ++ e ++ ")"%byte :: post) in H.
  unfold parse_esearch_response.
  rewrite (bind_Val _ _ _ _ _ _ (PEEKC_at _ _ _ _ H)).
  change (negb (Byte.eqb " " " ")) with false. cbv iota.
  rewrite (bind_Val _ _ _ _ _ _ (GETC_at _ _ _ _ H)).
  pose proof (skipn_advance1 _ _ _ _ H) as H1.
  rewrite (bind_Val _ _ _ _ _ _ (PEEKC_at _ _ _ _ H1)).
  change (Byte.eqb "(" "(") with true. cbv iota.
  rewrite (bind_Val _ _ _ _ (PyUnicode x) (S cur + 5 + length e + 1)%nat).
  - replace (S cur + 5 + length e + 1)%nat with (cur + 6 + length e + 1)%nat
      by lia.
    change (is_NULL (PyUnicode x)) with false.
    rewrite (bind_Val _ _ _ _ _ _ Hloop). reflexivity.
  - apply (search_correlator_at view (S cur) x e post He Ha Hmax H1).
Qed.

(** A byte that opens neither a quoted string nor a literal is
    consumed by [parse_string], which then fails. *)
Lemma parse_string_no_string view cur c r :
  skipn cur view = c :: r ->
  Byte.eqb c x22 = false -> Byte.eqb c "{"%byte = false ->
  parse_string view cur = (Err (ParseError "invalid string"), S cur).
Proof.
  intros H Hq Hb. unfold parse_string.
  rewrite (bind_Val _ _ _ _ _ _ (GETC_at _ _ _ _ H)), Hq, Hb. reflexivity.
Qed.

(** [parse_esearch_response] at a correlator whose tag is no string:
    whatever follows, it does not return without an error. *)
Lemma parse_esearch_response_no_string view cur c tail :
  skipn cur view = bs " (TAG " ++ c :: tail ->
  Byte.eqb c x22 = false -> Byte.eqb c "{"%byte = false ->
  forall a, fst (parse_esearch_response view cur) <> Val a.
Proof.
  intros H Hq Hb.
  change (bs " (TAG " ++ c :: tail)
    with (" "%byte :: "("%byte :: bs "TAG " ++ c :: tail) in H.
  unfold parse_esearch_response.
  rewrite (bind_Val _ _ _ _ _ _ (PEEKC_at _ _ _ _ H)).
  change (negb (Byte.eqb " " " ")) with false. cbv iota.
  rewrite (bind_Val _ _ _ _ _ _ (GETC_at _ _ _ _ H)).
  pose proof (skipn_advance1 _ _ _ _ H) as H1.
  rewrite (bind_Val _ _ _ _ _ _ (PEEKC_at _ _ _ _ H1)).
  change (Byte.eqb "(" "(") with true. cbv iota.
  apply bind_not_Val.
  assert (H1' : skipn (S cur) view = bs "(TAG " ++ c :: tail) by exact H1.
  rewrite (bind_Val _ _ _ _ _ _
             (EXPECTS_at view (S cur) (bs "(TAG ") _
                ltac:(vm_compute; discriminate) H1')).
  pose proof (skipn_advance _ _ _ _ H1') as H2.
  apply bind_not_Val.
  unfold unchecked, parse_string_ascii. unfold bind.
  rewrite (parse_string_no_string _ _ _ _ H2 Hq Hb).
  discriminate.
Qed.

(** C5 (amended).  The tag of the search correlator is read as an IMAP
    string, not an astring.  For an input [* ESEARCH (TAG e)...] CR LF in
    which [e] is a quoted string or a literal with ASCII contents [x], and
    the returns that follow are accepted by the loop over them,
    [parse_response_line] returns the Esearch whose tag is [x] as text.
    For a tag that opens with a byte other than the double quote and the
    brace, as every atom does, [parse_response_line] does not succeed,
    whatever follows: it fails, or it ends with the error indicator
    set. *)
Theorem esearch_tag_is_string (parse_msg_att : parser PyObject) :
  (forall x e tail uid returned cur',
     let pre := bs "* ESEARCH (TAG " in
     let view := pre ++ e ++ bs ")" ++ tail in
     Z.of_nat (length view) <= PY_SSIZE_T_MAX ->
     imap_string x e -> all_ascii x ->
     esearch_returns false (S (length view)) false [] view
       (length pre + length e + 1)%nat = (Val (uid, returned), cur') ->
     skipn cur' view = CRLF ->
     parse_response_line parse_msg_att view
     = Val (Esearch_response (PyUnicode x) uid returned))
  /\ (forall c tail,
        Byte.eqb c x22 = false -> Byte.eqb c "{"%byte = false ->
        forall v,
          parse_response_line parse_msg_att
            (bs "* ESEARCH (TAG " ++ c :: tail) <> Val v).
Proof.
  split.
  - intros x e tail uid returned cur' pre view Hmax He Ha Hloop Hend.
    assert (H0 : skipn 0 view
                 = bs "* " ++ bs "ESEARCH"
                     ++ (bs " (TAG " ++ e ++ ")"%byte :: tail))
      by reflexivity.
    change (length pre) with 15%nat in Hloop.
    apply entry_point_run; [discriminate|].
    unfold parse_response.
    rewrite (bind_Val _ _ _ _ "*"%byte 0%nat) by reflexivity.
    change (Byte.eqb "*" "*") with true. cbv iota.
    unfold parse_response_data.
    rewrite (bind_Val _ _ _ _ _ _
               (EXPECTS_at view 0 (bs "* ") _
                  ltac:(vm_compute; discriminate) H0)).
    pose proof (skipn_advance _ _ _ _ H0) as H2.
    change (0 + length (bs "* "))%nat with 2%nat in *.
    rewrite (bind_Val _ _ _ _ "E"%byte 2%nat) by reflexivity.
    change ((48 <=? code "E") && (code "E" <=? 57)) with false. cbv iota.
    pose proof (skipn_advance _ _ _ _ H2) as H9.
    change (2 + length (bs "ESEARCH"))%nat with 9%nat in *.
    rewrite (bind_Val _ _ _ _
               (PyToken (Some IMAP4_ESEARCH),
                PyStructSequence EsearchType
                  [PyUnicode x; PyBool uid; PyDict returned]) cur').
    + rewrite (bind_Val _ _ _ _ _ _
                 (EXPECTS_at view cur' CRLF []
                    ltac:(discriminate) Hend)).
      unfold ret, Esearch_response. cbn [fst snd]. f_equal.
      apply (skipn_length_eq view cur' CRLF Hend). discriminate.
    + rewrite (bind_Val _ _ _ _ (Some IMAP4_ESEARCH) 9%nat).
      * rewrite Token_FromLong_clear. cbv iota.
        rewrite (bind_Val _ _ _ _ _ _
                   (parse_esearch_response_at view 9 x e tail uid returned
                      cur' He Ha Hmax H9
                      ltac:(replace (9 + 6 + length e + 1)%nat
                              with (15 + length e + 1)%nat by lia;
                            exact Hloop))).
        reflexivity.
      * apply (parse_token_at view 2 (bs "ESEARCH")
                 (bs " (TAG " ++ e ++ ")"%byte :: tail) IMAP4_ESEARCH);
          [discriminate | | reflexivity | reflexivity | exact H2].
        repeat constructor.
  - intros c tail Hq Hb v Hv.
    set (view := bs "* ESEARCH (TAG " ++ c :: tail) in *.
    apply entry_point_Val in Hv.
    assert (H0 : skipn 0 view
                 = bs "* " ++ bs "ESEARCH" ++ (bs " (TAG " ++ c :: tail))
      by reflexivity.
    assert (N : forall b,
              fst (parse_response parse_msg_att view 0%nat) <> Val b).
    { unfold parse_response.
      rewrite (bind_Val _ _ _ _ "*"%byte 0%nat) by reflexivity.
      change (Byte.eqb "*" "*") with true. cbv iota.
      unfold parse_response_data.
      rewrite (bind_Val _ _ _ _ _ _
                 (EXPECTS_at view 0 (bs "* ") _
                    ltac:(vm_compute; discriminate) H0)).
      pose proof (skipn_advance _ _ _ _ H0) as H2.
      change (0 + length (bs "* "))%nat with 2%nat in *.
      rewrite (bind_Val _ _ _ _ "E"%byte 2%nat) by reflexivity.
      change ((48 <=? code "E") && (code "E" <=? 57)) with false. cbv iota.
      pose proof (skipn_advance _ _ _ _ H2) as H9.
      change (2 + length (bs "ESEARCH"))%nat with 9%nat in *.
      apply bind_not_Val.
      rewrite (bind_Val _ _ _ _ (Some IMAP4_ESEARCH) 9%nat).
      - rewrite Token_FromLong_clear. cbv iota.
        apply bind_not_Val.
        exact (parse_esearch_response_no_string view 9 c tail H9 Hq Hb).
      - apply (parse_token_at view 2 (bs "ESEARCH")
                 (bs " (TAG " ++ c :: tail) IMAP4_ESEARCH);
          [discriminate | | reflexivity | reflexivity | exact H2].
        repeat constructor. }
    apply (N v). rewrite Hv. reflexivity.
Qed.

(** The witness of C5: a quoted tag and two returns, and the same tag
    written as an atom. *)
Lemma esearch_tag_is_string_witness :
  parse_response_line no_msg_att
    (bs "* ESEARCH (TAG " ++ quoted (bs "A282") ++ bs ")"
       ++ bs " MIN 2 COUNT 3" ++ CRLF)
  = Val (Esearch_response (PyUnicode (bs "A282")) false
           [(PyToken (Some IMAP4_MIN), PyLong 2);
            (PyToken (Some IMAP4_COUNT), PyLong 3)])
  /\ forall v,
       parse_response_line no_msg_att
         (bs "* ESEARCH (TAG " ++ "A"%byte :: bs "282) MIN 2 COUNT 3" ++ CRLF)
       <> Val v.
Proof.
  destruct (esearch_tag_is_string no_msg_att) as [Hs Ha]. split.
  - apply (Hs (bs "A282") (quoted (bs "A282"))
             (bs " MIN 2 COUNT 3" ++ CRLF) false _ 36%nat).
    + vm_compute. discriminate.
    + constructor.
    + repeat constructor; vm_compute; discriminate.
    + reflexivity.
    + reflexivity.
  - apply Ha; reflexivity.
Defined.

(** C5 (as stated) fails: an ESEARCH response whose tag is the atom
    A282, a well-formed astring, is rejected. *)
Lemma esearch_atom_tag_rejected :
  parse_response_line no_msg_att (bs "* ESEARCH (TAG A282) MIN 2" ++ CRLF)
  = Err (ParseError_expected (bs ")")).
Proof. reflexivity. Qed.

(** With an atom of one byte the tag is NULL and the closing parenthesis
    is found: without returns the response comes back with the error
    indicator set, and with a return the dictionary update fails. *)
Example esearch_one_byte_atom_tag :
  parse_response_line no_msg_att (bs "* ESEARCH (TAG X)" ++ CRLF)
  = ValErr (Esearch_response PyNULL false []) (ParseError "invalid string")
  /\ parse_response_line no_msg_att (bs "* ESEARCH (TAG X) MIN 2" ++ CRLF)
     = Err SystemError.
Proof. split; reflexivity. Qed.

(** The line the scanner mis-frames is one the parser accepts: a LIST
    response for the mailbox [{5}]. *)
Example list_literal_line_parses :
  parse_response_line no_msg_att Scan.list_literal_line
  = Val (PyStructSequence UntaggedResponseType
           [PyToken (Some IMAP4_LIST);
            PyStructSequence ListType
              [PySet []; PyLong 47; PyBytes (bs "{5}")]]).
Proof. reflexivity. Qed.

(* ------------------------------------------------------------------ *)
(** ** The cursor stays inside the view and the loops have fuel enough *)

Lemma steady_ret {A} (a : A) : steady (ret a).
Proof. intros view cur r cur' Hc H. inversion H; subst. simpl. auto. Qed.

Lemma steady_fail {A} e : e <> OutOfFuel -> steady (@fail A e).
Proof. intros He view cur r cur' Hc H. inversion H; subst. simpl. auto. Qed.

Lemma steady_bind {A B} (p : parser A) (f : A -> parser B) :
  steady p -> (forall a, steady (f a)) -> steady (bind p f).
Proof.
  intros Hp Hf view cur r cur' Hc H. unfold bind in H.
  destruct (p view cur) as [[a|e|a e] c1] eqn:P;
    destruct (Hp _ _ _ _ Hc P) as [L1 F1].
  - assert (Hc1 : (c1 <= length view)%nat) by lia.
    destruct (Hf a _ _ _ _ Hc1 H) as [L2 F]. split; [lia | exact F].
  - inversion H; subst. auto.
  - simpl in F1. assert (Hc1 : (c1 <= length view)%nat) by lia.
    destruct (f a view c1) as [[b|e'|b e'] c2] eqn:Q;
      destruct (Hf a _ _ _ _ Hc1 Q) as [L2 F2]; inversion H; subst;
      (split; [lia | simpl; auto]).
Qed.

Lemma nth_error_inside {A} (l : list A) n x :
  nth_error l n = Some x -> (n < length l)%nat.
Proof. intros H. apply nth_error_Some. congruence. Qed.

Lemma steady_PEEKC : steady PEEKC.
Proof.
  intros view cur r cur' Hc H. unfold PEEKC in H.
  destruct (nth_error view cur); inversion H; subst; simpl;
    (split; [lia | try discriminate; auto]).
Qed.

Lemma steady_GETC : steady GETC.
Proof.
  intros view cur r cur' Hc H. unfold GETC in H.
  destruct (nth_error view cur) eqn:E; inversion H; subst; simpl.
  - apply nth_error_inside in E. split; [lia | auto].
  - split; [lia | discriminate].
Qed.

Lemma steady_EXPECTC c : steady (EXPECTC c).
Proof.
  intros view cur r cur' Hc H. unfold EXPECTC in H.
  destruct (nth_error view cur) as [d|] eqn:E.
  - apply nth_error_inside in E.
    destruct (Byte.eqb d c); inversion H; subst; simpl;
      (split; [lia | try discriminate; auto]).
  - inversion H; subst. split; [lia | discriminate].
Qed.

Lemma steady_EXPECTS s : steady (EXPECTS s).
Proof.
  intros view cur r cur' Hc H. unfold EXPECTS in H.
  destruct (Nat.ltb_spec (length view) (cur + length s));
    [|destruct (bytes_eqb _ s)];
    inversion H; subst; simpl; (split; [lia | try discriminate; auto]).
Qed.

Lemma span_length ok (l : list byte) : (length (span ok l) <= length l)%nat.
Proof.
  induction l as [|c t IH]; simpl; [lia|].
  destruct (ok c); simpl; lia.
Qed.

Lemma span_in_view ok (view : list byte) cur :
  (cur <= length view)%nat ->
  (cur + length (span ok (skipn cur view)) <= length view)%nat.
Proof.
  intros Hc. pose proof (span_length ok (skipn cur view)) as L.
  rewrite length_skipn in L. lia.
Qed.

Lemma steady_bufcspn reject : steady (bufcspn reject).
Proof.
  intros view cur r cur' Hc H. unfold bufcspn in H.
  pose proof (span_in_view (accepted reject) view cur Hc).
  destruct (length view <=? cur)%nat; inversion H; subst; simpl;
    (split; [lia | try discriminate; auto]).
Qed.

Lemma steady_parse_cspn reject : steady (parse_cspn reject).
Proof.
  apply steady_bind; [apply steady_bufcspn|]. intros [|c s].
  - apply steady_fail. discriminate.
  - apply steady_ret.
Qed.

Lemma steady_parse_token : steady parse_token.
Proof.
  intros view cur r cur' Hc H. unfold parse_token in H.
  pose proof (span_in_view token_char view cur Hc).
  destruct (length view <=? cur)%nat; [|destruct (imap4_token _)];
    inversion H; subst; simpl; (split; [lia | try discriminate; auto]).
Qed.

Lemma number_loop_length l : forall res n v m,
  number_loop l res n = Some (v, m) -> (n <= m <= n + length l)%nat.
Proof.
  induction l as [|c t IH]; intros res n v m H; simpl in *.
  - inversion H; subst. lia.
  - destruct ((48 <=? code c) && (code c <=? 57)).
    + destruct ((res >? ULLONG_MAX / 10) || _); [discriminate|].
      apply IH in H. lia.
    + inversion H; subst. lia.
Qed.

Lemma steady__parse_number : steady _parse_number.
Proof.
  intros view cur r cur' Hc H. unfold _parse_number in H.
  destruct (length view <=? cur)%nat.
  - inversion H; subst. split; [lia | discriminate].
  - destruct (number_loop _ 0 0) as [[v n]|] eqn:N.
    + apply number_loop_length in N. rewrite length_skipn in N.
      destruct n; inversion H; subst; simpl;
        (split; [lia | try discriminate; auto]).
    + inversion H; subst. split; [lia | discriminate].
Qed.

Lemma steady_parse_number : steady parse_number.
Proof.
  apply steady_bind; [apply steady__parse_number|].
  intros a. apply steady_ret.
Qed.

Lemma below_of_steady {A} m (p : parser A) : steady p -> steady_below m p.
Proof. intros Hp view cur r cur' Hc _ H. exact (Hp _ _ _ _ Hc H). Qed.

Lemma below_weaken {A} m m' (p : parser A) :
  steady_below m p -> (m' <= m)%nat -> steady_below m' p.
Proof.
  intros Hp Hm view cur r cur' Hc Hl H.
  assert (Hl' : (length view - cur < m)%nat) by lia.
  exact (Hp _ _ _ _ Hc Hl' H).
Qed.

Lemma below_bind {A B} m (p : parser A) (f : A -> parser B) :
  steady_below m p -> (forall a, steady_below m (f a)) ->
  steady_below m (bind p f).
Proof.
  intros Hp Hf view cur r cur' Hc Hm H. unfold bind in H.
  destruct (p view cur) as [[a|e|a e] c1] eqn:P;
    destruct (Hp _ _ _ _ Hc Hm P) as [L1 F1].
  - assert (Hc1 : (c1 <= length view)%nat) by lia.
    assert (Hm1 : (length view - c1 < m)%nat) by lia.
    destruct (Hf a view c1 r cur' Hc1 Hm1 H) as [L2 F].
    split; [lia|auto].
  - inversion H; subst. auto.
  - assert (Hc1 : (c1 <= length view)%nat) by lia.
    assert (Hm1 : (length view - c1 < m)%nat) by lia.
    destruct (f a view c1) as [[b|e'|b e'] c2] eqn:Q;
      destruct (Hf a view c1 _ _ Hc1 Hm1 Q) as [L2 F2];
      inversion H; subst; (split; [lia | simpl in *; auto]).
Qed.

Lemma below_bind_progress {A B} k (p : parser A) (f : A -> parser B) :
  progressing p -> (forall a, steady_below k (f a)) ->
  steady_below (S k) (bind p f).
Proof.
  intros [Hp Hg] Hf view cur r cur' Hc Hm H. unfold bind in H.
  destruct (p view cur) as [[a|e|a e] c1] eqn:P;
    destruct (Hp _ _ _ _ Hc P) as [L1 F1]; pose proof (Hg _ _ _ _ Hc P) as G;
    simpl in G.
  - assert (Hc1 : (c1 <= length view)%nat) by lia.
    assert (Hm1 : (length view - c1 < k)%nat) by lia.
    destruct (Hf a view c1 r cur' Hc1 Hm1 H) as [L2 F].
    split; [lia|auto].
  - inversion H; subst. auto.
  - assert (Hc1 : (c1 <= length view)%nat) by lia.
    assert (Hm1 : (length view - c1 < k)%nat) by lia.
    destruct (f a view c1) as [[b|e'|b e'] c2] eqn:Q;
      destruct (Hf a view c1 _ _ Hc1 Hm1 Q) as [L2 F2];
      inversion H; subst; (split; [lia | simpl in *; auto]).
Qed.

Lemma progressing_GETC : progressing GETC.
Proof.
  split; [apply steady_GETC|].
  intros view cur r cur' _ H. unfold GETC in H.
  destruct (nth_error view cur) eqn:E; inversion H; subst; [lia|exact I].
Qed.

Lemma progressing_EXPECTC c : progressing (EXPECTC c).
Proof.
  split; [apply steady_EXPECTC|].
  intros view cur r cur' _ H. unfold EXPECTC in H.
  destruct (nth_error view cur) as [d|]; [destruct (Byte.eqb d c)|];
    inversion H; subst; try exact I. lia.
Qed.

Lemma progressing__parse_number : progressing _parse_number.
Proof.
  split; [apply steady__parse_number|].
  intros view cur r cur' _ H. unfold _parse_number in H.
  destruct (length view <=? cur)%nat; [inversion H; exact I|].
  destruct (number_loop _ 0 0) as [[w [|n]]|]; inversion H; subst;
    try exact I. lia.
Qed.

(** A loop that is entered with the length of the view, and one more,
    as its fuel. *)
Lemma steady_loop1 {I A B} (loop : nat -> I -> parser A) init
    (f : A -> parser B) :
  (forall fuel, steady_below fuel (loop fuel init)) ->
  (forall a, steady (f a)) ->
  steady (fun view => (bind (loop (S (length view)) init) f) view).
Proof.
  intros Hl Hf view cur r cur' Hc H.
  refine (below_bind (S (length view)) _ _ (Hl _) _ view cur r cur' Hc _ H).
  - intros a. apply below_of_steady, Hf.
  - lia.
Qed.

Lemma steady_loop2 {I J A B} (loop : nat -> I -> J -> parser A) i j
    (f : A -> parser B) :
  (forall fuel, steady_below fuel (loop fuel i j)) ->
  (forall a, steady (f a)) ->
  steady (fun view => (bind (loop (S (length view)) i j) f) view).
Proof.
  intros Hl Hf. exact (steady_loop1 (fun n (_ : unit) => loop n i j) tt f Hl Hf).
Qed.

Create HintDb steady.
Create HintDb progress.
#[local] Hint Resolve steady_ret steady_PEEKC steady_GETC steady_EXPECTC
  steady_EXPECTS steady_bufcspn steady_parse_cspn steady_parse_token
  steady__parse_number steady_parse_number : steady.
#[local] Hint Resolve progressing_GETC progressing_EXPECTC
  progressing__parse_number : progress.

(** The steps of a chain of calls that is steady whatever is left of the
    view. *)
Ltac steady_tac :=
  repeat first
    [ apply steady_ret
    | apply steady_fail; discriminate
    | solve [auto with steady]
    | match goal with
      | |- steady (bind _ _) => apply steady_bind; [|intros ?]
      | |- steady (fun view => _) =>
          first
            [ apply steady_loop1;
                [intros ?; solve [auto with steady] | intros ?]
            | apply steady_loop2;
                [intros ?; solve [auto with steady] | intros ?] ]
      end
    | match goal with
      | |- steady (if ?b then _ else _) => destruct b
      | |- steady (match ?x with _ => _ end) => destruct x
      | |- steady (let _ := _ in _) => cbv zeta
      end ].

(** The steps of the body of a loop: the fuel left is [k] once a step
    that consumes a byte is behind, and the recursive call is [IH]. *)
Ltac below_tac IH :=
  repeat first
    [ apply IH
    | apply below_of_steady; solve [steady_tac]
    | match goal with
      | |- steady_below (S _) (bind _ _) =>
          apply below_bind_progress; [solve [auto with progress] | intros ?]
      end
    | match goal with
      | |- steady_below _ (bind _ _) => apply below_bind; [|intros ?]
      end
    | match goal with
      | |- steady_below _ (if ?b then _ else _) => destruct b
      | |- steady_below _ (match ?x with _ => _ end) => destruct x
      | |- steady_below _ (let _ := _ in _) => cbv zeta
      end ].

Ltac loop_steady body :=
  let k := fresh "k" in
  let IH := fresh "IH" in
  intros fuel; induction fuel as [|k IH]; intros;
  [ intros view cur r cur' Hc Hm; lia
  | cbn [body]; below_tac IH ].

(** *** Strings *)

Lemma quoted_loop_error l : forall buffer n e,
  quoted_loop l buffer n = Raise e -> e <> OutOfFuel.
Proof.
  enough (G : forall k l, (length l <= k)%nat -> forall buffer n e,
            quoted_loop l buffer n = Raise e -> e <> OutOfFuel)
    by exact (G (length l) l (Nat.le_refl _)).
  clear l. induction k as [|k IH]; intros l Hl buffer n e H.
  - destruct l; [|simpl in Hl; lia]. inversion H. discriminate.
  - destruct l as [|c t]; simpl in H; [inversion H; discriminate|].
    simpl in Hl.
    destruct (Byte.eqb c x22); [discriminate|].
    destruct (Byte.eqb c x5c).
    + destruct t as [|d t']; [inversion H; discriminate|].
      destruct (negb (Byte.eqb d x22) && negb (Byte.eqb d x5c));
        [inversion H; discriminate|].
      apply (IH t') in H; [exact H | simpl in Hl; lia].
    + apply (IH t) in H; [exact H | lia].
Qed.

Lemma quoted_loop_length l : forall buffer n b m,
  quoted_loop l buffer n = Ok (b, m) -> (n <= m < n + length l)%nat.
Proof.
  enough (G : forall k l, (length l <= k)%nat -> forall buffer n b m,
            quoted_loop l buffer n = Ok (b, m) ->
            (n <= m < n + length l)%nat)
    by exact (G (length l) l (Nat.le_refl _)).
  clear l. induction k as [|k IH]; intros l Hl buffer n b m H.
  - destruct l; [discriminate | simpl in Hl; lia].
  - destruct l as [|c t]; simpl in H; [discriminate|]. simpl in Hl.
    destruct (Byte.eqb c x22); [inversion H; subst; simpl; lia|].
    destruct (Byte.eqb c x5c).
    + destruct t as [|d t']; [discriminate|].
      destruct (negb (Byte.eqb d x22) && negb (Byte.eqb d x5c));
        [discriminate|].
      apply (IH t') in H; simpl in *; lia.
    + apply (IH t) in H; simpl in *; lia.
Qed.

Lemma steady_parse_string : steady parse_string.
Proof.
  apply steady_bind; [apply steady_GETC|]. intros c.
  destruct (Byte.eqb c x22).
  - intros view cur r cur' Hc H.
    destruct (quoted_loop (skipn cur view) [] 0) as [[buffer n]|e] eqn:Q.
    + apply quoted_loop_length in Q. rewrite length_skipn in Q.
      assert (S1 : steady (EXPECTC x22 ;;; ret (PyBytes buffer))).
      { steady_tac. }
      assert (Hc1 : (cur + n <= length view)%nat) by lia.
      destruct (S1 _ _ _ _ Hc1 H) as [L F]. split; [lia | exact F].
    + inversion H; subst. split; [lia|]. simpl.
      exact (quoted_loop_error _ _ _ _ Q).
  - destruct (Byte.eqb c "{"%byte); [|apply steady_fail; discriminate].
    apply steady_bind; [apply steady__parse_number|]. intros number.
    destruct (number >? PY_SSIZE_T_MAX); [apply steady_fail; discriminate|].
    apply steady_bind; [apply steady_EXPECTS|]. intros _.
    intros view cur r cur' Hc H.
    destruct (Z.ltb_spec (Z.of_nat (length view - cur)) number);
      inversion H; subst; simpl; (split; [lia | try discriminate; auto]).
Qed.

Lemma steady_parse_atom : steady parse_atom.
Proof. apply steady_parse_cspn. Qed.

Lemma steady_decode_ascii o : steady (decode_ascii o).
Proof. unfold decode_ascii. steady_tac. Qed.

#[local] Hint Resolve steady_parse_atom steady_parse_string
  steady_decode_ascii : steady.

Lemma steady_parse_string_ascii : steady parse_string_ascii.
Proof. unfold parse_string_ascii. steady_tac. Qed.

Lemma steady_parse_astring : steady parse_astring.
Proof. unfold parse_astring. steady_tac. Qed.

Lemma steady_unchecked p : steady p -> steady (unchecked p).
Proof.
  intros Hp view cur r cur' Hc H. unfold unchecked in H.
  destruct (p view cur) as [[a|e|a e] c1] eqn:P;
    destruct (Hp _ _ _ _ Hc P) as [L F]; inversion H; subst; auto.
Qed.

Lemma steady_Token_FromLong error_set token :
  steady (Token_FromLong error_set token).
Proof. unfold Token_FromLong. steady_tac. Qed.

#[local] Hint Resolve steady_Token_FromLong : steady.

Lemma steady_PyDict_SetItemToken error_set p token val :
  steady (PyDict_SetItemToken error_set p token val).
Proof. unfold PyDict_SetItemToken. steady_tac. Qed.

#[local] Hint Resolve steady_parse_string_ascii steady_parse_astring
  steady_unchecked steady_PyDict_SetItemToken : steady.

(** *** The loops *)

Lemma sequence_set_loop_steady : forall fuel items,
  steady_below fuel (sequence_set_loop fuel items).
Proof. loop_steady sequence_set_loop. Qed.

#[local] Hint Resolve sequence_set_loop_steady : steady.

Lemma steady_parse_sequence_set : steady parse_sequence_set.
Proof. unfold parse_sequence_set. steady_tac. Qed.

#[local] Hint Resolve steady_parse_sequence_set : steady.

Lemma esearch_returns_steady error_set : forall fuel uid returned,
  steady_below fuel (esearch_returns error_set fuel uid returned).
Proof. loop_steady esearch_returns. Qed.

Lemma flag_list_loop_steady : forall fuel flags,
  steady_below fuel (flag_list_loop fuel flags).
Proof. loop_steady flag_list_loop. Qed.

Lemma mbx_list_flags_loop_steady : forall fuel flags,
  steady_below fuel (mbx_list_flags_loop fuel flags).
Proof. loop_steady mbx_list_flags_loop. Qed.

Lemma status_att_loop_steady : forall fuel items,
  steady_below fuel (status_att_loop fuel items).
Proof. loop_steady status_att_loop. Qed.

Lemma search_att_loop_steady : forall fuel data,
  steady_below fuel (search_att_loop fuel data).
Proof. loop_steady search_att_loop. Qed.

Lemma capability_loop_steady : forall fuel data,
  steady_below fuel (capability_loop fuel data).
Proof. loop_steady capability_loop. Qed.

#[local] Hint Resolve esearch_returns_steady flag_list_loop_steady
  mbx_list_flags_loop_steady status_att_loop_steady search_att_loop_steady
  capability_loop_steady : steady.

(** *** The productions *)

Lemma steady_parse_esearch_response : steady parse_esearch_response.
Proof. unfold parse_esearch_response. steady_tac. Qed.

Lemma steady_parse_resp_text : steady parse_resp_text.
Proof. unfold parse_resp_text. steady_tac. Qed.

Lemma steady_parse_flag_list : steady parse_flag_list.
Proof. unfold parse_flag_list. steady_tac. Qed.

Lemma steady_parse_mbx_list_flags : steady parse_mbx_list_flags.
Proof. unfold parse_mbx_list_flags. steady_tac. Qed.

Lemma steady_parse_mailbox : steady parse_mailbox.
Proof. unfold parse_mailbox. steady_tac. Qed.

#[local] Hint Resolve steady_parse_esearch_response steady_parse_resp_text
  steady_parse_flag_list steady_parse_mbx_list_flags steady_parse_mailbox
  : steady.

Lemma steady_parse_mailbox_list : steady parse_mailbox_list.
Proof. unfold parse_mailbox_list. steady_tac. Qed.

Lemma steady_parse_status_att : steady parse_status_att.
Proof. unfold parse_status_att. steady_tac. Qed.

Lemma steady_parse_search_att : steady parse_search_att.
Proof. unfold parse_search_att. steady_tac. Qed.

#[local] Hint Resolve steady_parse_mailbox_list steady_parse_status_att
  steady_parse_search_att : steady.

Lemma steady_parse_message_data pm :
  steady pm -> steady (parse_message_data pm).
Proof. intros Hpm. unfold parse_message_data. steady_tac. Qed.

#[local] Hint Resolve steady_parse_message_data : steady.

Lemma steady_parse_response_data pm :
  steady pm -> steady (parse_response_data pm).
Proof. intros Hpm. unfold parse_response_data. steady_tac. Qed.

Lemma steady_parse_response_tagged : steady parse_response_tagged.
Proof. unfold parse_response_tagged. steady_tac. Qed.

Lemma steady_parse_continue_req : steady parse_continue_req.
Proof. unfold parse_continue_req. steady_tac. Qed.

#[local] Hint Resolve steady_parse_response_data steady_parse_response_tagged
  steady_parse_continue_req : steady.

Lemma steady_parse_response pm : steady pm -> steady (parse_response pm).
Proof. intros Hpm. unfold parse_response. steady_tac. Qed.

(** *** The parts of a FETCH response *)

Lemma steady_parse_nstring : steady parse_nstring.
Proof. unfold parse_nstring. steady_tac. Qed.

#[local] Hint Resolve steady_parse_nstring : steady.

Lemma steady_parse_nstring_ascii : steady parse_nstring_ascii.
Proof. unfold parse_nstring_ascii. steady_tac. Qed.

Lemma steady_parse_string_ascii_lower : steady parse_string_ascii_lower.
Proof. unfold parse_string_ascii_lower. steady_tac. Qed.

#[local] Hint Resolve steady_parse_nstring_ascii
  steady_parse_string_ascii_lower : steady.

Lemma steady_parse_bodysection dict : steady (parse_bodysection dict).
Proof. unfold parse_bodysection. steady_tac. Qed.

Lemma body_fld_param_loop_steady : forall fuel params,
  steady_below fuel (body_fld_param_loop fuel params).
Proof. loop_steady body_fld_param_loop. Qed.

Lemma body_fld_lang_loop_steady : forall fuel items,
  steady_below fuel (body_fld_lang_loop fuel items).
Proof. loop_steady body_fld_lang_loop. Qed.

#[local] Hint Resolve body_fld_param_loop_steady body_fld_lang_loop_steady
  : steady.

Lemma steady_parse_body_fld_param : steady parse_body_fld_param.
Proof. unfold parse_body_fld_param. steady_tac. Qed.

#[local] Hint Resolve steady_parse_body_fld_param : steady.

Lemma steady_parse_body_fld_dsp : steady parse_body_fld_dsp.
Proof. unfold parse_body_fld_dsp. steady_tac. Qed.

Lemma steady_parse_body_fld_lang : steady parse_body_fld_lang.
Proof. unfold parse_body_fld_lang. steady_tac. Qed.

(** The loop over the items of a list, for an [item] that is steady
    with fewer than [m] bytes left. *)
Lemma body_extension_loop_steady item m :
  steady_below m item ->
  forall fuel items,
    steady_below (Nat.min m fuel) (body_extension_loop item fuel items).
Proof.
  intros Hitem fuel. induction fuel as [|k IH]; intros items.
  - intros view cur r cur' Hc Hm. lia.
  - destruct m as [|m']; [intros view cur r cur' Hc Hm; lia|].
    cbn [body_extension_loop Nat.min].
    apply below_bind.
    { apply (below_weaken (S m')); [exact Hitem | lia]. }
    intros extension.
    assert (IH' : forall items,
              steady_below (Nat.min m' k)
                (body_extension_loop item k items)).
    { intros i. apply (below_weaken (Nat.min (S m') k)); [apply IH | lia]. }
    below_tac IH'.
Qed.

Lemma body_extension_steady : forall depth,
  steady_below depth (body_extension depth).
Proof.
  induction depth as [|k IH].
  - intros view cur r cur' Hc Hm. lia.
  - cbn [body_extension].
    apply below_bind; [apply below_of_steady, steady_PEEKC|]. intros c.
    destruct (Byte.eqb c "("%byte).
    + apply below_bind_progress; [apply progressing_GETC|]. intros _.
      intros view cur r cur' Hc Hm H.
      refine (below_bind (Nat.min k (S (length view))) _ _
                (body_extension_loop_steady _ k IH _ _) _
                view cur r cur' Hc _ H).
      * intros items. apply below_of_steady, steady_ret.
      * lia.
    + destruct ((48 <=? code c) && (code c <=? 57));
        apply below_of_steady; auto with steady.
Qed.

Lemma steady_parse_body_extension : steady parse_body_extension.
Proof.
  intros view cur r cur' Hc H.
  refine (body_extension_steady (S (length view)) view cur r cur' Hc _ H).
  lia.
Qed.

(** X9.  The response parser never moves the cursor back and never
    moves it past the end of the view, whatever the bytes of the view;
    and no loop of the model runs out of fuel, so that every result of
    the model is a result of the source.  The same has to hold of the
    parser of the FETCH attributes. *)
Theorem response_cursor_stays_in_view pm view cur r cur' :
  steady pm ->
  (cur <= length view)%nat ->
  parse_response pm view cur = (r, cur') ->
  (cur <= cur' <= length view)%nat /\ fuel_ok r.
Proof.
  intros Hpm Hc H. exact (steady_parse_response pm Hpm view cur r cur' Hc H).
Qed.

Lemma response_cursor_stays_in_view_witness :
  (0 <= 12 <= length (bs "* 7 EXISTS" ++ CRLF))%nat
  /\ fuel_ok (Val (PyStructSequence UntaggedResponseType
                     [PyToken (Some IMAP4_EXISTS); PyLong 7])).
Proof.
  apply (response_cursor_stays_in_view no_msg_att
           (bs "* 7 EXISTS" ++ CRLF) 0%nat).
  - apply steady_fail. discriminate.
  - cbn. lia.
  - reflexivity.
Defined.

(** X10.  The parsers of the parts of a FETCH response keep the cursor
    inside the view and do not move it back; the lists of a body
    extension can nest as deep as the view allows without the model
    running out of fuel. *)
Theorem fetch_parts_stay_in_view :
  steady parse_nstring /\ steady parse_nstring_ascii
  /\ steady parse_string_ascii_lower
  /\ (forall dict, steady (parse_bodysection dict))
  /\ steady parse_body_extension
  /\ steady parse_body_fld_param /\ steady parse_body_fld_dsp
  /\ steady parse_body_fld_lang.
Proof.
  split; [exact steady_parse_nstring|].
  split; [exact steady_parse_nstring_ascii|].
  split; [exact steady_parse_string_ascii_lower|].
  split; [exact steady_parse_bodysection|].
  split; [exact steady_parse_body_extension|].
  split; [exact steady_parse_body_fld_param|].
  split; [exact steady_parse_body_fld_dsp|].
  exact steady_parse_body_fld_lang.
Qed.

(* ------------------------------------------------------------------ *)
(** ** Strings, astrings, mailboxes *)

(** X11.  A literal carries any bytes: whatever the payload holds (CR,
    LF, quotes, backslashes, bytes above 0x7f), the string entry point
    returns it unchanged, for any way of writing its length in digits. *)
Theorem literal_carries_any_bytes ds x :
  ds <> [] -> Forall (fun c => isdigit c = true) ds ->
  decimal ds = Z.of_nat (length x) ->
  Z.of_nat (length (literal ds x)) <= PY_SSIZE_T_MAX ->
  parse_imap_string (literal ds x) = Val (PyBytes x).
Proof.
  intros Hne Hd Hv Hmax.
  apply parse_imap_string_ok; [|exact Hmax].
  apply imap_literal; assumption.
Qed.

Lemma literal_carries_any_bytes_witness :
  parse_imap_string (literal (bs "007") [x22; CR; LF; x5c; xff; x00; "}"%byte])
  = Val (PyBytes [x22; CR; LF; x5c; xff; x00; "}"%byte]).
Proof.
  apply (literal_carries_any_bytes (bs "007")).
  - discriminate.
  - repeat constructor.
  - reflexivity.
  - vm_compute. discriminate.
Defined.

(** X12.  The length of a literal is checked three times, and each
    check leaves the cursor where it failed: a length above
    [ULLONG_MAX] is a number that overflowed (cursor after the brace),
    one above [PY_SSIZE_T_MAX] overflows the literal length (cursor
    after the digits), and one above the number of bytes left after the
    header is a truncated parse (cursor after the header). *)
Theorem literal_length_checked view cur ds rest :
  ds <> [] -> Forall (fun c => isdigit c = true) ds ->
  skipn cur view = literal ds rest ->
  (ULLONG_MAX < decimal ds ->
   parse_string view cur
   = (Err (ParseError "number overflowed"), S cur))
  /\ (PY_SSIZE_T_MAX < decimal ds <= ULLONG_MAX ->
      parse_string view cur
      = (Err (ParseError "literal length overflowed"),
         (S cur + length ds)%nat))
  /\ (Z.of_nat (length rest) < decimal ds <= PY_SSIZE_T_MAX ->
      parse_string view cur
      = (Err TRUNCATED_PARSE, (S cur + length ds + 3)%nat)).
Proof.
  intros Hne Hd H.
  unfold literal in H. simpl app in H.
  pose proof (skipn_advance1 _ _ _ _ H) as H1.
  pose proof (_parse_number_at view (S cur) ds
                ("}"%byte :: CR :: LF :: rest) Hne Hd eq_refl H1) as N.
  assert (P : parse_string view cur =
              (number <- _parse_number ;;
               if number >? PY_SSIZE_T_MAX
               then fail (ParseError "literal length overflowed")
               else
                 EXPECTS (bs "}" ++ CRLF) ;;;
                 (fun view cur =>
                    if Z.of_nat (length view - cur) <? number
                    then (Err TRUNCATED_PARSE, cur)
                    else (Val (PyBytes (firstn (Z.to_nat number)
                                          (skipn cur view))),
                          (cur + Z.to_nat number)%nat))) view (S cur)).
  { unfold parse_string.
    rewrite (bind_Val _ _ _ _ _ _ (GETC_at _ _ _ _ H)). reflexivity. }
  rewrite P. clear P.
  split; [|split]; intros Hrange.
  - destruct (decimal ds <=? ULLONG_MAX) eqn:E; [lia|].
    unfold bind. rewrite N. reflexivity.
  - destruct (decimal ds <=? ULLONG_MAX) eqn:E; [|lia].
    rewrite (bind_Val _ _ _ _ _ _ N).
    destruct (decimal ds >? PY_SSIZE_T_MAX) eqn:E2; [reflexivity|lia].
  - destruct (decimal ds <=? ULLONG_MAX) eqn:E;
      [|unfold ULLONG_MAX, PY_SSIZE_T_MAX in *; lia].
    rewrite (bind_Val _ _ _ _ _ _ N).
    destruct (decimal ds >? PY_SSIZE_T_MAX) eqn:E2; [lia|].
    pose proof (skipn_advance _ _ _ _ H1) as H2.
    change ("}"%byte :: CR :: LF :: rest)
      with ((bs "}" ++ CRLF) ++ rest) in H2.
    assert (Hne3 : bs "}" ++ CRLF <> []) by discriminate.
    rewrite (bind_Val _ _ _ _ _ _
               (EXPECTS_at view _ (bs "}" ++ CRLF) rest Hne3 H2)).
    pose proof (skipn_advance _ _ _ _ H2) as H3.
    change (length (bs "}" ++ CRLF)) with 3%nat in *.
    assert (L : length (skipn (S cur + length ds + 3) view) = length rest)
      by congruence.
    rewrite length_skipn in L. rewrite L.
    destruct (Z.of_nat (length rest) <? decimal ds) eqn:E3;
      [reflexivity|lia].
Qed.

Lemma literal_length_checked_witness :
  parse_string (bs "{12}" ++ CRLF ++ bs "abc") 0%nat
  = (Err TRUNCATED_PARSE, 6%nat).
Proof.
  apply (literal_length_checked (bs "{12}" ++ CRLF ++ bs "abc") 0%nat
           (bs "12") (bs "abc")).
  - discriminate.
  - repeat constructor.
  - reflexivity.
  - vm_compute. split; [reflexivity | discriminate].
Defined.

Lemma accepted_astring_not_string c :
  accepted astring_reject c = true ->
  Byte.eqb c x22 || Byte.eqb c "{"%byte = false.
Proof.
  intros H.
  destruct (Byte.eqb c x22) eqn:E1;
    [apply Byte.byte_dec_bl in E1; subst; discriminate|].
  destruct (Byte.eqb c "{"%byte) eqn:E2;
    [apply Byte.byte_dec_bl in E2; subst; discriminate|].
  reflexivity.
Qed.

Lemma bufcspn_at reject view cur x r :
  x <> [] -> Forall (fun c => accepted reject c = true) x ->
  match r with [] => True | c :: _ => accepted reject c = false end ->
  skipn cur view = x ++ r ->
  bufcspn reject view cur = (Val x, (cur + length x)%nat).
Proof.
  intros Hne Hx Hr H. unfold bufcspn.
  destruct x as [|c x]; [congruence|].
  rewrite (skipn_in_view view cur c (x ++ r) H), H.
  rewrite (span_app (accepted reject) (c :: x) r Hx Hr). reflexivity.
Qed.

Lemma parse_cspn_at reject view cur x r :
  x <> [] -> Forall (fun c => accepted reject c = true) x ->
  match r with [] => True | c :: _ => accepted reject c = false end ->
  skipn cur view = x ++ r ->
  parse_cspn reject view cur = (Val (PyUnicode x), (cur + length x)%nat).
Proof.
  intros Hne Hx Hr H. unfold parse_cspn.
  rewrite (bind_Val _ _ _ _ _ _ (bufcspn_at reject view cur x r Hne Hx Hr H)).
  destruct x; [congruence | reflexivity].
Qed.

Lemma parse_astring_atom_at view cur atom r :
  atom <> [] -> Forall (fun c => accepted astring_reject c = true) atom ->
  match r with [] => True | c :: _ => accepted astring_reject c = false end ->
  skipn cur view = atom ++ r ->
  parse_astring view cur = (Val (PyBytes atom), (cur + length atom)%nat).
Proof.
  intros Hne Ha Hr H. unfold parse_astring.
  destruct atom as [|c atom]; [congruence|].
  rewrite (bind_Val _ _ _ _ _ _ (PEEKC_at _ _ _ _ H)).
  rewrite (accepted_astring_not_string c) by (inversion Ha; assumption).
  rewrite (bind_Val _ _ _ _ _ _
             (bufcspn_at astring_reject view cur (c :: atom) r Hne Ha Hr H)).
  reflexivity.
Qed.

(** X13.  An astring that is an atom is returned as its bytes: any run
    of characters 0x01-0x7f other than the atom specials, among which
    the closing bracket does not count here.  A string in quotes or a
    literal is returned as by the string parser. *)
Theorem astring_atom_or_string :
  (forall atom,
     atom <> [] ->
     Forall (fun c => accepted astring_reject c = true) atom ->
     parse_imap_astring atom = Val (PyBytes atom))
  /\ accepted astring_reject "]"%byte = true
  /\ (forall x e,
        imap_string x e -> Z.of_nat (length e) <= PY_SSIZE_T_MAX ->
        parse_imap_astring e = Val (PyBytes x)).
Proof.
  split; [|split].
  - intros atom Hne Ha. apply entry_point_run; [exact Hne|].
    pose proof (parse_astring_atom_at atom 0%nat atom [] Hne Ha I) as P.
    rewrite app_nil_r in P. exact (P eq_refl).
  - reflexivity.
  - intros x e He Hmax. apply entry_point_run.
    + destruct He; discriminate.
    + unfold parse_astring.
      assert (Hc : exists c t, e = c :: t
                /\ Byte.eqb c x22 || Byte.eqb c "{"%byte = true).
      { destruct He; [exists x22, (quote_body x ++ [x22])
                     | exists "{"%byte, (ds ++ bs "}" ++ CRLF ++ x)];
          split; reflexivity. }
      destruct Hc as (c & t & Ec & Hc).
      assert (H0 : skipn 0%nat e = c :: t) by (rewrite Ec; reflexivity).
      rewrite (bind_Val _ _ _ _ _ _ (PEEKC_at _ _ _ _ H0)), Hc.
      apply (parse_string_at e 0%nat x e [] He Hmax).
      rewrite app_nil_r. reflexivity.
Qed.

Lemma tolower_idem c : tolower (tolower c) = tolower c.
Proof. destruct c; reflexivity. Qed.

Lemma bind_Val_inv {A B} (p : parser A) (f : A -> parser B)
    view cur b cur' :
  bind p f view cur = (Val b, cur') ->
  exists a c1, p view cur = (Val a, c1) /\ f a view c1 = (Val b, cur').
Proof.
  unfold bind. intros H.
  destruct (p view cur) as [[a|e|a e] c1]; [eauto|discriminate|].
  destruct (f a view c1) as [[b'|e'|b' e'] c2]; discriminate.
Qed.



(* ------------------------------------------------------------------ *)
(** ** The parts of a FETCH response *)

Lemma bytes_eqb_eq a : forall b, bytes_eqb a b = true -> a = b.
Proof.
  induction a as [|x a IH]; intros [|y b] H; simpl in H;
    try discriminate; [reflexivity|].
  apply andb_true_iff in H. destruct H as [H1 H2].
  apply Byte.byte_dec_bl in H1. subst. f_equal. exact (IH _ H2).
Qed.

(** [parse_string] hands back bytes, and no value with an error set. *)
Lemma parse_string_result view cur r cur' :
  parse_string view cur = (r, cur') ->
  match r with
  | Val o => exists b, o = PyBytes b
  | Err _ => True
  | ValErr _ _ => False
  end.
Proof.
  intros H.
  unfold parse_string, bind, GETC, EXPECTC, EXPECTS, _parse_number,
    fail, ret in H.
  repeat match goal with
         | H' : context [match ?x with _ => _ end] |- _ => destruct x eqn:?
         end;
    try discriminate; inversion H; subst; eauto; exact I.
Qed.

Lemma parse_string_Val view cur o cur' :
  parse_string view cur = (Val o, cur') -> exists b, o = PyBytes b.
Proof. intros H. exact (parse_string_result _ _ _ _ H). Qed.

Lemma nstring_nil_at view cur post :
  skipn cur view = bs "NIL" ++ post ->
  parse_nstring view cur = (Val Py_None, (cur + 3)%nat).
Proof.
  intros S0. unfold parse_nstring.
  assert (S1 : skipn cur view = "N"%byte :: bs "IL" ++ post) by exact S0.
  rewrite (bind_Val _ _ _ _ _ _ (PEEKC_at _ _ _ _ S1)).
  change (Byte.eqb "N" "N") with true. cbv iota.
  assert (Hne : bs "NIL" <> []) by discriminate.
  rewrite (bind_Val _ _ _ _ _ _
             (EXPECTS_at view cur (bs "NIL") post Hne S0)).
  reflexivity.
Qed.

(** X15.  An nstring is [None] exactly when the three bytes at the
    cursor are NIL, in capitals; the cursor then moves past them.  The
    bytes NIL in quotes or as a literal, and [nil] in small letters, are
    not [None]. *)
Theorem nstring_none_iff_nil view cur cur' :
  parse_nstring view cur = (Val Py_None, cur')
  <-> firstn 3 (skipn cur view) = bs "NIL" /\ cur' = (cur + 3)%nat.
Proof.
  unfold parse_nstring. split.
  - intros H. apply bind_Val_inv in H. destruct H as (c & c1 & P & H).
    unfold PEEKC in P. destruct (nth_error view cur); inversion P; subst.
    destruct (Byte.eqb c "N"%byte).
    + apply bind_Val_inv in H. destruct H as ([] & c2 & E & H).
      inversion H; subst. unfold EXPECTS in E.
      destruct (length view <? c1 + length (bs "NIL"))%nat; [discriminate|].
      destruct (bytes_eqb _ _) eqn:B; inversion E; subst.
      split; [exact (bytes_eqb_eq _ _ B) | reflexivity].
    + apply parse_string_Val in H. destruct H as (b & H). discriminate.
  - intros [H ->].
    destruct (skipn cur view) as [|c0 [|c1 [|c2 rest]]] eqn:S;
      try discriminate.
    simpl in H. inversion H; subst.
    rewrite (bind_Val _ _ _ _ _ _ (PEEKC_at _ _ _ _ S)).
    change (Byte.eqb "N" "N") with true. cbv iota.
    assert (Hne : bs "NIL" <> []) by discriminate.
    rewrite (bind_Val _ _ _ _ _ _
               (EXPECTS_at view cur (bs "NIL") rest Hne S)).
    reflexivity.
Qed.

Lemma parse_string_ascii_lower_Val view cur o cur' :
  parse_string_ascii_lower view cur = (Val o, cur') -> lower_str o.
Proof.
  intros H. unfold parse_string_ascii_lower in H.
  apply bind_Val_inv in H. destruct H as (bytes & c1 & P & H).
  apply parse_string_Val in P. destruct P as (b & ->).
  simpl in H. destruct (forallb _ _); inversion H; subst.
  exists (map tolower b). split; [reflexivity|].
  rewrite map_map. apply map_ext. intros c. apply tolower_idem.
Qed.

Lemma parse_string_ascii_Val view cur o cur' :
  parse_string_ascii view cur = (Val o, cur') -> is_str o.
Proof.
  intros H. unfold parse_string_ascii in H.
  apply bind_Val_inv in H. destruct H as (bytes & c1 & P & H).
  apply parse_string_Val in P. destruct P as (b & ->).
  simpl in H. destruct (forallb _ _); inversion H; subst.
  exists b. reflexivity.
Qed.

Lemma PyDict_SetItem_Forall (P : PyObject * PyObject -> Prop) d : forall k v,
  (forall k' v', P (k', v') -> P (k', v)) ->
  Forall P d -> P (k, v) -> Forall P (PyDict_SetItem d k v).
Proof.
  induction d as [|[k' v'] d IH]; intros k v Hv Hd Hk; simpl.
  - constructor; [exact Hk | constructor].
  - inversion Hd; subst.
    destruct (PyObject_eqb k k').
    + constructor; [apply (Hv k' v'); assumption | assumption].
    + constructor; [assumption | apply IH; assumption].
Qed.

Lemma body_fld_param_loop_Val fuel : forall params view cur r cur',
  Forall (fun kv => lower_str (fst kv) /\ is_str (snd kv)) params ->
  body_fld_param_loop fuel params view cur = (Val r, cur') ->
  Forall (fun kv => lower_str (fst kv) /\ is_str (snd kv)) r.
Proof.
  induction fuel as [|k IH]; intros params view cur r cur' Hp H;
    [discriminate|].
  cbn [body_fld_param_loop] in H.
  apply bind_Val_inv in H. destruct H as (key & c1 & K & H).
  apply bind_Val_inv in H. destruct H as ([] & c2 & _ & H).
  apply bind_Val_inv in H. destruct H as (value & c3 & V & H).
  cbv zeta in H.
  apply bind_Val_inv in H. destruct H as (c & c4 & _ & H).
  apply parse_string_ascii_lower_Val in K.
  apply parse_string_ascii_Val in V.
  assert (Hp' : Forall (fun kv => lower_str (fst kv) /\ is_str (snd kv))
                  (PyDict_SetItem params key value)).
  { apply PyDict_SetItem_Forall; simpl; auto.
    intros k' v' [Q _]. auto. }
  destruct (Byte.eqb c ")"%byte).
  - apply bind_Val_inv in H. destruct H as (_ & c5 & _ & H).
    inversion H; subst. exact Hp'.
  - apply bind_Val_inv in H. destruct H as ([] & c5 & _ & H).
    exact (IH _ _ _ _ _ Hp' H).
Qed.

(** X16.  The parameters of a body field come back as a dictionary
    whose keys are strings in small letters, whatever the case they
    were sent in, and whose values are strings; NIL gives the empty
    dictionary. *)
Theorem body_fld_param_keys_lower view cur :
  (forall o cur',
     parse_body_fld_param view cur = (Val o, cur') ->
     exists items,
       o = PyDict items /\
       Forall (fun kv => lower_str (fst kv) /\ is_str (snd kv)) items)
  /\ (forall post,
        skipn cur view = bs "NIL" ++ post ->
        parse_body_fld_param view cur = (Val (PyDict []), (cur + 3)%nat)).
Proof.
  split.
  - intros o cur' H. unfold parse_body_fld_param in H.
    apply bind_Val_inv in H. destruct H as (c & c1 & _ & H).
    destruct (negb (Byte.eqb c "("%byte)).
    + apply bind_Val_inv in H. destruct H as ([] & c2 & _ & H).
      inversion H; subst. exists []. split; [reflexivity | constructor].
    + apply bind_Val_inv in H. destruct H as (_ & c2 & _ & H).
      apply bind_Val_inv in H. destruct H as (params & c3 & L & H).
      inversion H; subst. exists params. split; [reflexivity|].
      exact (body_fld_param_loop_Val _ _ _ _ _ _ (Forall_nil _) L).
  - intros post H. unfold parse_body_fld_param.
    assert (S1 : skipn cur view = "N"%byte :: bs "IL" ++ post) by exact H.
    rewrite (bind_Val _ _ _ _ _ _ (PEEKC_at _ _ _ _ S1)).
    change (negb (Byte.eqb "N" "(")) with true. cbv iota.
    assert (Hne : bs "NIL" <> []) by discriminate.
    rewrite (bind_Val _ _ _ _ _ _
               (EXPECTS_at view cur (bs "NIL") post Hne H)).
    reflexivity.
Qed.

Lemma body_fld_param_keys_lower_witness :
  (exists items,
     PyDict [(PyUnicode (bs "charset"), PyUnicode (bs "UTF-8"))]
       = PyDict items /\
     Forall (fun kv => lower_str (fst kv) /\ is_str (snd kv)) items)
  /\ parse_body_fld_param (bs "x NIL " ++ quoted (bs "id")) 2%nat
     = (Val (PyDict []), 5%nat).
Proof.
  split.
  - apply (proj1 (body_fld_param_keys_lower
                    (bs "(" ++ quoted (bs "CharSet") ++ bs " "
                       ++ quoted (bs "UTF-8") ++ bs ")") 0%nat)
             _ 19%nat).
    reflexivity.
  - apply (proj2 (body_fld_param_keys_lower
                    (bs "x NIL " ++ quoted (bs "id")) 2%nat)
             (bs " " ++ quoted (bs "id"))).
    reflexivity.
Defined.

Lemma bufcspn_before reject view cur x c r :
  Forall (fun c => accepted reject c = true) x ->
  accepted reject c = false ->
  skipn cur view = x ++ c :: r ->
  bufcspn reject view cur = (Val x, (cur + length x)%nat).
Proof.
  intros Hx Hc H. unfold bufcspn.
  assert (V : (length view <=? cur)%nat = false).
  { destruct x as [|y x]; exact (skipn_in_view view cur _ _ H). }
  rewrite V, H, (span_app (accepted reject) x (c :: r) Hx Hc). reflexivity.
Qed.

(** X17.  A body section is added to the dictionary under the text
    between the brackets, which may be empty, as the pair of its content
    and its origin: the content is the string that follows, quoted or a
    literal, the origin is the number between angle brackets, or [None]
    when there is none. *)
Theorem bodysection_adds_entry dict view cur sec origin x e post :
  Forall (fun c => accepted section_spec_reject c = true) sec ->
  match origin with Some ds => number_digits ds | None => True end ->
  imap_string x e ->
  Z.of_nat (length view) <= PY_SSIZE_T_MAX ->
  skipn cur view
    = bs "[" ++ sec ++ bs "]" ++ origin_bytes origin ++ bs " " ++ e ++ post ->
  parse_bodysection dict view cur
  = (Val (PyDict_SetItem dict (PyUnicode sec)
            (PyTuple [PyBytes x; origin_value origin])),
     (cur + (1 + length sec + 1 + length (origin_bytes origin) + 1
             + length e))%nat).
Proof.
  intros Hsec Horigin He Hmax H. simpl app in H.
  unfold parse_bodysection.
  rewrite (bind_Val _ _ _ _ _ _ (EXPECTC_at _ _ _ _ H)).
  pose proof (skipn_advance1 _ _ _ _ H) as H1.
  rewrite (bind_Val _ _ _ _ _ _
             (bufcspn_before section_spec_reject view (S cur) sec "]"%byte _
                Hsec eq_refl H1)).
  pose proof (skipn_advance _ _ _ _ H1) as H2.
  rewrite (bind_Val _ _ _ _ _ _ (EXPECTC_at _ _ _ _ H2)).
  pose proof (skipn_advance1 _ _ _ _ H2) as H3.
  assert (Hstr : forall c0,
            skipn c0 view = " "%byte :: e ++ post ->
            (EXPECTC " "%byte ;;;
             content <- parse_nstring ;;
             ret (PyDict_SetItem dict (PyUnicode sec)
                    (PyTuple [content; origin_value origin]))) view c0
            = (Val (PyDict_SetItem dict (PyUnicode sec)
                      (PyTuple [PyBytes x; origin_value origin])),
               (S c0 + length e)%nat)).
  { intros c0 S0.
    rewrite (bind_Val _ _ _ _ _ _ (EXPECTC_at _ _ _ _ S0)).
    pose proof (skipn_advance1 _ _ _ _ S0) as S1.
    assert (N : parse_nstring view (S c0)
                = (Val (PyBytes x), (S c0 + length e)%nat)).
    { unfold parse_nstring.
      assert (Hc : exists c t, e = c :: t /\ Byte.eqb c "N"%byte = false).
      { destruct He; [exists x22, (quote_body x ++ [x22])
                     | exists "{"%byte, (ds ++ bs "}" ++ CRLF ++ x)];
          split; reflexivity. }
      destruct Hc as (c & t & Ec & Hc).
      assert (S1' : skipn (S c0) view = c :: t ++ post)
        by (rewrite S1, Ec; reflexivity).
      rewrite (bind_Val _ _ _ _ _ _ (PEEKC_at _ _ _ _ S1')), Hc.
      exact (parse_string_at view (S c0) x e post He Hmax S1). }
    rewrite (bind_Val _ _ _ _ _ _ N). reflexivity. }
  destruct origin as [ds|]; simpl origin_bytes in *.
  - destruct Horigin as (Hne & Hd & Hmx).
    simpl app in H3. rewrite <- app_assoc in H3. simpl app in H3.
    rewrite (bind_Val _ _ _ _ _ _ (PEEKC_at _ _ _ _ H3)).
    change (Byte.eqb "<" "<") with true. cbv iota.
    assert (O : (GETC ;;;
                 origin <- parse_number ;;
                 EXPECTC ">"%byte ;;; ret origin) view (S (S cur + length sec))
                = (Val (PyLong (decimal ds)),
                   S (S (S (S cur + length sec)) + length ds))).
    { rewrite (bind_Val _ _ _ _ _ _ (GETC_at _ _ _ _ H3)).
      pose proof (skipn_advance1 _ _ _ _ H3) as H4.
      assert (N : parse_number view (S (S (S cur + length sec)))
                  = (Val (PyLong (decimal ds)),
                     (S (S (S cur + length sec)) + length ds)%nat)).
      { unfold parse_number.
        pose proof (_parse_number_at view _ ds
                      (">"%byte :: " "%byte :: e ++ post)
                      Hne Hd eq_refl H4) as N.
        destruct (decimal ds <=? ULLONG_MAX) eqn:E; [|lia].
        rewrite (bind_Val _ _ _ _ _ _ N). reflexivity. }
      rewrite (bind_Val _ _ _ _ _ _ N).
      pose proof (skipn_advance _ _ _ _ H4) as H5.
      rewrite (bind_Val _ _ _ _ _ _ (EXPECTC_at _ _ _ _ H5)). reflexivity. }
    rewrite (bind_Val _ _ _ _ _ _ O).
    pose proof (skipn_advance1 _ _ _ _ H3) as H4.
    pose proof (skipn_advance _ _ _ _ H4) as H5.
    pose proof (skipn_advance1 _ _ _ _ H5) as H6.
    etransitivity; [exact (Hstr _ H6)|]. f_equal.
    simpl. rewrite !length_app. simpl. lia.
  - simpl app in H3.
    rewrite (bind_Val _ _ _ _ _ _ (PEEKC_at _ _ _ _ H3)).
    change (Byte.eqb " " "<") with false. cbv iota.
    etransitivity; [exact (Hstr _ H3)|]. f_equal. simpl. lia.
Qed.

Lemma bodysection_adds_entry_witness :
  parse_bodysection [] (bs "[]<0> {2}" ++ CRLF ++ bs "hi)") 0%nat
  = (Val [(PyUnicode [], PyTuple [PyBytes (bs "hi"); PyLong 0])], 13%nat).
Proof.
  apply (bodysection_adds_entry [] (bs "[]<0> {2}" ++ CRLF ++ bs "hi)") 0%nat
           [] (Some (bs "0")) (bs "hi") (literal (bs "2") (bs "hi"))
           (bs ")")).
  - constructor.
  - split; [discriminate|]. split; [repeat constructor|].
    vm_compute. discriminate.
  - apply imap_literal; [discriminate | repeat constructor | reflexivity].
  - vm_compute. discriminate.
  - reflexivity.
Defined.

(* ------------------------------------------------------------------ *)
(** ** Sequence sets and tagged responses *)

Lemma sequence_item_at {B} i view cur c rest (f : PyObject -> parser B) :
  seq_item_ok i ->
  skipn cur view = seq_item_bytes i ++ c :: rest ->
  isdigit c = false -> c <> ":"%byte ->
  (number1 <- _parse_number ;;
   c <- PEEKC ;;
   item <- (if Byte.eqb c ":"%byte then
              GETC ;;;
              number2 <- _parse_number ;;
              ret (PyTuple [PyLong number1; PyLong number2])
            else ret (PyLong number1)) ;;
   f item) view cur
  = f (seq_item_value i) view (cur + length (seq_item_bytes i))%nat.
Proof.
  intros Hok H Hc Hcolon.
  assert (Ec : Byte.eqb c ":"%byte = false).
  { destruct (Byte.eqb c ":"%byte) eqn:E; [|reflexivity].
    apply Byte.byte_dec_bl in E. contradiction. }
  destruct i as [ds|ds1 ds2]; simpl in *.
  - destruct Hok as (Hne & Hd & Hmax).
    pose proof (_parse_number_at view cur ds (c :: rest) Hne Hd Hc H) as N.
    destruct (decimal ds <=? ULLONG_MAX) eqn:E; [|lia].
    rewrite (bind_Val _ _ _ _ _ _ N).
    pose proof (skipn_advance _ _ _ _ H) as H1.
    rewrite (bind_Val _ _ _ _ _ _ (PEEKC_at _ _ _ _ H1)), Ec.
    reflexivity.
  - destruct Hok as ((Hne1 & Hd1 & Hmax1) & (Hne2 & Hd2 & Hmax2)).
    rewrite <- app_assoc in H. simpl app in H.
    pose proof (_parse_number_at view cur ds1 (":"%byte :: ds2 ++ c :: rest)
                  Hne1 Hd1 eq_refl H) as N1.
    destruct (decimal ds1 <=? ULLONG_MAX) eqn:E1; [|lia].
    rewrite (bind_Val _ _ _ _ _ _ N1).
    pose proof (skipn_advance _ _ _ _ H) as H1.
    rewrite (bind_Val _ _ _ _ _ _ (PEEKC_at _ _ _ _ H1)).
    change (Byte.eqb ":" ":") with true. cbv iota.
    pose proof (skipn_advance1 _ _ _ _ H1) as H2.
    pose proof (_parse_number_at view _ ds2 (c :: rest) Hne2 Hd2 Hc H2) as N2.
    destruct (decimal ds2 <=? ULLONG_MAX) eqn:E2; [|lia].
    assert (I : (GETC ;;;
                 number2 <- _parse_number ;;
                 ret (PyTuple [PyLong (decimal ds1); PyLong number2]))
                  view (cur + length ds1)%nat
                = (Val (PyTuple [PyLong (decimal ds1); PyLong (decimal ds2)]),
                   (S (cur + length ds1) + length ds2)%nat)).
    { rewrite (bind_Val _ _ _ _ _ _ (GETC_at _ _ _ _ H1)).
      rewrite (bind_Val _ _ _ _ _ _ N2). reflexivity. }
    rewrite (bind_Val _ _ _ _ _ _ I).
    f_equal. rewrite length_app. simpl. lia.
Qed.

Lemma sequence_set_loop_at items : forall fuel acc view cur c rest,
  items <> [] -> Forall seq_item_ok items ->
  (length items <= fuel)%nat ->
  skipn cur view = sequence_set_bytes items ++ c :: rest ->
  isdigit c = false -> c <> ":"%byte -> c <> ","%byte ->
  sequence_set_loop fuel acc view cur
  = (Val (acc ++ map seq_item_value items),
     (cur + length (sequence_set_bytes items))%nat).
Proof.
  induction items as [|i tl IH]; intros fuel acc view cur c rest
    Hne Hok Hfuel H Hc Hcolon Hcomma; [congruence|].
  destruct fuel as [|k]; [simpl in Hfuel; lia|].
  inversion Hok as [|? ? Hi Htl]; subst.
  cbn [sequence_set_loop].
  destruct tl as [|j tl'].
  - cbn [sequence_set_bytes] in *.
    rewrite (sequence_item_at i view cur c rest _ Hi H Hc Hcolon).
    pose proof (skipn_advance _ _ _ _ H) as H1.
    rewrite (bind_Val _ _ _ _ _ _ (PEEKC_at _ _ _ _ H1)).
    assert (Ec : Byte.eqb c ","%byte = false).
    { destruct (Byte.eqb c ","%byte) eqn:E; [|reflexivity].
      apply Byte.byte_dec_bl in E. contradiction. }
    rewrite Ec. reflexivity.
  - change (sequence_set_bytes (i :: j :: tl'))
      with (seq_item_bytes i ++ bs "," ++ sequence_set_bytes (j :: tl')) in *.
    rewrite <- !app_assoc in H. simpl app in H.
    assert (Hcm : ","%byte <> ":"%byte) by discriminate.
    rewrite (sequence_item_at i view cur ","%byte _ _ Hi H eq_refl Hcm).
    pose proof (skipn_advance _ _ _ _ H) as H1.
    rewrite (bind_Val _ _ _ _ _ _ (PEEKC_at _ _ _ _ H1)).
    change (Byte.eqb "," ",") with true. change (negb true) with false.
    cbv iota.
    rewrite (bind_Val _ _ _ _ _ _ (GETC_at _ _ _ _ H1)).
    pose proof (skipn_advance1 _ _ _ _ H1) as H2.
    assert (Hne' : j :: tl' <> []) by discriminate.
    assert (Hf' : (length (j :: tl') <= k)%nat) by (simpl in *; lia).
    rewrite (IH k _ view _ c rest Hne' Htl Hf' H2 Hc Hcolon Hcomma).
    f_equal.
    + rewrite <- app_assoc. reflexivity.
    + rewrite !length_app. simpl. lia.
Qed.

Lemma sequence_set_bytes_length items :
  Forall seq_item_ok items ->
  (length items <= length (sequence_set_bytes items))%nat.
Proof.
  induction items as [|i tl IH]; intros Hok; [simpl; lia|].
  inversion Hok as [|? ? Hi Htl]; subst. specialize (IH Htl).
  assert (Li : (1 <= length (seq_item_bytes i))%nat).
  { destruct i as [ds|ds1 ds2]; simpl in *.
    - destruct Hi as (Hne & _). destruct ds; [congruence | simpl; lia].
    - rewrite length_app. simpl. lia. }
  destruct tl as [|j tl']; [simpl; lia|].
  change (sequence_set_bytes (i :: j :: tl'))
    with (seq_item_bytes i ++ bs "," ++ sequence_set_bytes (j :: tl')).
  rewrite !length_app. simpl in *. lia.
Qed.

(** X18.  A sequence set is returned as the list of its elements in
    the order written, a number as an integer and a range as the pair
    of its two numbers; nothing is sorted, merged or dropped.  The set
    ends at the first byte that is no digit, colon or comma. *)
Theorem sequence_set_round_trip items view cur c rest :
  items <> [] -> Forall seq_item_ok items ->
  skipn cur view = sequence_set_bytes items ++ c :: rest ->
  isdigit c = false -> c <> ":"%byte -> c <> ","%byte ->
  parse_sequence_set view cur
  = (Val (PyList (map seq_item_value items)),
     (cur + length (sequence_set_bytes items))%nat).
Proof.
  intros Hne Hok H Hc Hcolon Hcomma. unfold parse_sequence_set.
  assert (Hfuel : (length items <= S (length view))%nat).
  { pose proof (sequence_set_bytes_length items Hok) as L1.
    assert (L2 : length (skipn cur view)
                 = length (sequence_set_bytes items ++ c :: rest))
      by congruence.
    rewrite length_skipn, length_app in L2. lia. }
  rewrite (bind_Val _ _ _ _ _ _
             (sequence_set_loop_at items _ [] view cur c rest
                Hne Hok Hfuel H Hc Hcolon Hcomma)).
  reflexivity.
Qed.

Lemma sequence_set_round_trip_witness :
  parse_sequence_set (bs "5,2:4,5,007 ") 0%nat
  = (Val (PyList [PyLong 5; PyTuple [PyLong 2; PyLong 4]; PyLong 5;
                  PyLong 7]), 11%nat).
Proof.
  apply (sequence_set_round_trip
           [seq_number (bs "5"); seq_range (bs "2") (bs "4");
            seq_number (bs "5"); seq_number (bs "007")]
           (bs "5,2:4,5,007 ") 0%nat " "%byte []).
  - discriminate.
  - repeat constructor; try discriminate; vm_compute; discriminate.
  - reflexivity.
  - reflexivity.
  - discriminate.
  - discriminate.
Defined.

Lemma accepted_tag_first c :
  accepted tag_reject c = true ->
  Byte.eqb c "*"%byte = false /\ Byte.eqb c "+"%byte = false.
Proof.
  intros H. split.
  - destruct (Byte.eqb c "*"%byte) eqn:E; [|reflexivity].
    apply Byte.byte_dec_bl in E; subst; discriminate.
  - destruct (Byte.eqb c "+"%byte) eqn:E; [|reflexivity].
    apply Byte.byte_dec_bl in E; subst; discriminate.
Qed.

(** X19.  A tagged response made of a tag, one of OK, NO and BAD in
    any case, and a text is returned with its three parts: the tag and
    the text as they are, the status as its token, and no response
    code.  The tag is one or more tag characters; the text is one or
    more bytes from 0x01 to 0x7f, none of them CR or LF, and starts with
    no bracket. *)
Theorem tagged_response_round_trip (pm : parser PyObject) tag kw t text :
  tag <> [] -> Forall (fun c => accepted tag_reject c = true) tag ->
  Forall (fun c => token_char c = true) kw ->
  imap4_token kw = Some t -> In t [IMAP4_OK; IMAP4_NO; IMAP4_BAD] ->
  text <> [] -> Forall (fun c => accepted text_reject c = true) text ->
  hd x00 text <> "["%byte ->
  parse_response_line pm (tag ++ bs " " ++ kw ++ bs " " ++ text ++ CRLF)
  = Val (PyStructSequence TaggedResponseType
           [PyUnicode tag; PyToken (Some t);
            PyStructSequence ResponseTextType
              [PyUnicode text; Py_None; Py_None]]).
Proof.
  intros Htne Htag Hkw Htok Hin Hxne Htext Hhd.
  set (view := tag ++ bs " " ++ kw ++ bs " " ++ text ++ CRLF).
  assert (H0 : skipn 0 view = tag ++ " "%byte :: kw ++ " "%byte :: text ++ CRLF)
    by reflexivity.
  assert (Hkne : kw <> []) by (intros ->; discriminate).
  apply entry_point_run.
  { destruct tag; [congruence | discriminate]. }
  unfold parse_response.
  assert (Hfirst : exists c0 r0,
            skipn 0 view = c0 :: r0 /\ accepted tag_reject c0 = true).
  { destruct tag as [|c0 tag']; [congruence|].
    exists c0, (tag' ++ " "%byte :: kw ++ " "%byte :: text ++ CRLF).
    split; [reflexivity | inversion Htag; assumption]. }
  destruct Hfirst as (c0 & r0 & Hc0 & Ha0).
  rewrite (bind_Val _ _ _ _ _ _ (PEEKC_at _ _ _ _ Hc0)).
  destruct (accepted_tag_first c0 Ha0) as [-> ->].
  unfold parse_response_tagged.
  rewrite (bind_Val _ _ _ _ _ _
             (parse_cspn_at tag_reject view 0 tag
                (" "%byte :: kw ++ " "%byte :: text ++ CRLF)
                Htne Htag eq_refl H0)).
  pose proof (skipn_advance _ _ _ _ H0) as H1.
  rewrite (bind_Val _ _ _ _ _ _ (EXPECTC_at _ _ _ _ H1)).
  pose proof (skipn_advance1 _ _ _ _ H1) as H2.
  rewrite (bind_Val _ _ _ _ _ _
             (parse_token_at view _ kw (" "%byte :: text ++ CRLF) t
                Hkne Hkw eq_refl Htok H2)).
  pose proof (skipn_advance _ _ _ _ H2) as H3.
  pose proof (skipn_advance1 _ _ _ _ H3) as H4.
  assert (T : parse_resp_text view (S (S (0 + length tag) + length kw))
              = (Val (PyStructSequence ResponseTextType
                        [PyUnicode text; Py_None; Py_None]),
                 (S (S (0 + length tag) + length kw) + length text)%nat)).
  { unfold parse_resp_text.
    assert (Hx0 : exists x0 r0,
              skipn (S (S (0 + length tag) + length kw)) view = x0 :: r0
              /\ Byte.eqb x0 "["%byte = false).
    { destruct text as [|x0 text']; [congruence|].
      exists x0, (text' ++ CRLF). split; [exact H4|].
      destruct (Byte.eqb x0 "["%byte) eqn:E; [|reflexivity].
      apply Byte.byte_dec_bl in E. simpl in Hhd. contradiction. }
    destruct Hx0 as (x0 & r1 & Hx0 & Eb).
    rewrite (bind_Val _ _ _ _ _ _ (PEEKC_at _ _ _ _ Hx0)), Eb.
    rewrite (bind_Val _ _ _ _ _ _
               (parse_cspn_at text_reject view _ text CRLF
                  Hxne Htext eq_refl H4)).
    reflexivity. }
  pose proof (skipn_advance _ _ _ _ H4) as H5.
  assert (Hcr : CRLF <> []) by discriminate.
  assert (H5' : skipn (S (S (0 + length tag) + length kw) + length text) view
                = CRLF ++ []) by (rewrite H5; reflexivity).
  assert (Tail : (EXPECTC " "%byte ;;;
                  type <- Token_FromLong false (Some t) ;;
                  text0 <- parse_resp_text ;;
                  EXPECTS CRLF ;;;
                  ret (PyStructSequence TaggedResponseType
                         [PyUnicode tag; type; text0]))
                   view (S (0 + length tag) + length kw)%nat
                 = (Val (PyStructSequence TaggedResponseType
                           [PyUnicode tag; PyToken (Some t);
                            PyStructSequence ResponseTextType
                              [PyUnicode text; Py_None; Py_None]]),
                    length view)).
  { rewrite (bind_Val _ _ _ _ _ _ (EXPECTC_at _ _ _ _ H3)).
    rewrite Token_FromLong_clear.
    rewrite (bind_Val _ _ _ _ _ _ T).
    rewrite (bind_Val _ _ _ _ _ _ (EXPECTS_at view _ CRLF [] Hcr H5')).
    unfold ret. f_equal.
    unfold view. rewrite !length_app. simpl. lia. }
  destruct Hin as [<-|[<-|[<-|[]]]]; exact Tail.
Qed.

Lemma tagged_response_round_trip_witness :
  parse_response_line no_msg_att (bs "a1 oK done" ++ CRLF)
  = Val (PyStructSequence TaggedResponseType
           [PyUnicode (bs "a1"); PyToken (Some IMAP4_OK);
            PyStructSequence ResponseTextType
              [PyUnicode (bs "done"); Py_None; Py_None]]).
Proof.
  apply (tagged_response_round_trip no_msg_att (bs "a1") (bs "oK")
           IMAP4_OK (bs "done")).
  - discriminate.
  - repeat constructor.
  - repeat constructor.
  - reflexivity.
  - left. reflexivity.
  - discriminate.
  - repeat constructor.
  - discriminate.
Defined.

(* ------------------------------------------------------------------ *)
(** ** The numbers of a SEARCH response *)







(* ------------------------------------------------------------------ *)
(** ** Body extensions *)

Lemma ext_oks_Forall others :
  fold_right (fun o P => ext_ok o /\ P) True others -> Forall ext_ok others.
Proof.
  induction others as [|o os IH]; simpl; intros H; constructor; tauto.
Qed.

Lemma ext_heights_Forall k first others :
  (fold_right (fun o m => Nat.max (ext_height o) m) (ext_height first) others
   <= k)%nat ->
  (ext_height first <= k)%nat
  /\ Forall (fun o => (ext_height o <= k)%nat) others.
Proof.
  induction others as [|o os IH]; simpl; intros H.
  - split; [lia | constructor].
  - destruct IH as [H1 H2]; [lia|].
    split; [assumption | constructor; [lia | assumption]].
Qed.

Lemma ext_others_length others :
  (length others
   <= length (flat_map (fun o => bs " " ++ ext_bytes o) others))%nat.
Proof.
  induction others as [|o os IH]; [simpl; lia|].
  cbn [flat_map length]. rewrite !length_app.
  change (length (bs " ")) with 1%nat. lia.
Qed.

Lemma ext_height_le_bytes : forall n t,
  (ext_height t <= n)%nat -> ext_ok t ->
  (ext_height t <= length (ext_bytes t))%nat.
Proof.
  induction n as [|n IH]; intros t Hn Hok.
  - destruct t; simpl in Hn; lia.
  - destruct t as [ds| |x e|first others];
      cbn [ext_height ext_bytes ext_ok] in *.
    + destruct Hok as (Hne & _). destruct ds; [congruence | simpl; lia].
    + simpl. lia.
    + destruct Hok as (He & _). destruct He; simpl; lia.
    + destruct Hok as (Hf & Hos). apply ext_oks_Forall in Hos.
      apply le_S_n in Hn. apply ext_heights_Forall in Hn.
      destruct Hn as (Hhf & Hhos).
      assert (Hall : Forall (fun o => (ext_height o
                                       <= length (ext_bytes o))%nat) others).
      { apply Forall_forall. intros o Hin. apply IH.
        - exact (proj1 (Forall_forall _ _) Hhos o Hin).
        - exact (proj1 (Forall_forall _ _) Hos o Hin). }
      pose proof (IH first Hhf Hf) as Hfirst.
      rewrite !length_app. change (length (bs "(")) with 1%nat.
      change (length (bs ")")) with 1%nat.
      assert (G : (fold_right (fun o m => Nat.max (ext_height o) m)
                     (ext_height first) others
                   <= length (ext_bytes first)
                      + length (flat_map (fun o => bs " " ++ ext_bytes o)
                                  others))%nat).
      { clear - Hall Hfirst.
        induction Hall as [|o os Ho _ IHos]; cbn [fold_right flat_map].
        - simpl. lia.
        - rewrite !length_app. change (length (bs " ")) with 1%nat. lia. }
      lia.
Qed.

Lemma ascii_forallb x :
  all_ascii x -> forallb (fun c => code c <=? 127) x = true.
Proof.
  intros H. apply forallb_forall. intros c Hin.
  apply Z.leb_le. exact (proj1 (Forall_forall _ _) H c Hin).
Qed.

Lemma imap_string_first x e :
  imap_string x e ->
  exists c r, e = c :: r /\ Byte.eqb c "("%byte = false
    /\ Byte.eqb c "N"%byte = false
    /\ (48 <=? code c) && (code c <=? 57) = false.
Proof.
  intros He.
  destruct He; [exists x22, (quote_body x ++ [x22])
               | exists "{"%byte, (ds ++ bs "}" ++ CRLF ++ x)];
    repeat split; reflexivity.
Qed.

Lemma parse_nstring_ascii_string_at view cur x e post :
  imap_string x e -> all_ascii x ->
  Z.of_nat (length view) <= PY_SSIZE_T_MAX ->
  skipn cur view = e ++ post ->
  parse_nstring_ascii view cur = (Val (PyUnicode x), (cur + length e)%nat).
Proof.
  intros He Ha Hmax H.
  destruct (imap_string_first x e He) as (c & r & Ec & _ & EN & _).
  assert (H' : skipn cur view = c :: r ++ post) by (rewrite H, Ec; reflexivity).
  assert (N : parse_nstring view cur
              = (Val (PyBytes x), (cur + length e)%nat)).
  { unfold parse_nstring.
    rewrite (bind_Val _ _ _ _ _ _ (PEEKC_at _ _ _ _ H')), EN.
    exact (parse_string_at view cur x e post He Hmax H). }
  unfold parse_nstring_ascii.
  rewrite (bind_Val _ _ _ _ _ _ N). unfold decode_ascii.
  rewrite (ascii_forallb x Ha). reflexivity.
Qed.

Lemma parse_nstring_ascii_nil_at view cur post :
  skipn cur view = bs "NIL" ++ post ->
  parse_nstring_ascii view cur = (Val Py_None, (cur + 3)%nat).
Proof.
  intros H.
  assert (N : parse_nstring view cur = (Val Py_None, (cur + 3)%nat)).
  { exact (nstring_nil_at view cur post H). }
  unfold parse_nstring_ascii. rewrite (bind_Val _ _ _ _ _ _ N). reflexivity.
Qed.

Lemma body_extension_loop_at (item : parser PyObject) k :
  (forall t view cur post,
     (ext_height t <= k)%nat -> ext_ok t ->
     Z.of_nat (length view) <= PY_SSIZE_T_MAX ->
     skipn cur view = ext_bytes t ++ post ->
     match post with [] => True | c :: _ => isdigit c = false end ->
     item view cur = (Val (ext_value t), (cur + length (ext_bytes t))%nat)) ->
  forall others first fuel acc view cur post,
    (ext_height first <= k)%nat ->
    Forall (fun o => (ext_height o <= k)%nat) others ->
    ext_ok first -> Forall ext_ok others ->
    (length others < fuel)%nat ->
    Z.of_nat (length view) <= PY_SSIZE_T_MAX ->
    skipn cur view
      = ext_bytes first
          ++ flat_map (fun o => bs " " ++ ext_bytes o) others
          ++ bs ")" ++ post ->
    body_extension_loop item fuel acc view cur
    = (Val (acc ++ ext_value first :: map ext_value others),
       (cur + length (ext_bytes first
                        ++ flat_map (fun o => bs " " ++ ext_bytes o) others
                        ++ bs ")"))%nat).
Proof.
  intros Hitem.
  induction others as [|o os IH];
    intros first fuel acc view cur post Hf Hos Hokf Hokos Hfuel Hmax H;
    (destruct fuel as [|f]; [simpl in Hfuel; lia|]);
    cbn [body_extension_loop].
  - simpl flat_map in *. simpl app in H.
    rewrite (bind_Val _ _ _ _ _ _
               (Hitem first view cur (")"%byte :: post) Hf Hokf Hmax H
                  eq_refl)).
    pose proof (skipn_advance _ _ _ _ H) as H1.
    rewrite (bind_Val _ _ _ _ _ _ (PEEKC_at _ _ _ _ H1)).
    change (Byte.eqb ")" ")") with true. cbv iota.
    rewrite (bind_Val _ _ _ _ _ _ (GETC_at _ _ _ _ H1)).
    unfold ret. f_equal. rewrite length_app. simpl. lia.
  - cbn [flat_map] in *. rewrite <- !app_assoc in H.
    inversion Hos as [|? ? Ho Hos']; subst.
    inversion Hokos as [|? ? Hoko Hokos']; subst.
    rewrite (bind_Val _ _ _ _ _ _
               (Hitem first view cur _ Hf Hokf Hmax H eq_refl)).
    pose proof (skipn_advance _ _ _ _ H) as H1.
    change (bs " " ++ ext_bytes o
              ++ flat_map (fun o0 => bs " " ++ ext_bytes o0) os
              ++ bs ")" ++ post)
      with (" "%byte :: ext_bytes o
              ++ flat_map (fun o0 => bs " " ++ ext_bytes o0) os
              ++ bs ")" ++ post) in H1.
    rewrite (bind_Val _ _ _ _ _ _ (PEEKC_at _ _ _ _ H1)).
    change (Byte.eqb " " ")") with false. cbv iota.
    rewrite (bind_Val _ _ _ _ _ _ (EXPECTC_at _ _ _ _ H1)).
    pose proof (skipn_advance1 _ _ _ _ H1) as H2.
    assert (Hfuel' : (length os < f)%nat) by (simpl in Hfuel; lia).
    rewrite (IH o f _ view _ post Ho Hos' Hoko Hokos' Hfuel' Hmax H2).
    f_equal.
    + rewrite <- app_assoc. reflexivity.
    + rewrite !length_app. change (length (bs " ")) with 1%nat. lia.
Qed.

Lemma body_extension_at : forall d t view cur post,
  (ext_height t <= d)%nat -> ext_ok t ->
  Z.of_nat (length view) <= PY_SSIZE_T_MAX ->
  skipn cur view = ext_bytes t ++ post ->
  match post with [] => True | c :: _ => isdigit c = false end ->
  body_extension d view cur
  = (Val (ext_value t), (cur + length (ext_bytes t))%nat).
Proof.
  induction d as [|k IHk]; intros t view cur post Hh Hok Hmax H Hpost.
  - destruct t; simpl in Hh; lia.
  - cbn [body_extension].
    destruct t as [ds| |x e|first others]; cbn [ext_bytes ext_value] in *.
    + destruct Hok as (Hne & Hd & Hmx).
      assert (Hc : exists c r, skipn cur view = c :: r /\ isdigit c = true).
      { destruct ds as [|c ds']; [congruence|].
        exists c, (ds' ++ post). split; [exact H|].
        inversion Hd; assumption. }
      destruct Hc as (c & r & Hc & Dc).
      rewrite (bind_Val _ _ _ _ _ _ (PEEKC_at _ _ _ _ Hc)).
      assert (Ep : Byte.eqb c "("%byte = false).
      { destruct (Byte.eqb c "("%byte) eqn:E; [|reflexivity].
        apply Byte.byte_dec_bl in E. subst. discriminate. }
      rewrite Ep, (digit_code c Dc).
      unfold parse_number.
      pose proof (_parse_number_at view cur ds post Hne Hd Hpost H) as N.
      destruct (decimal ds <=? ULLONG_MAX) eqn:E; [|lia].
      rewrite (bind_Val _ _ _ _ _ _ N). reflexivity.
    + assert (Hc : skipn cur view = "N"%byte :: bs "IL" ++ post) by exact H.
      rewrite (bind_Val _ _ _ _ _ _ (PEEKC_at _ _ _ _ Hc)).
      change (Byte.eqb "N" "(") with false.
      change ((48 <=? code "N") && (code "N" <=? 57)) with false.
      cbv iota. exact (parse_nstring_ascii_nil_at view cur post H).
    + destruct Hok as (He & Ha).
      destruct (imap_string_first x e He) as (c & r & Ec & Ep & _ & Ed).
      assert (Hc : skipn cur view = c :: r ++ post)
        by (rewrite H, Ec; reflexivity).
      rewrite (bind_Val _ _ _ _ _ _ (PEEKC_at _ _ _ _ Hc)), Ep, Ed.
      exact (parse_nstring_ascii_string_at view cur x e post He Ha Hmax H).
    + destruct Hok as (Hokf & Hokos). apply ext_oks_Forall in Hokos.
      simpl in Hh. apply le_S_n in Hh. apply ext_heights_Forall in Hh.
      destruct Hh as (Hhf & Hhos).
      change (skipn cur view
              = "("%byte
                  :: (ext_bytes first
                        ++ flat_map (fun o => bs " " ++ ext_bytes o) others
                        ++ bs ")") ++ post) in H.
      rewrite <- !app_assoc in H.
      rewrite (bind_Val _ _ _ _ _ _ (PEEKC_at _ _ _ _ H)).
      change (Byte.eqb "(" "(") with true. cbv iota.
      rewrite (bind_Val _ _ _ _ _ _ (GETC_at _ _ _ _ H)).
      pose proof (skipn_advance1 _ _ _ _ H) as H1. cbv beta.
      assert (Hfuel : (length others < S (length view))%nat).
      { pose proof (ext_others_length others) as L1.
        assert (L2 : length (skipn (S cur) view)
                     = length (ext_bytes first
                                 ++ flat_map (fun o => bs " " ++ ext_bytes o)
                                      others ++ bs ")" ++ post))
          by congruence.
        rewrite length_skipn, !length_app in L2. lia. }
      rewrite (bind_Val _ _ _ _ _ _
                 (body_extension_loop_at (body_extension k) k IHk others
                    first (S (length view)) [] view (S cur) post
                    Hhf Hhos Hokf Hokos Hfuel Hmax H1)).
      unfold ret. f_equal. rewrite !length_app.
      change (length (bs "(")) with 1%nat. lia.
Qed.

(** X21.  A body extension is returned with its structure: a number as
    an integer, NIL as [None], a string as text, and a parenthesised
    list as the list of its items in order, lists inside lists to any
    depth the view has room for. *)
Theorem body_extension_round_trip t view cur post :
  ext_ok t ->
  Z.of_nat (length view) <= PY_SSIZE_T_MAX ->
  skipn cur view = ext_bytes t ++ post ->
  match post with [] => True | c :: _ => isdigit c = false end ->
  parse_body_extension view cur
  = (Val (ext_value t), (cur + length (ext_bytes t))%nat).
Proof.
  intros Hok Hmax H Hpost. unfold parse_body_extension.
  apply (body_extension_at (S (length view)) t view cur post);
    try assumption.
  pose proof (ext_height_le_bytes _ t (Nat.le_refl _) Hok) as L1.
  assert (L2 : length (skipn cur view) = length (ext_bytes t ++ post))
    by congruence.
  rewrite length_skipn, length_app in L2. lia.
Qed.

Lemma body_extension_round_trip_witness :
  parse_body_extension
    (bs "(12 NIL (" ++ quoted (bs "a b") ++ bs " (7)))") 0%nat
  = (Val (PyList [PyLong 12; Py_None;
                  PyList [PyUnicode (bs "a b"); PyList [PyLong 7]]]),
     20%nat).
Proof.
  apply (body_extension_round_trip
           (ext_list (ext_number (bs "12"))
              [ext_nil;
               ext_list (ext_string (bs "a b") (quoted (bs "a b")))
                 [ext_list (ext_number (bs "7")) []]])
           (bs "(12 NIL (" ++ quoted (bs "a b") ++ bs " (7)))") 0%nat []).
  - simpl. repeat split; try discriminate; try (repeat constructor);
      try (vm_compute; discriminate).
  - vm_compute. discriminate.
  - reflexivity.
  - exact I.
Defined.

(* ------------------------------------------------------------------ *)
(** ** Response lines *)

Lemma EXPECTS_Val s view cur cur' :
  EXPECTS s view cur = (Val tt, cur') ->
  firstn (length s) (skipn cur view) = s /\ cur' = (cur + length s)%nat
  /\ (cur + length s <= length view)%nat.
Proof.
  unfold EXPECTS. intros H.
  destruct (Nat.ltb_spec (length view) (cur + length s)); [discriminate|].
  destruct (bytes_eqb _ s) eqn:B; inversion H; subst.
  split; [exact (bytes_eqb_eq _ _ B) | split; [reflexivity | assumption]].
Qed.

(** A production that ends with [EXPECTS CRLF] and stops at the end of
    the view has a view that ends in CR LF. *)
Lemma ends_with_crlf {A} (g : parser A) view cur v :
  (EXPECTS CRLF ;;; g) view cur = (Val v, length view) ->
  (forall a c c', g view c = (Val a, c') -> c' = c) ->
  exists body, view = body ++ CRLF.
Proof.
  intros H Hg. apply bind_Val_inv in H. destruct H as ([] & c1 & E & G).
  apply EXPECTS_Val in E. destruct E as (E1 & E2 & E3).
  apply Hg in G. subst c1. simpl length in *.
  exists (firstn cur view).
  rewrite <- (firstn_skipn cur view) at 1. f_equal.
  rewrite <- E1. symmetry. apply firstn_all2.
  rewrite length_skipn. lia.
Qed.

Lemma ret_cursor {A} (a : A) view c b c' :
  ret a view c = (Val b, c') -> c' = c.
Proof. intros H. inversion H. reflexivity. Qed.

(** X22.  Only a complete line parses: a view that
    [parse_response_line] accepts ends in CR LF, whichever of the three
    kinds of response it is and whatever the FETCH attributes are
    parsed by. *)
Theorem response_line_ends_in_crlf (pm : parser PyObject) view v :
  parse_response_line pm view = Val v ->
  exists body, view = body ++ CRLF.
Proof.
  intros H. apply entry_point_Val in H. unfold parse_response in H.
  apply bind_Val_inv in H. destruct H as (c & c0 & _ & H).
  destruct (Byte.eqb c "*"%byte); [|destruct (Byte.eqb c "+"%byte)].
  - unfold parse_response_data in H.
    apply bind_Val_inv in H. destruct H as ([] & c1 & _ & H).
    apply bind_Val_inv in H. destruct H as (c' & c2 & _ & H).
    apply bind_Val_inv in H. destruct H as (td & c3 & _ & H).
    apply (ends_with_crlf _ _ _ _ H). intros a k k'. apply ret_cursor.
  - unfold parse_continue_req in H.
    apply bind_Val_inv in H. destruct H as ([] & c1 & _ & H).
    apply bind_Val_inv in H. destruct H as (text & c2 & _ & H).
    apply (ends_with_crlf _ _ _ _ H). intros a k k'. apply ret_cursor.
  - unfold parse_response_tagged in H.
    apply bind_Val_inv in H. destruct H as (tag & c1 & _ & H).
    apply bind_Val_inv in H. destruct H as ([] & c2 & _ & H).
    apply bind_Val_inv in H. destruct H as (token & c3 & _ & H).
    destruct token as [t|]; [|discriminate].
    destruct t; try discriminate;
      (apply bind_Val_inv in H; destruct H as ([] & c4 & _ & H);
       apply bind_Val_inv in H; destruct H as (type & c5 & _ & H);
       apply bind_Val_inv in H; destruct H as (text & c6 & _ & H);
       apply (ends_with_crlf _ _ _ _ H); intros a k k'; apply ret_cursor).
Qed.

Lemma response_line_ends_in_crlf_witness :
  exists body, bs "+ go on" ++ CRLF = body ++ CRLF.
Proof.
  apply (response_line_ends_in_crlf no_msg_att (bs "+ go on" ++ CRLF)
           (PyStructSequence ContinueReqType
              [PyStructSequence ResponseTextType
                 [PyUnicode (bs "go on"); Py_None; Py_None]])).
  reflexivity.
Defined.

(** X23.  An untagged response made of a message number and FETCH
    hands the rest of the line to the parser of the FETCH attributes,
    at the byte after the space that follows FETCH, and returns what
    that parser returns next to the message number. *)
Theorem fetch_response_wraps_attributes (pm : parser PyObject)
    ds kw att a :
  number_digits ds ->
  Forall (fun c => token_char c = true) kw ->
  imap4_token kw = Some IMAP4_FETCH ->
  let pre := bs "* " ++ ds ++ bs " " ++ kw ++ bs " " in
  let view := pre ++ att ++ CRLF in
  pm view (length pre) = (Val a, (length pre + length att)%nat) ->
  parse_response_line pm view
  = Val (PyStructSequence UntaggedResponseType
           [PyToken (Some IMAP4_FETCH);
            PyStructSequence FetchType [PyLong (decimal ds); a]]).
Proof.
  intros (Hne & Hd & Hmx) Hkw Htok pre view Hpm.
  assert (Hkne : kw <> []) by (intros ->; discriminate).
  assert (H0 : skipn 0 view
               = bs "* " ++ ds ++ " "%byte :: kw ++ " "%byte :: att ++ CRLF).
  { unfold view, pre. rewrite <- !app_assoc. reflexivity. }
  assert (Lpre : length pre = (2 + length ds + 1 + length kw + 1)%nat).
  { unfold pre. rewrite !length_app. simpl. lia. }
  apply entry_point_run; [discriminate|].
  unfold parse_response.
  assert (H0' : skipn 0 view
                = "*"%byte :: " "%byte
                    :: ds ++ " "%byte :: kw ++ " "%byte :: att ++ CRLF)
    by exact H0.
  rewrite (bind_Val _ _ _ _ _ _ (PEEKC_at _ _ _ _ H0')).
  change (Byte.eqb "*" "*") with true. cbv iota.
  unfold parse_response_data.
  assert (Hs : bs "* " <> []) by discriminate.
  rewrite (bind_Val _ _ _ _ _ _ (EXPECTS_at view 0 (bs "* ") _ Hs H0)).
  pose proof (skipn_advance _ _ _ _ H0) as H1.
  change (0 + length (bs "* "))%nat with 2%nat in *.
  assert (Hc : exists c r, skipn 2 view = c :: r /\ isdigit c = true).
  { destruct ds as [|c ds']; [congruence|].
    exists c, (ds' ++ " "%byte :: kw ++ " "%byte :: att ++ CRLF).
    split; [exact H1 | inversion Hd; assumption]. }
  destruct Hc as (c & r & Hc & Dc).
  rewrite (bind_Val _ _ _ _ _ _ (PEEKC_at _ _ _ _ Hc)), (digit_code c Dc).
  assert (M : parse_message_data pm view 2%nat
              = (Val (PyToken (Some IMAP4_FETCH),
                      PyStructSequence FetchType [PyLong (decimal ds); a]),
                 (length pre + length att)%nat)).
  { unfold parse_message_data.
    pose proof (_parse_number_at view 2%nat ds
                  (" "%byte :: kw ++ " "%byte :: att ++ CRLF)
                  Hne Hd eq_refl H1) as N.
    destruct (decimal ds <=? ULLONG_MAX) eqn:E; [|lia].
    rewrite (bind_Val _ _ _ _ _ _ N).
    pose proof (skipn_advance _ _ _ _ H1) as H2.
    rewrite (bind_Val _ _ _ _ _ _ (EXPECTC_at _ _ _ _ H2)).
    pose proof (skipn_advance1 _ _ _ _ H2) as H3.
    rewrite (bind_Val _ _ _ _ _ _
               (parse_token_at view _ kw (" "%byte :: att ++ CRLF)
                  IMAP4_FETCH Hkne Hkw eq_refl Htok H3)).
    rewrite Token_FromLong_clear.
    pose proof (skipn_advance _ _ _ _ H3) as H4.
    rewrite (bind_Val _ _ _ _ _ _ (EXPECTC_at _ _ _ _ H4)).
    replace (S (S (2 + length ds) + length kw)) with (length pre) by lia.
    rewrite (bind_Val _ _ _ _ _ _ Hpm). reflexivity. }
  rewrite (bind_Val _ _ _ _ _ _ M).
  assert (H5 : skipn (length pre + length att) view = CRLF ++ []).
  { unfold view. rewrite app_assoc, skipn_app, length_app, Nat.sub_diag.
    rewrite skipn_all2 by (rewrite length_app; lia). reflexivity. }
  assert (Hcr : CRLF <> []) by discriminate.
  rewrite (bind_Val _ _ _ _ _ _ (EXPECTS_at view _ CRLF [] Hcr H5)).
  unfold ret. f_equal.
  unfold view. rewrite !length_app. simpl. lia.
Qed.

Lemma fetch_response_wraps_attributes_witness :
  parse_response_line (EXPECTS (bs "(UID 9)") ;;; ret (PyLong 9))
    (bs "* 12 FETCH (UID 9)" ++ CRLF)
  = Val (PyStructSequence UntaggedResponseType
           [PyToken (Some IMAP4_FETCH);
            PyStructSequence FetchType [PyLong 12; PyLong 9]]).
Proof.
  apply (fetch_response_wraps_attributes
           (EXPECTS (bs "(UID 9)") ;;; ret (PyLong 9))
           (bs "12") (bs "FETCH") (bs "(UID 9)") (PyLong 9)).
  - split; [discriminate|]. split; [repeat constructor|].
    vm_compute. discriminate.
  - repeat constructor.
  - reflexivity.
  - reflexivity.
Defined.

(** X24.  A response code that is none of the known keywords is not
    rejected: the text between the brackets is kept, the atom as the
    code and what follows its space, up to the closing bracket, as the
    data, both as text; the human-readable text follows. *)
Theorem unknown_resp_code_kept view cur atom data text rest :
  atom <> [] -> Forall (fun c => accepted atom_specials c = true) atom ->
  imap4_token atom = None ->
  data <> [] ->
  Forall (fun c => accepted resp_text_code_reject c = true) data ->
  text <> [] -> Forall (fun c => accepted text_reject c = true) text ->
  skipn cur view
    = bs "[" ++ atom ++ bs " " ++ data ++ bs "] " ++ text ++ CR :: rest ->
  parse_resp_text view cur
  = (Val (PyStructSequence ResponseTextType
            [PyUnicode text; PyUnicode atom; PyUnicode data]),
     (cur + (1 + length atom + 1 + length data + 2 + length text))%nat).
Proof.
  intros Hane Hatom Htok Hdne Hdata Htne Htext H.
  assert (H0 : skipn cur view
               = "["%byte :: atom ++ " "%byte :: data
                   ++ "]"%byte :: " "%byte :: text ++ CR :: rest)
    by exact H.
  unfold parse_resp_text.
  rewrite (bind_Val _ _ _ _ _ _ (PEEKC_at _ _ _ _ H0)).
  change (Byte.eqb "[" "[") with true. cbv iota.
  rewrite (bind_Val _ _ _ _ _ _ (GETC_at _ _ _ _ H0)).
  pose proof (skipn_advance1 _ _ _ _ H0) as H1.
  rewrite (bind_Val _ _ _ _ _ _
             (bufcspn_before atom_specials view (S cur) atom " "%byte _
                Hatom eq_refl H1)).
  destruct atom as [|a0 atom'] eqn:Ea; [congruence|]. rewrite <- Ea in *.
  cbv zeta. rewrite Htok.
  pose proof (skipn_advance _ _ _ _ H1) as H2.
  assert (Code : (c <- PEEKC ;;
                  if Byte.eqb c " "%byte then
                    GETC ;;;
                    code_data <- parse_cspn resp_text_code_reject ;;
                    ret (PyUnicode atom, code_data)
                  else ret (PyUnicode atom, Py_None))
                   view (S cur + length atom)%nat
                 = (Val (PyUnicode atom, PyUnicode data),
                    (S (S cur + length atom) + length data)%nat)).
  { rewrite (bind_Val _ _ _ _ _ _ (PEEKC_at _ _ _ _ H2)).
    change (Byte.eqb " " " ") with true. cbv iota.
    rewrite (bind_Val _ _ _ _ _ _ (GETC_at _ _ _ _ H2)).
    pose proof (skipn_advance1 _ _ _ _ H2) as H3.
    rewrite (bind_Val _ _ _ _ _ _
               (parse_cspn_at resp_text_code_reject view _ data
                  ("]"%byte :: " "%byte :: text ++ CR :: rest)
                  Hdne Hdata eq_refl H3)).
    reflexivity. }
  rewrite (bind_Val _ _ _ _ _ _ Code).
  pose proof (skipn_advance1 _ _ _ _ H2) as H3.
  pose proof (skipn_advance _ _ _ _ H3) as H4.
  rewrite (bind_Val _ _ _ _ _ _ (EXPECTC_at _ _ _ _ H4)).
  pose proof (skipn_advance1 _ _ _ _ H4) as H5.
  rewrite (bind_Val _ _ _ _ _ _ (PEEKC_at _ _ _ _ H5)).
  change (Byte.eqb " " " ") with true. cbv iota.
  assert (T : (GETC ;;; parse_cspn text_reject) view
                (S (S (S cur + length atom) + length data))
              = (Val (PyUnicode text),
                 (S (S (S (S cur + length atom) + length data))
                  + length text)%nat)).
  { rewrite (bind_Val _ _ _ _ _ _ (GETC_at _ _ _ _ H5)).
    pose proof (skipn_advance1 _ _ _ _ H5) as H6.
    exact (parse_cspn_at text_reject view _ text (CR :: rest)
             Htne Htext eq_refl H6). }
  rewrite (bind_Val _ _ _ _ _ _ T).
  unfold ret. simpl fst. simpl snd. f_equal. lia.
Qed.

Lemma unknown_resp_code_kept_witness :
  parse_resp_text (bs "[BADCHARSET (utf-8)] try again" ++ CRLF) 0%nat
  = (Val (PyStructSequence ResponseTextType
            [PyUnicode (bs "try again"); PyUnicode (bs "BADCHARSET");
             PyUnicode (bs "(utf-8)")]), 30%nat).
Proof.
  apply (unknown_resp_code_kept
           (bs "[BADCHARSET (utf-8)] try again" ++ CRLF) 0%nat
           (bs "BADCHARSET") (bs "(utf-8)") (bs "try again") [LF]).
  - discriminate.
  - repeat constructor.
  - reflexivity.
  - discriminate.
  - repeat constructor.
  - discriminate.
  - repeat constructor.
  - reflexivity.
Defined.

(* ------------------------------------------------------------------ *)
(** ** The attributes of a FETCH response *)

Lemma progressing_bind {A B} (p : parser A) (f : A -> parser B) :
  progressing p -> (forall a, steady (f a)) -> progressing (bind p f).
Proof.
  intros [Hp Hg] Hf. split; [apply steady_bind; assumption|].
  intros view cur r cur' Hc H. unfold bind in H.
  destruct (p view cur) as [[a|e|a e] c1] eqn:P;
    destruct (Hp _ _ _ _ Hc P) as [L1 _];
    pose proof (Hg _ _ _ _ Hc P) as G; simpl in G.
  - assert (Hc1 : (c1 <= length view)%nat) by lia.
    destruct (Hf a _ _ _ _ Hc1 H) as [L2 _].
    destruct r; [lia | exact I | lia].
  - inversion H; subst. exact I.
  - assert (Hc1 : (c1 <= length view)%nat) by lia.
    destruct (f a view c1) as [[b|e'|b e'] c2] eqn:Q;
      destruct (Hf a _ _ _ _ Hc1 Q) as [L2 _]; inversion H; subst;
      try exact I; lia.
Qed.

Lemma progressing_below_bind {A B} k (p : parser A) (f : A -> parser B) :
  progressing p -> (forall a, steady_below k (f a)) ->
  progressing_below (S k) (bind p f).
Proof.
  intros Hp Hf. split; [apply below_bind_progress; assumption|].
  destruct Hp as [Hp Hg].
  intros view cur r cur' Hc Hm H. unfold bind in H.
  destruct (p view cur) as [[a|e|a e] c1] eqn:P;
    destruct (Hp _ _ _ _ Hc P) as [L1 _];
    pose proof (Hg _ _ _ _ Hc P) as G; simpl in G.
  - assert (Hc1 : (c1 <= length view)%nat) by lia.
    assert (Hm1 : (length view - c1 < k)%nat) by lia.
    destruct (Hf a _ _ _ _ Hc1 Hm1 H) as [L2 _].
    destruct r; [lia | exact I | lia].
  - inversion H; subst. exact I.
  - assert (Hc1 : (c1 <= length view)%nat) by lia.
    assert (Hm1 : (length view - c1 < k)%nat) by lia.
    destruct (f a view c1) as [[b|e'|b e'] c2] eqn:Q;
      destruct (Hf a _ _ _ _ Hc1 Hm1 Q) as [L2 _]; inversion H; subst;
      try exact I; lia.
Qed.

Lemma below_bind_after {A B} m k (p : parser A) (f : A -> parser B) :
  progressing_below m p -> (S k <= m)%nat ->
  (forall a, steady_below k (f a)) ->
  steady_below (S k) (bind p f).
Proof.
  intros [Hp Hg] Hkm Hf view cur r cur' Hc Hm H. unfold bind in H.
  assert (Hm' : (length view - cur < m)%nat) by lia.
  destruct (p view cur) as [[a|e|a e] c1] eqn:P;
    destruct (Hp _ _ _ _ Hc Hm' P) as [L1 F1];
    pose proof (Hg _ _ _ _ Hc Hm' P) as G; simpl in G.
  - assert (Hc1 : (c1 <= length view)%nat) by lia.
    assert (Hm1 : (length view - c1 < k)%nat) by lia.
    destruct (Hf a view c1 r cur' Hc1 Hm1 H) as [L2 F].
    split; [lia|auto].
  - inversion H; subst. auto.
  - assert (Hc1 : (c1 <= length view)%nat) by lia.
    assert (Hm1 : (length view - c1 < k)%nat) by lia.
    destruct (f a view c1) as [[b|e'|b e'] c2] eqn:Q;
      destruct (Hf a view c1 _ _ Hc1 Hm1 Q) as [L2 F2];
      inversion H; subst; (split; [lia | simpl in *; auto]).
Qed.

#[local] Hint Resolve steady_parse_bodysection steady_parse_body_extension
  steady_parse_body_fld_dsp steady_parse_body_fld_lang : steady.

Section FetchFacts.

Variable fetch_struct : FetchStructType -> list PyObject -> PyObject.
Variable parse_env_date : parser PyObject.
Variable parse_date_time : parser PyObject.
Hypothesis steady_parse_env_date : steady parse_env_date.
Hypothesis steady_parse_date_time : steady parse_date_time.

Lemma steady_parse_address : steady (parse_address fetch_struct).
Proof. unfold parse_address. steady_tac. Qed.

Lemma progressing_parse_address : progressing (parse_address fetch_struct).
Proof.
  unfold parse_address.
  apply progressing_bind; [apply progressing_EXPECTC|]. intros _. steady_tac.
Qed.

#[local] Hint Resolve steady_parse_address : steady.
#[local] Hint Resolve progressing_parse_address : progress.

Lemma env_addrs_loop_steady : forall fuel items,
  steady_below fuel (env_addrs_loop fetch_struct fuel items).
Proof. loop_steady env_addrs_loop. Qed.

#[local] Hint Resolve env_addrs_loop_steady : steady.

Lemma steady_parse_env_addrs : steady (parse_env_addrs fetch_struct).
Proof. unfold parse_env_addrs. steady_tac. Qed.

#[local] Hint Resolve steady_parse_env_addrs : steady.

Lemma steady_parse_envelope :
  steady (parse_envelope fetch_struct parse_env_date).
Proof. unfold parse_envelope. steady_tac. Qed.

Lemma steady_parse_body_fields : steady parse_body_fields.
Proof. unfold parse_body_fields. steady_tac. Qed.

Lemma body_ext_loop_steady : forall fuel items,
  steady_below fuel (body_ext_loop fuel items).
Proof. loop_steady body_ext_loop. Qed.

#[local] Hint Resolve steady_parse_envelope steady_parse_body_fields
  body_ext_loop_steady : steady.

Lemma steady_parse_body_ext_1part : steady parse_body_ext_1part.
Proof. unfold parse_body_ext_1part. steady_tac. Qed.

Lemma steady_parse_body_ext_mpart : steady parse_body_ext_mpart.
Proof. unfold parse_body_ext_mpart. steady_tac. Qed.

#[local] Hint Resolve steady_parse_body_ext_1part steady_parse_body_ext_mpart
  : steady.

Lemma body_type_1part_below j (item : parser PyObject) :
  steady_below j item ->
  steady_below j (body_type_1part fetch_struct parse_env_date item).
Proof. intros Hitem. unfold body_type_1part. below_tac Hitem. Qed.

Lemma body_parts_loop_steady j (item : parser PyObject) :
  progressing_below j item ->
  forall fuel parts,
    steady_below (Nat.min j fuel) (body_parts_loop item fuel parts).
Proof.
  intros Hitem fuel. induction fuel as [|k IH]; intros parts.
  - intros view cur r cur' Hc Hm. lia.
  - destruct j as [|j']; [intros view cur r cur' Hc Hm; lia|].
    cbn [body_parts_loop Nat.min].
    apply below_bind; [apply below_of_steady, steady_PEEKC|]. intros c.
    destruct (Byte.eqb c "("%byte); [|apply below_of_steady, steady_ret].
    apply (below_bind_after (S j')); [exact Hitem | lia |].
    intros b. apply (below_weaken (Nat.min (S j') k)); [apply IH | lia].
Qed.

Lemma body_type_mpart_below j (item : parser PyObject) :
  progressing_below j item ->
  steady_below j (body_type_mpart fetch_struct item).
Proof.
  intros Hitem view cur r cur' Hc Hm H. unfold body_type_mpart in H.
  refine (below_bind (Nat.min j (S (length view))) _ _
            (body_parts_loop_steady j item Hitem _ _) _
            view cur r cur' Hc _ H); [|lia].
  intros parts. apply below_of_steady. steady_tac.
Qed.

Lemma body_progressing : forall depth,
  progressing_below depth (body fetch_struct parse_env_date depth).
Proof.
  induction depth as [|k IH].
  - split; intros view cur r cur' Hc Hm; lia.
  - cbn [body].
    apply progressing_below_bind; [apply progressing_EXPECTC|]. intros _.
    apply below_bind; [apply below_of_steady, steady_PEEKC|]. intros c.
    apply below_bind.
    + destruct (Byte.eqb c "("%byte).
      * apply body_type_mpart_below. exact IH.
      * apply body_type_1part_below. exact (proj1 IH).
    + intros b. apply below_of_steady. steady_tac.
Qed.

Lemma steady_parse_body : steady (parse_body fetch_struct parse_env_date).
Proof.
  intros view cur r cur' Hc H.
  refine (proj1 (body_progressing (S (length view))) view cur r cur' Hc _ H).
  lia.
Qed.

#[local] Hint Resolve steady_parse_body : steady.

Lemma msg_att_loop_steady : forall fuel data bodysections,
  steady_below fuel
    (msg_att_loop fetch_struct parse_env_date parse_date_time
       fuel data bodysections).
Proof. loop_steady msg_att_loop. Qed.

#[local] Hint Resolve msg_att_loop_steady : steady.

Lemma steady_parse_msg_att :
  steady (parse_msg_att fetch_struct parse_env_date parse_date_time).
Proof. unfold parse_msg_att. steady_tac. Qed.

End FetchFacts.

(* ------------------------------------------------------------------ *)
(** ** The attributes of a FETCH response, as a whole *)

(** X25.  The parser of the attributes of a FETCH response, with the
    bodies, envelopes and address lists nested in them, never moves the
    cursor back nor past the end of the view, and neither its loops nor
    the nesting of its bodies run out of fuel, whatever the bytes of the
    view; the two parsers of dates, which call into Python, have to do
    the same. *)
Theorem fetch_attributes_stay_in_view fs ped pdt view cur r cur' :
  steady ped -> steady pdt ->
  (cur <= length view)%nat ->
  parse_msg_att fs ped pdt view cur = (r, cur') ->
  (cur <= cur' <= length view)%nat /\ fuel_ok r.
Proof.
  intros Hd Ht Hc H.
  exact (steady_parse_msg_att fs ped pdt Hd Ht view cur r cur' Hc H).
Qed.

Lemma fetch_attributes_stay_in_view_witness :
  (0 <= 62 <= length (bs "(UID 5 BODY ((" ++ quoted (bs "text") ++ bs " "
                        ++ quoted (bs "plain")
                        ++ bs " NIL NIL NIL " ++ quoted (bs "7bit")
                        ++ bs " 1 2) " ++ quoted (bs "mixed") ++ bs "))"))%nat
  /\ fuel_ok
       (Val (PyDict
          [(PyToken (Some IMAP4_UID), PyLong 5);
           (PyToken (Some IMAP4_BODY),
            PyTuple
              [PyUnicode (bs "multipart"); PyUnicode (bs "mixed");
               PyList
                 [PyTuple
                    [PyUnicode (bs "text"); PyUnicode (bs "plain");
                     PyDict []; Py_None; Py_None; PyUnicode (bs "7bit");
                     PyLong 1; PyLong 2;
                     Py_None; Py_None; Py_None; Py_None; PyList []]];
               PyDict []; Py_None; Py_None; Py_None; PyList []])])).
Proof.
  apply (fetch_attributes_stay_in_view struct_tuple parse_nstring_ascii
           parse_string
           (bs "(UID 5 BODY ((" ++ quoted (bs "text") ++ bs " "
              ++ quoted (bs "plain")
              ++ bs " NIL NIL NIL " ++ quoted (bs "7bit")
              ++ bs " 1 2) " ++ quoted (bs "mixed") ++ bs "))") 0%nat).
  - exact steady_parse_nstring_ascii.
  - exact steady_parse_string.
  - cbn. lia.
  - vm_compute. reflexivity.
Defined.

(* ------------------------------------------------------------------ *)
(** ** Address lists *)

Lemma reads_bind {A B} (p : parser A) (f : A -> parser B) e1 e2 v1 v2 :
  reads p e1 v1 -> reads (f v1) e2 v2 -> reads (bind p f) (e1 ++ e2) v2.
Proof.
  intros Hp Hf view cur post Hmax H. rewrite <- app_assoc in H.
  rewrite (bind_Val _ _ _ _ _ _ (Hp view cur _ Hmax H)).
  rewrite (Hf view _ post Hmax (skipn_advance _ _ _ _ H)).
  f_equal. rewrite length_app. lia.
Qed.

Lemma reads_EXPECTC c : reads (EXPECTC c) [c] tt.
Proof.
  intros view cur post _ H. rewrite (EXPECTC_at _ _ _ _ H).
  f_equal. simpl. lia.
Qed.

Lemma reads_EXPECTC_ret {A} c (v : A) : reads (EXPECTC c ;;; ret v) [c] v.
Proof.
  intros view cur post _ H.
  rewrite (bind_Val _ _ _ _ _ _ (EXPECTC_at _ _ _ _ H)).
  unfold ret. f_equal. simpl. lia.
Qed.

Lemma reads_parse_nstring n :
  nstr_ok n -> reads parse_nstring (nstr_bytes n) (nstr_value n).
Proof.
  intros Hn view cur post Hmax H.
  destruct n as [|x e]; cbn [nstr_bytes nstr_value nstr_ok] in *.
  - exact (nstring_nil_at view cur post H).
  - destruct (imap_string_first x e Hn) as (c & r & Ec & _ & EN & _).
    assert (H' : skipn cur view = c :: r ++ post)
      by (rewrite H, Ec; reflexivity).
    unfold parse_nstring.
    rewrite (bind_Val _ _ _ _ _ _ (PEEKC_at _ _ _ _ H')), EN.
    exact (parse_string_at view cur x e post Hn Hmax H).
Qed.

Lemma reads_parse_address fs a :
  address_ok a ->
  reads (parse_address fs) (address_bytes a) (address_value fs a).
Proof.
  intros (Hn & Ha & Hm & Hh). unfold parse_address, address_bytes.
  apply reads_bind with (v1 := tt); [exact (reads_EXPECTC "("%byte)|].
  apply reads_bind with (v1 := nstr_value (addr_name a));
    [exact (reads_parse_nstring _ Hn)|].
  apply reads_bind with (v1 := tt); [exact (reads_EXPECTC " "%byte)|].
  apply reads_bind with (v1 := nstr_value (addr_adl a));
    [exact (reads_parse_nstring _ Ha)|].
  apply reads_bind with (v1 := tt); [exact (reads_EXPECTC " "%byte)|].
  apply reads_bind with (v1 := nstr_value (addr_mailbox a));
    [exact (reads_parse_nstring _ Hm)|].
  apply reads_bind with (v1 := tt); [exact (reads_EXPECTC " "%byte)|].
  apply reads_bind with (v1 := nstr_value (addr_host a));
    [exact (reads_parse_nstring _ Hh)|].
  exact (reads_EXPECTC_ret ")"%byte _).
Qed.

Lemma address_bytes_first a : exists r, address_bytes a = "("%byte :: r.
Proof. unfold address_bytes. eexists. reflexivity. Qed.

Lemma addresses_length (l : list address) :
  (length l <= length (flat_map address_bytes l))%nat.
Proof.
  induction l as [|a l IH]; [apply Nat.le_refl|].
  cbn [flat_map length]. rewrite length_app.
  destruct (address_bytes_first a) as (r & ->). simpl. lia.
Qed.

Lemma env_addrs_loop_at fs : forall rest first fuel acc view cur post,
  address_ok first -> Forall address_ok rest ->
  (length rest < fuel)%nat ->
  Z.of_nat (length view) <= PY_SSIZE_T_MAX ->
  skipn cur view
    = address_bytes first ++ flat_map address_bytes rest ++ bs ")" ++ post ->
  env_addrs_loop fs fuel acc view cur
  = (Val (acc ++ map (address_value fs) (first :: rest)),
     (cur + length (address_bytes first ++ flat_map address_bytes rest))%nat).
Proof.
  induction rest as [|a rest IH];
    intros first fuel acc view cur post Hf Hr Hfuel Hmax H;
    (destruct fuel as [|k]; [simpl in Hfuel; lia|]);
    cbn [env_addrs_loop];
    rewrite (bind_Val _ _ _ _ _ _
               (reads_parse_address fs first Hf view cur _ Hmax H));
    pose proof (skipn_advance _ _ _ _ H) as H1.
  - cbn [flat_map] in *.
    change ([] ++ bs ")" ++ post) with (")"%byte :: post) in H1.
    rewrite (bind_Val _ _ _ _ _ _ (PEEKC_at _ _ _ _ H1)).
    change (negb (Byte.eqb ")" "(")) with true. cbv iota.
    unfold ret. rewrite app_nil_r. reflexivity.
  - cbn [flat_map] in *. rewrite <- app_assoc in H1.
    inversion Hr as [|? ? Ha Hr']; subst.
    destruct (address_bytes_first a) as (r & Er).
    assert (H1' : skipn (cur + length (address_bytes first)) view
                  = "("%byte
                      :: r ++ flat_map address_bytes rest ++ bs ")" ++ post)
      by (rewrite H1, Er; reflexivity).
    rewrite (bind_Val _ _ _ _ _ _ (PEEKC_at _ _ _ _ H1')).
    change (negb (Byte.eqb "(" "(")) with false. cbv iota.
    assert (Hfuel' : (length rest < k)%nat) by (simpl in Hfuel; lia).
    rewrite (IH a k _ view _ post Ha Hr' Hfuel' Hmax H1).
    f_equal.
    + rewrite <- app_assoc. reflexivity.
    + rewrite !length_app. lia.
Qed.

Lemma reads_parse_env_addrs fs l :
  Forall address_ok l ->
  reads (parse_env_addrs fs) (env_addrs_bytes l) (env_addrs_value fs l).
Proof.
  intros Hl view cur post Hmax H.
  destruct l as [|a rest].
  - unfold parse_env_addrs. cbn [env_addrs_bytes env_addrs_value] in *.
    assert (S1 : skipn cur view = "N"%byte :: bs "IL" ++ post) by exact H.
    rewrite (bind_Val _ _ _ _ _ _ (PEEKC_at _ _ _ _ S1)).
    change (Byte.eqb "N" "N") with true. cbv iota.
    assert (Hne : bs "NIL" <> []) by discriminate.
    rewrite (bind_Val _ _ _ _ _ _
               (EXPECTS_at view cur (bs "NIL") post Hne H)).
    reflexivity.
  - unfold parse_env_addrs. cbn [env_addrs_bytes env_addrs_value] in *.
    inversion Hl as [|? ? Ha Hr]; subst.
    assert (H0 : skipn cur view
                 = "("%byte
                     :: address_bytes a ++ flat_map address_bytes rest
                          ++ bs ")" ++ post).
    { rewrite H. cbn [flat_map]. rewrite <- !app_assoc. reflexivity. }
    rewrite (bind_Val _ _ _ _ _ _ (PEEKC_at _ _ _ _ H0)).
    change (Byte.eqb "(" "N") with false. cbv iota.
    rewrite (bind_Val _ _ _ _ _ _ (EXPECTC_at _ _ _ _ H0)).
    pose proof (skipn_advance1 _ _ _ _ H0) as H1.
    assert (Hfuel : (length rest < S (length view))%nat).
    { pose proof (addresses_length rest) as L1.
      assert (L2 : length (skipn (S cur) view)
                   = length (address_bytes a ++ flat_map address_bytes rest
                               ++ bs ")" ++ post)) by congruence.
      rewrite length_skipn, !length_app in L2. lia. }
    rewrite (bind_Val _ _ _ _ _ _
               (env_addrs_loop_at fs rest a (S (length view)) [] view
                  (S cur) post Ha Hr Hfuel Hmax H1)).
    pose proof H1 as H2. rewrite app_assoc in H2.
    apply skipn_advance in H2.
    change (bs ")" ++ post) with (")"%byte :: post) in H2.
    rewrite (bind_Val _ _ _ _ _ _ (EXPECTC_at _ _ _ _ H2)).
    unfold ret. f_equal.
    cbn [flat_map]. rewrite !length_app.
    change (length (bs "(")) with 1%nat. change (length (bs ")")) with 1%nat.
    lia.
Qed.

Lemma env_addrs_loop_Val fs fuel : forall acc view cur items cur',
  env_addrs_loop fs fuel acc view cur = (Val items, cur') -> items <> [].
Proof.
  induction fuel as [|k IH]; intros acc view cur items cur' H;
    [discriminate|].
  cbn [env_addrs_loop] in H.
  apply bind_Val_inv in H. destruct H as (item & c1 & _ & H).
  apply bind_Val_inv in H. destruct H as (c & c2 & _ & H).
  destruct (negb (Byte.eqb c "("%byte)).
  - inversion H; subst. destruct acc; discriminate.
  - exact (IH _ _ _ _ _ H).
Qed.

(** X26.  A list of addresses is written NIL or as one or more
    addresses between parentheses, each of four nstrings and with
    nothing between two addresses.  [parse_env_addrs] returns [None] for
    NIL and else the list of the addresses in the order written, each
    with its name, route, mailbox and host in the fields 0 to 3.  On no
    input does it return an empty list. *)
Theorem env_addrs_round_trip fs view cur :
  (forall l post,
     Forall address_ok l ->
     Z.of_nat (length view) <= PY_SSIZE_T_MAX ->
     skipn cur view = env_addrs_bytes l ++ post ->
     parse_env_addrs fs view cur
     = (Val (env_addrs_value fs l),
        (cur + length (env_addrs_bytes l))%nat))
  /\ (forall r cur',
        parse_env_addrs fs view cur = (r, cur') -> r <> Val (PyList [])).
Proof.
  split.
  - intros l post Hl Hmax H.
    exact (reads_parse_env_addrs fs l Hl view cur post Hmax H).
  - intros r cur' H E. subst r. unfold parse_env_addrs in H.
    apply bind_Val_inv in H. destruct H as (c & c1 & _ & H).
    destruct (Byte.eqb c "N"%byte).
    + apply bind_Val_inv in H. destruct H as (? & c2 & _ & H).
      discriminate.
    + apply bind_Val_inv in H. destruct H as (? & c2 & _ & H).
      apply bind_Val_inv in H. destruct H as (items & c3 & L & H).
      apply bind_Val_inv in H. destruct H as (? & c4 & _ & H).
      inversion H; subst.
      exact (env_addrs_loop_Val _ _ _ _ _ _ _ L eq_refl).
Qed.

Lemma env_addrs_round_trip_witness :
  parse_env_addrs struct_tuple
    (bs "((NIL NIL " ++ quoted (bs "ann") ++ bs " "
       ++ quoted (bs "example.org") ++ bs ")) ") 0%nat
  = (Val (PyList [PyTuple [Py_None; Py_None; PyBytes (bs "ann");
                           PyBytes (bs "example.org")]]),
     31%nat)
  /\ fst (parse_env_addrs struct_tuple (bs "() ") 0%nat)
     <> Val (PyList []).
Proof.
  split.
  - apply (proj1 (env_addrs_round_trip struct_tuple
                    (bs "((NIL NIL " ++ quoted (bs "ann") ++ bs " "
                       ++ quoted (bs "example.org") ++ bs ")) ") 0%nat)
             [Address nstr_nil nstr_nil
                (nstr_string (bs "ann") (quoted (bs "ann")))
                (nstr_string (bs "example.org")
                   (quoted (bs "example.org")))]
             (bs " ")).
    + constructor; [|constructor].
      split; [exact I|]. split; [exact I|].
      split; apply imap_quoted.
    + vm_compute. discriminate.
    + reflexivity.
  - apply (proj2 (env_addrs_round_trip struct_tuple (bs "() ") 0%nat)
             _ (snd (parse_env_addrs struct_tuple (bs "() ") 0%nat))).
    reflexivity.
Defined.

(* ------------------------------------------------------------------ *)
(** ** Envelopes *)

(** X27.  An envelope is read back field by field: after the date, the
    subject, the six address lists from, sender, reply-to, to, cc and
    bcc, then in-reply-to and the message id, each separated from the
    next by one space, fill the fields 1 to 9 in that order; an address
    list or a string written NIL gives [None].  The date is whatever the
    parser of dates makes of its bytes. *)
Theorem envelope_round_trip fs ped date dv e view cur post :
  reads ped date dv ->
  envelope_ok e ->
  Z.of_nat (length view) <= PY_SSIZE_T_MAX ->
  skipn cur view = envelope_bytes date e ++ post ->
  parse_envelope fs ped view cur
  = (Val (envelope_value fs dv e),
     (cur + length (envelope_bytes date e))%nat).
Proof.
  intros Hd (Hs & Hf & Hse & Hr & Ht & Hc & Hb & Hi & Hm).
  revert view cur post.
  change (reads (parse_envelope fs ped) (envelope_bytes date e)
            (envelope_value fs dv e)).
  unfold parse_envelope, envelope_bytes.
  apply reads_bind with (v1 := tt); [exact (reads_EXPECTC "("%byte)|].
  apply reads_bind with (v1 := dv); [exact Hd|].
  apply reads_bind with (v1 := tt); [exact (reads_EXPECTC " "%byte)|].
  apply reads_bind with (v1 := nstr_value (env_subject e));
    [exact (reads_parse_nstring _ Hs)|].
  apply reads_bind with (v1 := tt); [exact (reads_EXPECTC " "%byte)|].
  apply reads_bind with (v1 := env_addrs_value fs (env_from e));
    [exact (reads_parse_env_addrs fs _ Hf)|].
  apply reads_bind with (v1 := tt); [exact (reads_EXPECTC " "%byte)|].
  apply reads_bind with (v1 := env_addrs_value fs (env_sender e));
    [exact (reads_parse_env_addrs fs _ Hse)|].
  apply reads_bind with (v1 := tt); [exact (reads_EXPECTC " "%byte)|].
  apply reads_bind with (v1 := env_addrs_value fs (env_reply_to e));
    [exact (reads_parse_env_addrs fs _ Hr)|].
  apply reads_bind with (v1 := tt); [exact (reads_EXPECTC " "%byte)|].
  apply reads_bind with (v1 := env_addrs_value fs (env_to e));
    [exact (reads_parse_env_addrs fs _ Ht)|].
  apply reads_bind with (v1 := tt); [exact (reads_EXPECTC " "%byte)|].
  apply reads_bind with (v1 := env_addrs_value fs (env_cc e));
    [exact (reads_parse_env_addrs fs _ Hc)|].
  apply reads_bind with (v1 := tt); [exact (reads_EXPECTC " "%byte)|].
  apply reads_bind with (v1 := env_addrs_value fs (env_bcc e));
    [exact (reads_parse_env_addrs fs _ Hb)|].
  apply reads_bind with (v1 := tt); [exact (reads_EXPECTC " "%byte)|].
  apply reads_bind with (v1 := nstr_value (env_in_reply_to e));
    [exact (reads_parse_nstring _ Hi)|].
  apply reads_bind with (v1 := tt); [exact (reads_EXPECTC " "%byte)|].
  apply reads_bind with (v1 := nstr_value (env_message_id e));
    [exact (reads_parse_nstring _ Hm)|].
  exact (reads_EXPECTC_ret ")"%byte _).
Qed.

Lemma envelope_round_trip_witness :
  parse_envelope struct_tuple parse_nstring_ascii
    (bs "(NIL " ++ quoted (bs "hello") ++ bs " ((NIL NIL "
       ++ quoted (bs "ann") ++ bs " " ++ quoted (bs "example.org")
       ++ bs ")) NIL NIL NIL NIL NIL NIL " ++ quoted (bs "<1@x>") ++ bs ")")
    0%nat
  = (Val (PyTuple
            [Py_None; PyBytes (bs "hello");
             PyList [PyTuple [Py_None; Py_None; PyBytes (bs "ann");
                              PyBytes (bs "example.org")]];
             Py_None; Py_None; Py_None; Py_None; Py_None; Py_None;
             PyBytes (bs "<1@x>")]),
     77%nat).
Proof.
  apply (envelope_round_trip struct_tuple parse_nstring_ascii
           (bs "NIL") Py_None
           (Envelope
              (nstr_string (bs "hello") (quoted (bs "hello")))
              [Address nstr_nil nstr_nil
                 (nstr_string (bs "ann") (quoted (bs "ann")))
                 (nstr_string (bs "example.org")
                    (quoted (bs "example.org")))]
              [] [] [] [] [] nstr_nil
              (nstr_string (bs "<1@x>") (quoted (bs "<1@x>"))))
           (bs "(NIL " ++ quoted (bs "hello") ++ bs " ((NIL NIL "
              ++ quoted (bs "ann") ++ bs " " ++ quoted (bs "example.org")
              ++ bs ")) NIL NIL NIL NIL NIL NIL " ++ quoted (bs "<1@x>")
              ++ bs ")")
           0%nat []).
  - intros view cur post _ H.
    exact (parse_nstring_ascii_nil_at view cur post H).
  - split; [apply imap_quoted|].
    split; [constructor; [|constructor];
            (split; [exact I|]); (split; [exact I|]);
            split; apply imap_quoted|].
    do 5 (split; [constructor|]).
    split; [exact I | apply imap_quoted].
  - vm_compute. discriminate.
  - reflexivity.
Defined.

(* ------------------------------------------------------------------ *)
(** ** The fields of a body *)

Ltac val_inv H :=
  repeat (cbv beta in H;
          match type of H with
          | bind _ _ _ _ = (Val _, _) =>
              apply bind_Val_inv in H; destruct H as (? & ? & ? & H)
          | (if ?b then _ else _) _ _ = (Val _, _) => destruct b
          end).

Lemma parse_body_fields_Val view cur fields cur' :
  parse_body_fields view cur = (Val fields, cur') -> length fields = 5%nat.
Proof.
  unfold parse_body_fields. intros H. val_inv H.
  inversion H; subst. reflexivity.
Qed.

Lemma parse_body_ext_1part_Val view cur ext cur' :
  parse_body_ext_1part view cur = (Val ext, cur') -> (length ext <= 5)%nat.
Proof.
  unfold parse_body_ext_1part. intros H. val_inv H;
    inversion H; subst; simpl; lia.
Qed.

Lemma parse_body_ext_mpart_Val view cur ext cur' :
  parse_body_ext_mpart view cur = (Val ext, cur') -> (length ext <= 5)%nat.
Proof.
  unfold parse_body_ext_mpart. intros H. val_inv H;
    inversion H; subst; simpl; lia.
Qed.

Lemma pad_ext_length defaults ext :
  (length ext <= length defaults)%nat ->
  length (pad_ext defaults ext) = length defaults.
Proof.
  intros H. unfold pad_ext. rewrite length_app, length_skipn. lia.
Qed.

Lemma ext_1part_Val view cur ext cur' c :
  (if Byte.eqb c " "%byte then GETC ;;; parse_body_ext_1part else ret [])
    view cur = (Val ext, cur') ->
  length (pad_ext ext_defaults_1part ext) = 5%nat.
Proof.
  intros H. apply pad_ext_length.
  destruct (Byte.eqb c " "%byte).
  - apply bind_Val_inv in H. destruct H as (? & ? & _ & H).
    exact (parse_body_ext_1part_Val _ _ _ _ H).
  - inversion H; subst. simpl. lia.
Qed.

Lemma ext_mpart_Val view cur ext cur' c :
  (if Byte.eqb c " "%byte then GETC ;;; parse_body_ext_mpart else ret [])
    view cur = (Val ext, cur') ->
  length (pad_ext ext_defaults_mpart ext) = 5%nat.
Proof.
  intros H. apply pad_ext_length.
  destruct (Byte.eqb c " "%byte).
  - apply bind_Val_inv in H. destruct H as (? & ? & _ & H).
    exact (parse_body_ext_mpart_Val _ _ _ _ H).
  - inversion H; subst. simpl. lia.
Qed.

Lemma body_type_1part_Val fs ped pb view cur o cur' :
  body_type_1part fs ped pb view cur = (Val o, cur') ->
  exists t fields,
    o = fs t fields /\ is_body_type t = true
    /\ length fields = n_in_sequence t.
Proof.
  unfold body_type_1part. intros H.
  apply bind_Val_inv in H. destruct H as (media_type & ? & _ & H).
  apply bind_Val_inv in H. destruct H as (? & ? & _ & H).
  apply bind_Val_inv in H. destruct H as (media_subtype & ? & _ & H).
  apply bind_Val_inv in H. destruct H as (? & ? & _ & H).
  apply bind_Val_inv in H. destruct H as (typed & ? & Ht & H).
  apply bind_Val_inv in H. destruct H as (c & ? & _ & H).
  apply bind_Val_inv in H. destruct H as (ext & ? & He & H).
  apply ext_1part_Val in He. inversion H; subst.
  exists (fst typed), (media_type :: media_subtype :: snd typed
                         ++ pad_ext ext_defaults_1part ext).
  split; [reflexivity|].
  cbn [length]. rewrite length_app, He.
  destruct (str_is media_type (bs "text"));
    [|destruct (str_is media_type (bs "message")
                && str_is media_subtype (bs "rfc822"))];
    val_inv Ht;
    match goal with
    | F : parse_body_fields _ _ = _ |- _ =>
        apply parse_body_fields_Val in F
    end;
    inversion Ht; subst; cbn [fst snd is_body_type n_in_sequence];
    rewrite ?length_app; cbn [length]; (split; [reflexivity | lia]).
Qed.

Lemma body_type_mpart_Val fs pb view cur o cur' :
  body_type_mpart fs pb view cur = (Val o, cur') ->
  exists t fields,
    o = fs t fields /\ is_body_type t = true
    /\ length fields = n_in_sequence t.
Proof.
  unfold body_type_mpart. intros H.
  apply bind_Val_inv in H. destruct H as (parts & ? & _ & H).
  apply bind_Val_inv in H. destruct H as (? & ? & _ & H).
  apply bind_Val_inv in H. destruct H as (media_subtype & ? & _ & H).
  apply bind_Val_inv in H. destruct H as (c & ? & _ & H).
  apply bind_Val_inv in H. destruct H as (ext & ? & He & H).
  apply ext_mpart_Val in He. inversion H; subst.
  eexists MultipartBodyType, _. split; [reflexivity|].
  split; [reflexivity|]. cbn [length n_in_sequence]. rewrite He. reflexivity.
Qed.

(** X28.  A body comes back as a struct sequence of one of the four
    body types with every field of the type set, as many as types.c
    declares for it (13 for a text body, 15 for a message, 12 for any
    other single part, 8 for a multipart), however few of the optional
    extension fields the server sent. *)
Theorem body_has_all_fields fs ped view cur o cur' :
  parse_body fs ped view cur = (Val o, cur') ->
  exists t fields,
    o = fs t fields /\ is_body_type t = true
    /\ length fields = n_in_sequence t.
Proof.
  unfold parse_body. cbn [body]. intros H.
  apply bind_Val_inv in H. destruct H as (? & ? & _ & H).
  apply bind_Val_inv in H. destruct H as (c & ? & _ & H).
  apply bind_Val_inv in H. destruct H as (b & ? & Hb & H).
  apply bind_Val_inv in H. destruct H as (? & ? & _ & H).
  inversion H; subst.
  destruct (Byte.eqb c "("%byte).
  - exact (body_type_mpart_Val _ _ _ _ _ _ Hb).
  - exact (body_type_1part_Val _ _ _ _ _ _ _ Hb).
Qed.

Lemma body_has_all_fields_witness :
  exists t fields,
    PyTuple
      [PyUnicode (bs "application"); PyUnicode (bs "pdf"); PyDict [];
       Py_None; Py_None; PyUnicode (bs "base64"); PyLong 42;
       PyUnicode (bs "q1"); Py_None; Py_None; Py_None; PyList []]
    = struct_tuple t fields
    /\ is_body_type t = true /\ length fields = n_in_sequence t.
Proof.
  apply (body_has_all_fields struct_tuple parse_nstring_ascii
           (bs "(" ++ quoted (bs "APPLICATION") ++ bs " "
              ++ quoted (bs "PDF") ++ bs " NIL NIL NIL "
              ++ quoted (bs "BASE64") ++ bs " 42 " ++ quoted (bs "q1")
              ++ bs ")")
           0%nat _ 50%nat).
  vm_compute. reflexivity.
Defined.

(* ------------------------------------------------------------------ *)
(** ** The dictionary of a FETCH response *)

Lemma Token_eqb_eq a b : Token_eqb a b = true -> a = b.
Proof.
  unfold Token_eqb. destruct (Token_eq_dec a b); [auto | discriminate].
Qed.

Lemma PyObject_eqb_token t k :
  PyObject_eqb (PyToken (Some t)) k = true -> k = PyToken (Some t).
Proof.
  destruct k as [| | | | | |[t'|]| | | | |]; try discriminate.
  simpl. intros E. apply Token_eqb_eq in E. subst. reflexivity.
Qed.

Lemma PyObject_eqb_token_refl t :
  PyObject_eqb (PyToken (Some t)) (PyToken (Some t)) = true.
Proof.
  simpl. unfold Token_eqb. destruct (Token_eq_dec t t); congruence.
Qed.

Lemma PyDict_SetItem_key_in d : forall k v x,
  In x (map fst (PyDict_SetItem d k v)) -> In x (map fst d) \/ x = k.
Proof.
  induction d as [|[k' v'] d IH]; intros k v x H; simpl in H.
  - destruct H as [H|[]]. right. auto.
  - destruct (PyObject_eqb k k'); simpl in H.
    + left. exact H.
    + destruct H as [H|H]; [left; left; exact H|].
      destruct (IH _ _ _ H) as [H'|H']; [left; right; exact H' | right; exact H'].
Qed.

Lemma PyDict_SetItem_keys d : forall k v,
  PyObject_eqb k k = true ->
  NoDup (map fst d) -> NoDup (map fst (PyDict_SetItem d k v)).
Proof.
  induction d as [|[k' v'] d IH]; intros k v Hk Hd; simpl.
  - constructor; [intros [] | constructor].
  - simpl in Hd. inversion Hd as [|? ? Hn Hd']; subst.
    destruct (PyObject_eqb k k') eqn:E; simpl.
    + constructor; assumption.
    + constructor; [|apply IH; assumption].
      intros Hin. destruct (PyDict_SetItem_key_in _ _ _ _ Hin) as [H|H].
      * contradiction.
      * subst. congruence.
Qed.

Lemma PyDict_SetItem_not_nil d k v : PyDict_SetItem d k v <> [].
Proof.
  destruct d as [|[k' v'] d]; simpl; [discriminate|].
  destruct (PyObject_eqb k k'); discriminate.
Qed.

Lemma PyDict_SetItem_token_entries d t v :
  Forall fetch_entry d -> fetch_entry (PyToken (Some t), v) ->
  Forall fetch_entry (PyDict_SetItem d (PyToken (Some t)) v).
Proof.
  intros Hd Hv.
  induction d as [|[k' v'] d IH]; cbn [PyDict_SetItem].
  - constructor; [exact Hv | constructor].
  - inversion Hd as [|? ? Hk Hd']; subst.
    destruct (PyObject_eqb (PyToken (Some t)) k') eqn:E.
    + apply PyObject_eqb_token in E. subst.
      constructor; assumption.
    + constructor; [assumption | apply IH; assumption].
Qed.

Lemma fetch_items_set data t v :
  fetch_items data ->
  fetch_key (PyToken (Some t)) = true ->
  (t = IMAP4_BODYSECTIONS -> exists sections, v = PyDict sections) ->
  fetch_items (PyDict_SetItem data (PyToken (Some t)) v)
  /\ PyDict_SetItem data (PyToken (Some t)) v <> [].
Proof.
  intros [Hn Hf] Hk Hv. split; [split|].
  - apply PyDict_SetItem_keys; [apply PyObject_eqb_token_refl | exact Hn].
  - apply PyDict_SetItem_token_entries; [exact Hf|].
    split; [exact Hk|]. cbn [fst snd]. intros E. apply Hv. congruence.
  - apply PyDict_SetItem_not_nil.
Qed.

Lemma bind_ret {A B} (a : A) (f : A -> parser B) view cur :
  bind (ret a) f view cur = f a view cur.
Proof. reflexivity. Qed.

Ltac bind_inv H :=
  repeat first
    [ rewrite PyDict_SetItemToken_clear in H
    | rewrite bind_ret in H
    | apply bind_Val_inv in H; destruct H as (? & ? & ? & H) ].

Lemma msg_att_loop_Val fs ped pdt fuel :
  forall data bodysections view cur out cur',
    fetch_items data ->
    msg_att_loop fs ped pdt fuel data bodysections view cur
    = (Val out, cur') ->
    fetch_items out /\ out <> [].
Proof.
  induction fuel as [|k IH];
    intros data bodysections view cur out cur' Hd H; [discriminate|].
  cbn [msg_att_loop] in H.
  apply bind_Val_inv in H. destruct H as (token & c1 & _ & H).
  apply bind_Val_inv in H. destruct H as (state & c2 & Hstate & H).
  assert (Hst : fetch_items (fst state) /\ fst state <> []).
  { clear H IH.
    destruct token as [[]|]; cbv beta iota zeta in Hstate;
      try (unfold fail in Hstate; discriminate Hstate);
      try (bind_inv Hstate; inversion Hstate; subst; cbn [fst];
           apply fetch_items_set;
           [exact Hd | reflexivity | intros E; discriminate E]).
    apply bind_Val_inv in Hstate. destruct Hstate as (c & c3 & _ & Hstate).
    destruct (Byte.eqb c "["%byte).
    - destruct bodysections; bind_inv Hstate; inversion Hstate; subst;
        cbn [fst];
        (apply fetch_items_set;
         [|reflexivity|intros _; eexists; reflexivity]);
        [exact Hd|].
      apply fetch_items_set;
        [exact Hd | reflexivity | intros _; eexists; reflexivity].
    - bind_inv Hstate. inversion Hstate; subst. cbn [fst].
      apply fetch_items_set;
        [exact Hd | reflexivity | intros E; discriminate E]. }
  apply bind_Val_inv in H. destruct H as (c & c3 & _ & H).
  destruct (negb (Byte.eqb c " "%byte)).
  - inversion H; subst. exact Hst.
  - apply bind_Val_inv in H. destruct H as (? & c4 & _ & H).
    exact (IH _ _ _ _ _ _ (proj1 Hst) H).
Qed.

(** X29.  The attributes of a FETCH response come back as a dictionary
    that is never empty, whose keys are tokens, each at most once and
    each one of the twelve items the parser knows or BODYSECTIONS; what
    is stored under BODYSECTIONS is itself a dictionary. *)
Theorem fetch_items_keyed_by_tokens fs ped pdt view cur o cur' :
  parse_msg_att fs ped pdt view cur = (Val o, cur') ->
  exists data,
    o = PyDict data /\ data <> [] /\ NoDup (map fst data)
    /\ Forall fetch_entry data.
Proof.
  intros H. unfold parse_msg_att in H.
  apply bind_Val_inv in H. destruct H as (? & c1 & _ & H).
  apply bind_Val_inv in H. destruct H as (data & c2 & Hloop & H).
  apply bind_Val_inv in H. destruct H as (? & c3 & _ & H).
  inversion H; subst.
  assert (H0 : fetch_items []) by (split; constructor).
  destruct (msg_att_loop_Val _ _ _ _ _ _ _ _ _ _ H0 Hloop) as ((Hn & Hf) & Hne).
  exists data. repeat split; assumption.
Qed.

Lemma fetch_items_keyed_by_tokens_witness :
  exists data,
    PyDict
      [(PyToken (Some IMAP4_BODYSECTIONS),
        PyDict [(PyUnicode (bs "1"), PyTuple [PyBytes (bs "ab"); Py_None]);
                (PyUnicode (bs "2"), PyTuple [Py_None; PyLong 4])]);
       (PyToken (Some IMAP4_UID), PyLong 6)]
    = PyDict data
    /\ data <> [] /\ NoDup (map fst data) /\ Forall fetch_entry data.
Proof.
  apply (fetch_items_keyed_by_tokens struct_tuple parse_nstring_ascii
           parse_string
           (bs "(BODY[1] " ++ quoted (bs "ab")
              ++ bs " UID 5 BODY[2]<4> NIL UID 6)") 0%nat _ 41%nat).
  vm_compute. reflexivity.
Defined.

End ParseFacts.
